(** * Reactive property model of Linux Show Player

    A shallow embedding of [lisp/core/has_properties.py]:
    the metaclass [HasPropertiesMeta] (the per-class registry of property
    names and its propagation through the class hierarchy), the base class
    [HasProperties] (export, import and change notification) and its variant
    [HasInstanceProperties] (instance-local properties).

    Python objects are mutable and shared, so instances live on a heap
    addressed by identity; signals are identified by the order in which they
    are constructed and every emission is recorded in a log, together with
    the instances as they are when it is delivered. *)

From stdpp Require Import base option list gmap sets strings numbers.

Set Warnings "-register-all".

Open Scope string_scope.
Open Scope list_scope.
Open Scope nat_scope.

(** ** Values *)

Abbreviation addr := positive.
Abbreviation sigid := positive.

(** Python values that a property may hold.  A dict keeps its insertion
    order, so it is an association list; a [VObj] is a reference to a
    [HasProperties] instance and a [VIProp] a reference to an
    [InstanceProperty] wrapper. *)
Inductive value :=
| VNone
| VInt (z : Z)
| VStr (s : string)
| VDict (d : list (string * value))
| VObj (a : addr)
| VIProp (w : addr).

Abbreviation dict := (list (string * value)).

Fixpoint dict_get (k : string) (d : dict) : option value :=
  match d with
  | [] => None
  | (k', v) :: rest => if String.eqb k k' then Some v else dict_get k rest
  end.

(** Python's [==] on values: scalars by value, dicts key by key whatever
    the insertion order, objects by identity. *)
Fixpoint py_eq (v w : value) : bool :=
  match v, w with
  | VNone, VNone => true
  | VInt a, VInt b => Z.eqb a b
  | VStr a, VStr b => String.eqb a b
  | VObj a, VObj b => Pos.eqb a b
  | VIProp a, VIProp b => Pos.eqb a b
  | VDict d, VDict e =>
      Nat.eqb (length d) (length e)
      && forallb (fun kv => match dict_get (fst kv) e with
                            | Some y => py_eq (snd kv) y
                            | None => false
                            end) d
  | _, _ => false
  end.

Definition py_ne (v w : value) : bool := negb (py_eq v w).

Definition is_object (v : value) : bool :=
  match v with VObj _ => true | _ => false end.

(** What the attribute lookup on a class finds under a name: a [Property]
    descriptor (with its declared default) or any other class attribute. *)
Inductive cattr :=
| CProperty (default : value)
| CPlain (v : value).

Definition is_property (c : cattr) : bool :=
  match c with CProperty _ => true | CPlain _ => false end.

(** ** The metaclass: registry of property names *)

Module Meta.

Abbreviation cid := nat.

(** A base class is "proper" when it was itself built by the metaclass;
    any other base ([object], a mixin) contributes nothing. *)
Inductive base :=
| Proper (c : cid)
| Foreign.

#[global] Instance base_eq_dec : EqDecision base.
Proof. solve_decision. Defined.

Record cls := Cls {
  bases : list base;
  namespace : gmap string cattr;
  _properties_ : gset string
}.

(** The classes alive in the interpreter, in creation order; a class is
    named by its position. *)
Abbreviation table := (list cls).

Definition with_properties (f : gset string → gset string) (c : cls) : cls :=
  Cls (bases c) (namespace c) (f (_properties_ c)).

Definition with_namespace (f : gmap string cattr → gmap string cattr) (c : cls) : cls :=
  Cls (bases c) (f (namespace c)) (_properties_ c).

Definition registry (t : table) (c : cid) : gset string :=
  from_option _properties_ ∅ (t !! c).

(** Names bound to a [Property] in a class body. *)
Definition declared (ns : gmap string cattr) : gset string :=
  dom (filter (λ kv, is_property kv.2 = true) ns).

Definition base_registry (t : table) (b : base) : option (gset string) :=
  match b with
  | Proper c => _properties_ <$> t !! c
  | Foreign => Some ∅
  end.

(** [HasPropertiesMeta.__new__]: the registry of the new class is the set of
    names declared in its body, updated with the registry of every proper
    base.  [None] when a base does not exist. *)
Definition __new__ (bs : list base) (ns : gmap string cattr) (t : table)
  : option (cid * table) :=
  inherited ← mapM (base_registry t) bs;
  Some (length t, t ++ [Cls bs ns (foldl (∪) (declared ns) inherited)]).

(** [s] names [c] among its bases. *)
Definition direct_sub (t : table) (s c : cid) : Prop :=
  Proper c ∈ from_option bases [] (t !! s).

#[global] Instance direct_sub_dec t s c : Decision (direct_sub t s c).
Proof. unfold direct_sub. apply _. Defined.

(** [cls.__subclasses__()]: the live direct subclasses. *)
Definition __subclasses__ (t : table) (c : cid) : list cid :=
  filter (λ s, direct_sub t s c) (seq 0 (length t)).

(** [_add_property] and [_del_property] walk the hierarchy downwards; the
    fuel bounds the depth of the recursion. *)
Fixpoint _add_property (fuel : nat) (c : cid) (name : string) (t : table)
  : option table :=
  match fuel with
  | O => None
  | S k =>
      let t1 := alter (with_properties (λ r, r ∪ {[name]})) c t in
      foldl (λ acc s, acc ≫= _add_property k s name) (Some t1)
            (__subclasses__ t1 c)
  end.

Fixpoint _del_property (fuel : nat) (c : cid) (name : string) (t : table)
  : option table :=
  match fuel with
  | O => None
  | S k =>
      let t1 := alter (with_properties (λ r, r ∖ {[name]})) c t in
      foldl (λ acc s, acc ≫= _del_property k s name) (Some t1)
            (__subclasses__ t1 c)
  end.

(** Outcome of an operation on a class: the new table or an
    [AttributeError]. *)
Inductive outcome :=
| Done (t : table)
| AttributeError
| Exhausted.

(** [HasPropertiesMeta.__setattr__]: bind the attribute in the class, then
    register the name when the value is a [Property]. *)
Definition __setattr__ (fuel : nat) (c : cid) (name : string) (v : cattr)
    (t : table) : outcome :=
  let t1 := alter (with_namespace (insert name v)) c t in
  if is_property v then
    match _add_property fuel c name t1 with
    | Some t2 => Done t2
    | None => Exhausted
    end
  else Done t1.

(** [HasPropertiesMeta.__delattr__]: [type.__delattr__] fails when the class
    itself does not bind the name; otherwise the name is unregistered when
    the registry of the class holds it. *)
Definition __delattr__ (fuel : nat) (c : cid) (name : string) (t : table)
  : outcome :=
  match t !! c with
  | None => AttributeError
  | Some k =>
      match namespace k !! name with
      | None => AttributeError
      | Some _ =>
          let t1 := alter (with_namespace (delete name)) c t in
          if decide (name ∈ registry t1 c) then
            match _del_property fuel c name t1 with
            | Some t2 => Done t2
            | None => Exhausted
            end
          else Done t1
      end
  end.

(** [s] is a direct or transitive subclass of [c]. *)
Definition subclass (t : table) : cid → cid → Prop := tc (direct_sub t).

(** The registry superset invariant. *)
Definition superset_invariant (t : table) : Prop :=
  ∀ s c, subclass t s c → registry t c ⊆ registry t s.

(** Classes are created after their bases. *)
Definition well_founded_table (t : table) : Prop :=
  ∀ s c, direct_sub t s c → c < s.

(** Two tables with the same classes and the same bases. *)
Definition same_shape (t t' : table) : Prop :=
  length t' = length t ∧
  ∀ i, bases <$> t' !! i = bases <$> t !! i.

(** [added name roots t t']: [t'] is [t] with [name] registered in every
    class at or below one of the [roots], and nothing else changed. *)
Definition added (name : string) (roots : cid → Prop) (t t' : table) : Prop :=
  same_shape t t' ∧
  ∀ d x, x ∈ registry t' d ↔
         x ∈ registry t d ∨ (x = name ∧ ∃ r, roots r ∧ rtc (direct_sub t) d r).

(** A small hierarchy: [HasProperties] itself, a class [T] declaring the
    property [p], and a subclass [S] of [T] that declares [p] again with
    another default. *)
Definition hierarchy : option table :=
  '(_, t0) ← __new__ [] ∅ [];
  '(_, t1) ← __new__ [Proper 0] {[ "p" := CProperty (VInt 0) ]} t0;
  '(_, t2) ← __new__ [Proper 1] {[ "p" := CProperty (VInt 1) ]} t1;
  Some t2.

End Meta.

(** ** Instances: heap, signals and errors *)

(** The class of an instance as the instance sees it: the registry
    [_properties_], what [getattr(cls, name)] finds, and whether the class
    derives from [HasInstanceProperties]. *)
Record klass := Klass {
  k_properties : gset string;
  k_attrs : gmap string cattr;
  k_instance_properties : bool
}.

Record obj := Obj {
  o_class : klass;
  o_attrs : gmap string value;
  o_i_properties : gset string;
  o_changed_signals : gmap string sigid;
  o_property_changed : sigid
}.

(** Modelled from the spec: [InstanceProperty] (lisp/core/properties.py is
    not part of the sources).  A wrapper holds the current value and the
    default; [__pget__] reads the value and [__pset__] replaces it. *)
Record iprop := IProp {
  ip_value : value;
  ip_default : value
}.

(** Modelled from the spec: [Signal] (lisp/core/signal.py is not part of the
    sources).  [emit] delivers its arguments to the subscribers, which are
    external to this model: an emission is recorded in the log. *)
Inductive event :=
| Emit (s : sigid) (args : list value).

(** Modelled from the spec: a subscriber is invoked synchronously, in the
    emitting context.  What it can read then is the instances and the
    wrappers as they are at the moment of the emission. *)
Abbreviation snapshot := (gmap addr obj * gmap addr iprop)%type.

(** The state: the instances, the wrappers, the emissions made so far and,
    for each of them in the same order, what the subscribers could read
    when it was delivered. *)
Record state := State {
  heap : gmap addr obj;
  wrappers : gmap addr iprop;
  log : list event;
  next_signal : sigid;
  seen : list snapshot
}.

Inductive exn :=
| AttributeError
| ValueError
| RecursionError
| BadReference.

(** Result of a read. *)
Inductive res (A : Type) :=
| Val (a : A)
| Err (e : exn).
Arguments Val {A} a.
Arguments Err {A} e.

(** Result of a write: Python does not undo the effects that precede an
    exception, so both outcomes carry the state reached. *)
Inductive outcome (A : Type) :=
| Ok (a : A) (st : state)
| Raise (e : exn) (st : state).
Arguments Ok {A} a st.
Arguments Raise {A} e st.

Definition res_bind {A B} (m : res A) (k : A → res B) : res B :=
  match m with Val a => k a | Err e => Err e end.

Definition and_then {A B} (m : outcome A) (k : A → state → outcome B)
  : outcome B :=
  match m with Ok a st => k a st | Raise e st => Raise e st end.

Definition final {A} (m : outcome A) : state :=
  match m with Ok _ st => st | Raise _ st => st end.

Notation "x ←r m ; k" := (res_bind m (λ x, k))
  (at level 20, m at level 100, k at level 200, only parsing, right associativity).

Definition with_attrs (f : gmap string value → gmap string value) (o : obj) : obj :=
  Obj (o_class o) (f (o_attrs o)) (o_i_properties o) (o_changed_signals o)
      (o_property_changed o).

Definition with_i_properties (f : gset string → gset string) (o : obj) : obj :=
  Obj (o_class o) (o_attrs o) (f (o_i_properties o)) (o_changed_signals o)
      (o_property_changed o).

Definition with_changed_signals (f : gmap string sigid → gmap string sigid)
    (o : obj) : obj :=
  Obj (o_class o) (o_attrs o) (o_i_properties o) (f (o_changed_signals o))
      (o_property_changed o).

Definition set_heap (h : gmap addr obj) (st : state) : state :=
  State h (wrappers st) (log st) (next_signal st) (seen st).

Definition set_wrappers (w : gmap addr iprop) (st : state) : state :=
  State (heap st) w (log st) (next_signal st) (seen st).

Definition emit (s : sigid) (args : list value) (st : state) : state :=
  State (heap st) (wrappers st) (log st ++ [Emit s args]) (next_signal st)
        (seen st ++ [(heap st, wrappers st)]).

(** [Signal()]: a new signal, distinct from all earlier ones. *)
Definition Signal (st : state) : sigid * state :=
  (next_signal st,
   State (heap st) (wrappers st) (log st) (Pos.succ (next_signal st))
         (seen st)).

Definition get_obj (st : state) (a : addr) : res obj :=
  match heap st !! a with
  | Some o => Val o
  | None => Err BadReference
  end.

(** ** Attribute access *)

(** [object.__getattribute__].  Modelled from the spec: the [Property]
    descriptor reads the value stored on the instance for that name and
    falls back to its default for a value never set.  A name bound to another
    class attribute, or to none, is looked up on the instance first. *)
Definition object_getattribute (o : obj) (name : string) : res value :=
  match k_attrs (o_class o) !! name with
  | Some (CProperty d) => Val (default d (o_attrs o !! name))
  | Some (CPlain v) => Val (default v (o_attrs o !! name))
  | None =>
      match o_attrs o !! name with
      | Some v => Val v
      | None => Err AttributeError
      end
  end.

Definition __pget__ (st : state) (w : addr) : res value :=
  match wrappers st !! w with
  | Some p => Val (ip_value p)
  | None => Err BadReference
  end.

Definition __pset__ (w : addr) (v : value) (st : state) : outcome unit :=
  match wrappers st !! w with
  | Some p => Ok () (set_wrappers (<[w := IProp v (ip_default p)]> (wrappers st)) st)
  | None => Raise BadReference st
  end.

(** [getattr(self, name)]: [HasInstanceProperties.__getattribute__] unwraps
    an [InstanceProperty]; a plain [HasProperties] returns what is stored. *)
Definition getattr (st : state) (o : obj) (name : string) : res value :=
  match object_getattribute o name with
  | Val (VIProp w) =>
      if k_instance_properties (o_class o) then __pget__ st w
      else Val (VIProp w)
  | r => r
  end.

(** What a subscriber reads under [name] on the instance at [a] when an
    emission is delivered to it. *)
Definition observe (w : snapshot) (a : addr) (name : string) : res value :=
  match w.1 !! a with
  | Some o => getattr (State w.1 w.2 [] 1%positive []) o name
  | None => Err BadReference
  end.

(** [_properties_names], with the override of [HasInstanceProperties]. *)
Definition _properties_names (o : obj) : gset string :=
  if k_instance_properties (o_class o)
  then k_properties (o_class o) ∪ o_i_properties o
  else k_properties (o_class o).

Definition properties_names (o : obj)
    (filter : option (gset string → gset string)) : gset string :=
  match filter with
  | Some f => f (_properties_names o)
  | None => _properties_names o
  end.

(** [_property]: the descriptor registered under [name].  The override of
    [HasInstanceProperties] calls [self._getattribute], a method that no
    class of the module defines, hence the [AttributeError]. *)
Definition _property (o : obj) (name : string) : res cattr :=
  if k_instance_properties (o_class o)
     && bool_decide (name ∈ o_i_properties o)
  then Err AttributeError
  else if decide (name ∈ k_properties (o_class o)) then
    match k_attrs (o_class o) !! name with
    | Some c => Val c
    | None => Err AttributeError
    end
  else Err AttributeError.

(** The [.default] attribute of what [_property] returned. *)
Definition default_of (st : state) (c : cattr) : res value :=
  match c with
  | CProperty d => Val d
  | CPlain (VIProp w) =>
      match wrappers st !! w with
      | Some p => Val (ip_default p)
      | None => Err BadReference
      end
  | CPlain (VObj n) => o ←r get_obj st n; getattr st o "default"
  | CPlain _ => Err AttributeError
  end.

(** ** Export *)

Fixpoint collect {A B} (f : A → res (list B)) (l : list A) : res (list B) :=
  match l with
  | [] => Val []
  | x :: rest => ys ←r f x; zs ←r collect f rest; Val (ys ++ zs)
  end.

(** One round of the loop of [properties]: the entry exported for [name],
    if any.  [nested] is the recursive call on a nested object. *)
Definition export_entry (nested : addr → res dict) (st : state) (o : obj)
    (defaults : bool) (name : string) : res dict :=
  value ←r getattr st o name;
  match value with
  | VObj n =>
      sub ←r nested n;
      Val (if defaults || negb (bool_decide (sub = []))
           then [(name, VDict sub)] else [])
  | _ =>
      if defaults then Val [(name, value)]
      else
        p ←r _property o name;
        d ←r default_of st p;
        Val (if py_ne value d then [(name, value)] else [])
  end.

(** [properties(defaults, filter)].  The fuel is the depth of nesting that
    the interpreter accepts before it raises [RecursionError]. *)
Fixpoint properties (fuel : nat) (st : state) (a : addr) (defaults : bool)
    (filter : option (gset string → gset string)) : res dict :=
  match fuel with
  | O => Err RecursionError
  | S k =>
      o ←r get_obj st a;
      collect (export_entry (λ n, properties k st n defaults filter)
                            st o defaults)
              (elements (properties_names o filter))
  end.

(** ** Change notification and assignment *)

(** [_emit_changed]: the aggregate signal first, then the signal of the
    name when [changed(name)] created one ([KeyError] otherwise, which is
    swallowed). *)
Definition _emit_changed (a : addr) (name : string) (v : value) (st : state)
  : outcome unit :=
  match heap st !! a with
  | None => Raise BadReference st
  | Some o =>
      let st1 := emit (o_property_changed o) [VObj a; VStr name; v] st in
      match o_changed_signals o !! name with
      | Some s => Ok () (emit s [v] st1)
      | None => Ok () st1
      end
  end.

(** [HasProperties.__setattr__]: store, then notify when the name is a
    property.  Modelled from the spec: the [Property] descriptor stores the
    new value on the instance. *)
Definition base_setattr (a : addr) (name : string) (v : value) (st : state)
  : outcome unit :=
  match heap st !! a with
  | None => Raise BadReference st
  | Some o =>
      let o1 := with_attrs (insert name v) o in
      let st1 := set_heap (<[a := o1]> (heap st)) st in
      if decide (name ∈ properties_names o1 None)
      then _emit_changed a name v st1
      else Ok () st1
  end.

Definition register_i_property (a : addr) (name : string) (st : state)
  : outcome unit :=
  match heap st !! a with
  | None => Raise BadReference st
  | Some o =>
      Ok () (set_heap (<[a := with_i_properties (λ s, s ∪ {[name]}) o]> (heap st)) st)
  end.

(** [setattr(self, name, value)], with the three cases of
    [HasInstanceProperties.__setattr__]. *)
Definition setattr (a : addr) (name : string) (v : value) (st : state)
  : outcome unit :=
  match heap st !! a with
  | None => Raise BadReference st
  | Some o =>
      if k_instance_properties (o_class o) then
        match v with
        | VIProp _ =>
            and_then (base_setattr a name v st)
                     (λ _ st1, register_i_property a name st1)
        | _ =>
            if decide (name ∈ o_i_properties o) then
              match object_getattribute o name with
              | Val (VIProp w) =>
                  and_then (__pset__ w v st)
                           (λ _ st1, _emit_changed a name v st1)
              | Val _ => Raise AttributeError st
              | Err e => Raise e st
              end
            else base_setattr a name v st
        end
      else base_setattr a name v st
  end.

(** ** Import *)

(** The loop of [update_properties] over the items of the mapping;
    [nested] is the recursive call on a nested object. *)
Fixpoint update_items (nested : addr → value → state → outcome unit)
    (a : addr) (items : dict) (st : state) : outcome unit :=
  match items with
  | [] => Ok () st
  | (name, v) :: rest =>
      match heap st !! a with
      | None => Raise BadReference st
      | Some o =>
          let step :=
            if decide (name ∈ properties_names o None) then
              match getattr st o name with
              | Err e => Raise e st
              | Val (VObj n) => nested n v st
              | Val _ => setattr a name v st
              end
            else Ok () st in
          and_then step (λ _ st1, update_items nested a rest st1)
      end
  end.

(** [update_properties(properties)]; a value without [items()] raises
    [AttributeError]. *)
Fixpoint update_properties (fuel : nat) (a : addr) (properties : value)
    (st : state) : outcome unit :=
  match fuel with
  | O => Raise RecursionError st
  | S k =>
      match properties with
      | VDict items => update_items (update_properties k) a items st
      | _ => Raise AttributeError st
      end
  end.

(** [changed(name)]: the signal of a property, created on first request. *)
Definition changed (a : addr) (name : string) (st : state) : outcome sigid :=
  match heap st !! a with
  | None => Raise BadReference st
  | Some o =>
      if decide (name ∈ properties_names o None) then
        match o_changed_signals o !! name with
        | Some s => Ok s st
        | None =>
            let '(s, st1) := Signal st in
            Ok s (set_heap (<[a := with_changed_signals (insert name s) o]>
                              (heap st1)) st1)
        end
      else Raise ValueError st
  end.

(** ** Construction *)

(** [cls()]: [__init__] creates the empty cache of signals and the
    aggregate signal; no property has been set. *)
Definition new_instance (k : klass) (st : state) : addr * state :=
  let a := fresh (dom (heap st)) in
  let '(s, st1) := Signal st in
  (a, set_heap (<[a := Obj k ∅ ∅ ∅ s]> (heap st1)) st1).

(** [InstanceProperty(default)]. *)
Definition new_iprop (d : value) (st : state) : addr * state :=
  let w := fresh (dom (wrappers st)) in
  (w, set_wrappers (<[w := IProp d d]> (wrappers st)) st).

Definition empty_state : state := State ∅ ∅ [] 1%positive [].

(** ** Well-formed instances *)

(** What the assignment of a property emits: the aggregate signal with
    [(self, name, value)], then the signal of the name, when it exists, with
    [(value)]. *)
Definition notification (a : addr) (o : obj) (name : string) (v : value)
  : list event :=
  Emit (o_property_changed o) [VObj a; VStr name; v] ::
  match o_changed_signals o !! name with
  | Some s => [Emit s [v]]
  | None => []
  end.

(** The invariant that [HasInstanceProperties.__setattr__] maintains: a name
    of the instance-local registry is bound, on the instance, to a live
    [InstanceProperty] wrapper. *)
Definition wf_obj (st : state) (o : obj) : Prop :=
  k_instance_properties (o_class o) = true →
  ∀ name, name ∈ o_i_properties o →
    ∃ w, o_attrs o !! name = Some (VIProp w) ∧ is_Some (wrappers st !! w).

Definition wf_state (st : state) : Prop :=
  ∀ a o, heap st !! a = Some o → wf_obj st o.

(** A value that can be assigned: a wrapper, if it is one, exists. *)
Definition live_value (st : state) (v : value) : Prop :=
  match v with
  | VIProp w => is_Some (wrappers st !! w)
  | _ => True
  end.

Definition is_wrapper (v : value) : bool :=
  match v with VIProp _ => true | _ => false end.

(** ** Signals and their owners *)

(** The places where an instance keeps a signal. *)
Inductive slot :=
| Aggregate (a : addr)
| Named (a : addr) (name : string).

Definition signal_at (st : state) (sl : slot) : option sigid :=
  match sl with
  | Aggregate a => o_property_changed <$> heap st !! a
  | Named a name => heap st !! a ≫= λ o, o_changed_signals o !! name
  end.

(** Signals are objects of their own: every signal held was constructed
    earlier, and no two places hold the same signal. *)
Definition wf_signals (st : state) : Prop :=
  (∀ sl s, signal_at st sl = Some s → (s < next_signal st)%positive) ∧
  (∀ sl1 sl2 s, signal_at st sl1 = Some s → signal_at st sl2 = Some s →
                sl1 = sl2).

(** ** What an import may change *)

(** The property [name] of the instance at [a] holds the nested object
    [n]. *)
Definition holds_object (st : state) (a : addr) (name : string) (n : addr)
  : Prop :=
  ∃ o, heap st !! a = Some o ∧ getattr st o name = Val (VObj n).

(** [e] is one of the emissions of an assignment to [name] on the instance
    at [a]. *)
Definition notifies (st : state) (e : event) (a : addr) (name : string)
  : Prop :=
  ∃ o v, heap st !! a = Some o ∧ e ∈ notification a o name v.

(** [evolves st st']: the relation between the states before and after an
    import.  Properties that hold a nested object still hold the same
    object, signals are where they were, and the log has grown by
    notifications of properties that held no nested object. *)
Definition evolves (st st' : state) : Prop :=
  (∀ b nm n, holds_object st b nm n → holds_object st' b nm n) ∧
  (∀ sl, signal_at st' sl = signal_at st sl) ∧
  next_signal st' = next_signal st ∧
  ∃ new, log st' = log st ++ new ∧
         Forall (λ e, ∃ b nm, notifies st e b nm ∧
                              ∀ n, ¬ holds_object st b nm n) new.

(** ** Examples *)

(** The class of the example of the specification: [intensity] defaults to
    [0] and [color] to ["white"]. *)
Definition Light : klass :=
  Klass {[ "intensity"; "color" ]}
        {[ "intensity" := CProperty (VInt 0);
           "color" := CProperty (VStr "white") ]}
        false.

(** [l = Light()] *)
Definition light : addr := (new_instance Light empty_state).1.
Definition light_state : state := (new_instance Light empty_state).2.
Definition light_obj : obj := Obj Light ∅ ∅ ∅ 1%positive.

#[global] Instance slot_eq_dec : EqDecision slot.
Proof. solve_decision. Defined.

(** A fixture holds a [Light] under [lamp] and a plain [label]. *)
Definition Fixture : klass :=
  Klass {[ "lamp"; "label" ]}
        {[ "lamp" := CProperty VNone; "label" := CProperty (VStr "") ]}
        false.

(** [f = Fixture(); l = Light(); f.lamp = l; f.changed("lamp")] *)
Definition fixture : addr := 1%positive.
Definition lamp : addr := 2%positive.
Definition rig : state :=
  let st1 := (new_instance Fixture empty_state).2 in
  let st2 := (new_instance Light st1).2 in
  let st3 := final (setattr fixture "lamp" (VObj lamp) st2) in
  final (changed fixture "lamp" st3).
Definition fixture_obj : obj :=
  Obj Fixture {[ "lamp" := VObj lamp ]} ∅ {[ "lamp" := 3%positive ]} 1%positive.

(** A class derived from [HasInstanceProperties] that declares nothing. *)
Definition Bag : klass := Klass ∅ ∅ true.

(** [b = Bag(); b.x = InstanceProperty(default=1)], then [b.x = 7]. *)
Definition bag : addr := 1%positive.
Definition bag_state : state :=
  let st1 := (new_instance Bag empty_state).2 in
  let st2 := (new_iprop (VInt 1) st1).2 in
  final (setattr bag "x" (VIProp 1%positive) st2).
Definition bag_obj : obj :=
  Obj Bag {[ "x" := VIProp 1%positive ]} {[ "x" ]} ∅ 1%positive.
Definition bag_state' : state := final (setattr bag "x" (VInt 7) bag_state).

(** ** The names accessor and the identity of sets *)

(** A Python set is a mutable object.  To tell a copy from the live
    registry, this module keeps the sets in a store addressed by identity;
    the model above works on the contents only. *)
Module Names.

Abbreviation loc := positive.

Record instance := Instance {
  cls_properties : loc;
  i_properties : option loc
}.

(** In-place changes that the holder of a set can make. *)
Inductive mutation :=
| Add (name : string)
| Discard (name : string)
| Update (names : gset string)
| Clear.

Definition apply (m : mutation) (s : gset string) : gset string :=
  match m with
  | Add n => s ∪ {[n]}
  | Discard n => s ∖ {[n]}
  | Update ns => s ∪ ns
  | Clear => ∅
  end.

Definition mutate (l : loc) (st : gmap loc (gset string)) (m : mutation)
  : gmap loc (gset string) :=
  alter (apply m) l st.

(** [s.copy()] *)
Definition copy (l : loc) (st : gmap loc (gset string))
  : option (loc * gmap loc (gset string)) :=
  s ← st !! l;
  let l' := fresh (dom st) in
  Some (l', <[l' := s]> st).

(** [s.union(t)] *)
Definition union (l1 l2 : loc) (st : gmap loc (gset string))
  : option (loc * gmap loc (gset string)) :=
  s ← st !! l1;
  t ← st !! l2;
  let l' := fresh (dom st) in
  Some (l', <[l' := s ∪ t]> st).

(** [_properties_names], for [HasProperties] and for the override of
    [HasInstanceProperties]. *)
Definition _properties_names (o : instance) (st : gmap loc (gset string))
  : option (loc * gmap loc (gset string)) :=
  match i_properties o with
  | None => copy (cls_properties o) st
  | Some i =>
      '(c, st1) ← copy (cls_properties o) st;
      union c i st1
  end.

(** [properties_names(filter)].  A filter is handed the set and may change
    it in place before returning it. *)
Definition properties_names (o : instance) (filter : option (list mutation))
    (st : gmap loc (gset string)) : option (loc * gmap loc (gset string)) :=
  '(l, st1) ← _properties_names o st;
  match filter with
  | Some ms => Some (l, foldl (mutate l) st1 ms)
  | None => Some (l, st1)
  end.

(** The names an instance recognises, read from the live sets. *)
Definition recognised (o : instance) (st : gmap loc (gset string))
  : option (gset string) :=
  s ← st !! cls_properties o;
  match i_properties o with
  | None => Some s
  | Some i => t ← st !! i; Some (s ∪ t)
  end.

(** The sets of the example: the registry of [Light], one instance, and
    the set that [properties_names] returns through a filter that drops
    [color]. *)
Definition light_sets : gmap loc (gset string) :=
  {[ 1%positive := {[ "intensity"; "color" ]} ]}.
Definition light_instance : instance := Instance 1%positive None.
Definition light_names : gmap loc (gset string) :=
  <[ 2%positive := {[ "intensity" ]} ]> light_sets.

End Names.

(** ** Relations between class tables *)

Module Cascade.
Import Meta.

(** [removed name roots t t']: [t'] is [t] with [name] unregistered from
    every class at or below one of the [roots], and nothing else changed. *)
Definition removed (name : string) (roots : cid → Prop) (t t' : table) : Prop :=
  same_shape t t' ∧
  ∀ d x, x ∈ registry t' d ↔
         x ∈ registry t d ∧ ¬ (x = name ∧ ∃ r, roots r ∧ rtc (direct_sub t) d r).

(** Two tables whose classes have the same bodies. *)
Definition same_namespaces (t t' : table) : Prop :=
  ∀ i, namespace <$> t' !! i = namespace <$> t !! i.

(** The hierarchy of the example, class by class. *)
Definition family : table :=
  [ Cls [] ∅ ∅;
    Cls [Proper 0] {[ "p" := CProperty (VInt 0) ]} {[ "p" ]};
    Cls [Proper 1] {[ "p" := CProperty (VInt 1) ]} {[ "p" ]} ].

End Cascade.

(** ** The example scenario of the specification *)

(** [l = Light(); l.intensity = 50] *)
Definition dimmed : state := final (setattr light "intensity" (VInt 50) light_state).
Definition dimmed_obj : obj :=
  Obj Light {[ "intensity" := VInt 50 ]} ∅ ∅ 1%positive.

(** ** A second fixture *)

(** [f2 = Fixture()], constructed next to the rig: its [lamp] holds the
    default [None]. *)
Definition fixture2 : addr := 3%positive.
Definition rig2 : state := (new_instance Fixture rig).2.
Definition fixture2_obj : obj := Obj Fixture ∅ ∅ ∅ 4%positive.

(** ** Defaults *)

(** [getattr(cls, name)] *)
Definition class_getattr (k : klass) (name : string) : res cattr :=
  match k_attrs k !! name with
  | Some c => Val c
  | None => Err AttributeError
  end.

(** [class_defaults(filter)]: the declared default of every registered
    name, without looking into nested objects. *)
Definition class_defaults (st : state) (k : klass)
    (filter : option (gset string → gset string)) : res dict :=
  collect (λ name,
             c ←r class_getattr k name;
             d ←r default_of st c;
             Val [(name, d)])
          (elements (match filter with
                     | Some f => f (k_properties k)
                     | None => k_properties k
                     end)).

(** One round of the loop of [properties_defaults]; [nested] is the call on
    a default that is itself an instance. *)
Definition default_entry (nested : addr → res dict) (st : state) (o : obj)
    (name : string) : res dict :=
  p ←r _property o name;
  d ←r default_of st p;
  match d with
  | VObj n => sub ←r nested n; Val [(name, VDict sub)]
  | _ => Val [(name, d)]
  end.

(** [properties_defaults(filter)]; the nested call passes no filter. *)
Fixpoint properties_defaults (fuel : nat) (st : state) (a : addr)
    (filter : option (gset string → gset string)) : res dict :=
  match fuel with
  | O => Err RecursionError
  | S k =>
      o ←r get_obj st a;
      collect (default_entry (λ n, properties_defaults k st n None) st o)
              (elements (properties_names o filter))
  end.

(** ** Removal of an attribute *)

(** [object.__delattr__] on an instance.  Modelled from the spec: the
    [Property] descriptor provides a read and a write, so the deletion of a
    name that the class binds to a [Property] is refused; any other name is
    deleted from the instance, which must bind it.  The names that
    [__init__] binds for the signals and the instance-local registry are
    not among the names of this model. *)
Definition object_delattr (a : addr) (name : string) (st : state)
  : outcome unit :=
  match heap st !! a with
  | None => Raise BadReference st
  | Some o =>
      match k_attrs (o_class o) !! name with
      | Some (CProperty _) => Raise AttributeError st
      | _ =>
          match o_attrs o !! name with
          | Some _ =>
              Ok () (set_heap (<[a := with_attrs (delete name) o]> (heap st)) st)
          | None => Raise AttributeError st
          end
      end
  end.

Definition unregister_i_property (a : addr) (name : string) (st : state)
  : outcome unit :=
  match heap st !! a with
  | None => Raise BadReference st
  | Some o =>
      Ok () (set_heap (<[a := with_i_properties (λ s, s ∖ {[name]}) o]> (heap st)) st)
  end.

(** [delattr(self, name)], with [HasInstanceProperties.__delattr__]. *)
Definition delattr (a : addr) (name : string) (st : state) : outcome unit :=
  match heap st !! a with
  | None => Raise BadReference st
  | Some o =>
      if k_instance_properties (o_class o) then
        and_then (object_delattr a name st)
                 (λ _ st1, unregister_i_property a name st1)
      else object_delattr a name st
  end.

(** ** Comparing instances *)

(** Two property values are related when both are nested objects related
    by [nested], or neither is a nested object and [leaf] relates them. *)
Definition related (nested : addr → addr → Prop) (leaf : value → value → Prop)
    (va vb : value) : Prop :=
  match va, vb with
  | VObj n, VObj m => nested n m
  | VObj _, _ | _, VObj _ => False
  | _, _ => leaf va vb
  end.

(** [alike leaf fuel st a b]: the instances at [a] and [b] recognise the
    same names and hold related values under each of them, nested objects
    being compared in the same way; [leaf] compares the values that are no
    nested objects, knowing the first instance and the name. *)
Fixpoint alike (leaf : obj → string → value → value → Prop) (fuel : nat)
    (st : state) (a b : addr) : Prop :=
  match fuel with
  | O => False
  | S k =>
      ∃ oa ob,
        heap st !! a = Some oa ∧ heap st !! b = Some ob ∧
        properties_names oa None = properties_names ob None ∧
        ∀ name, name ∈ properties_names oa None →
          ∃ va vb,
            getattr st oa name = Val va ∧ getattr st ob name = Val vb ∧
            related (alike leaf k st) (leaf oa name) va vb
  end.

(** What the target of an import must hold where the source holds a value
    that is no nested object: anything for a full export; for a sparse
    export, the default that the source declares for the name. *)
Definition target_ready (defaults : bool) (oa : obj) (name : string)
    (va vb : value) : Prop :=
  if defaults then True else _property oa name = Val (CProperty vb).

(** What the target holds after the import: the value of the source, or,
    for a sparse export, a default that is equal ([==]) to it. *)
Definition restored (defaults : bool) (oa : obj) (name : string)
    (va vb : value) : Prop :=
  if defaults then vb = va else vb = va ∨ py_eq va vb = true.

(** The instances that can be reached from an instance through its
    recognised properties. *)
Inductive reaches (st : state) : addr → addr → Prop :=
| reaches_here a : reaches st a a
| reaches_nested a o name n c :
    heap st !! a = Some o →
    name ∈ properties_names o None →
    getattr st o name = Val (VObj n) →
    reaches st n c →
    reaches st a c.

(** The instance at [b] is the root of a tree of instances of classes
    without instance properties: its nested objects are trees, none of them
    reaches [b] again, and two of them under different names share no
    instance. *)
Inductive tree (st : state) : addr → Prop :=
| tree_node b o :
    heap st !! b = Some o →
    k_instance_properties (o_class o) = false →
    (∀ name n, name ∈ properties_names o None →
               getattr st o name = Val (VObj n) → tree st n) →
    (∀ name n, name ∈ properties_names o None →
               getattr st o name = Val (VObj n) → ¬ reaches st n b) →
    (∀ name1 name2 n1 n2 c,
       name1 ≠ name2 →
       name1 ∈ properties_names o None → name2 ∈ properties_names o None →
       getattr st o name1 = Val (VObj n1) →
       getattr st o name2 = Val (VObj n2) →
       reaches st n1 c → reaches st n2 c → False) →
    tree st b.

(** The two instances share nothing: nothing that [a] reaches in the state
    [st0] is reached by [b] in the state [st]. *)
Definition apart (st0 st : state) (a b : addr) : Prop :=
  ∀ c, reaches st0 a c → reaches st b c → False.

(** [ready pre k st0 st a oa b ob name]: what an import into the instance
    [ob] at [b] needs of its property [name] in the state [st], for the
    value that the source [oa] at [a] held in the state [st0] of the
    export. *)
Definition ready (pre : obj → string → value → value → Prop) (k : nat)
    (st0 st : state) (a : addr) (oa : obj) (b : addr) (ob : obj)
    (name : string) : Prop :=
  ∃ va vb,
    getattr st0 oa name = Val va ∧ getattr st ob name = Val vb ∧
    related (λ n m, alike pre k st n m ∧ tree st m ∧ ¬ reaches st m b ∧
                    apart st0 st a m)
            (pre oa name) va vb.

(** [settled post k st0 st st' oa ob ob' name]: what the import has made of
    the property [name] in the state [st']: the nested object that was
    there in [st], with no larger footprint, or a value that [post]
    accepts. *)
Definition settled (post : obj → string → value → value → Prop) (k : nat)
    (st0 st st' : state) (oa ob ob' : obj) (name : string) : Prop :=
  ∃ va vb,
    getattr st0 oa name = Val va ∧ getattr st' ob' name = Val vb ∧
    related (λ n m, alike post k st' n m ∧
                    getattr st ob name = Val (VObj m) ∧
                    ∀ c, reaches st' m c → reaches st m c)
            (post oa name) va vb.

(** The round trip at one depth of nesting: the export of [a], taken in
    [st0], is imported into [b] in a state [st] that agrees with [st0] on
    what [a] reaches. *)
Definition round_trip_at (defaults : bool) (k : nat) : Prop :=
  ∀ st0 st a b,
    wrappers st = wrappers st0 →
    (∀ c, reaches st0 a c → heap st !! c = heap st0 !! c) →
    alike (target_ready defaults) k st a b →
    tree st b →
    apart st0 st a b →
    ∃ E st',
      properties k st0 a defaults None = Val E ∧
      update_properties k b (VDict E) st = Ok () st' ∧
      alike (restored defaults) k st' a b ∧
      wrappers st' = wrappers st ∧
      (∀ c, ¬ reaches st b c → heap st' !! c = heap st !! c) ∧
      (∀ c, reaches st' b c → reaches st b c).

(** ** A stage with two fixtures *)

(** The rig with its lamp dimmed:
    [l.intensity = 50; f2 = Fixture(); l2 = Light(); f2.lamp = l2]. *)
Definition lamp2 : addr := 4%positive.
Definition stage : state :=
  let st1 := final (setattr lamp "intensity" (VInt 50) rig) in
  let st2 := (new_instance Fixture st1).2 in
  let st3 := (new_instance Light st2).2 in
  final (setattr fixture2 "lamp" (VObj lamp2) st3).

Definition stage_lamp : obj :=
  Obj Light {[ "intensity" := VInt 50 ]} ∅ ∅ 2%positive.
Definition stage_fixture2 : obj :=
  Obj Fixture {[ "lamp" := VObj lamp2 ]} ∅ ∅ 4%positive.
Definition stage_lamp2 : obj := Obj Light ∅ ∅ ∅ 5%positive.

(** ** Use of an instance over time *)

(** [step st st']: one operation of the interface takes the program from
    [st] to [st'], whatever its arguments and whether it returns or raises:
    the construction of an instance or of an [InstanceProperty], a call of
    [changed], an assignment, a deletion, an import. *)
Inductive step : state → state → Prop :=
| step_new_instance k st : step st (new_instance k st).2
| step_new_iprop d st : step st (new_iprop d st).2
| step_changed a name st : step st (final (changed a name st))
| step_setattr a name v st : step st (final (setattr a name v st))
| step_delattr a name st : step st (final (delattr a name st))
| step_update_properties (fuel : nat) a m st :
    step st (final (update_properties fuel a m st)).

(** [same_classes st st']: every instance of [st] is an instance of [st'],
    of the same class. *)
Definition same_classes (st st' : state) : Prop :=
  ∀ b ob, heap st !! b = Some ob →
          ∃ ob', heap st' !! b = Some ob' ∧ o_class ob' = o_class ob.

(** ** Imports of plain values *)

(** A value is serial when it holds no reference, at any depth: neither an
    instance nor an [InstanceProperty]. *)
Fixpoint serial (v : value) : bool :=
  match v with
  | VObj _ | VIProp _ => false
  | VDict d => forallb (λ kv, serial (snd kv)) d
  | _ => true
  end.

(** [narrows st st']: every instance of [st'] was an instance of [st], with
    the same recognised names and the same signals, and holds a nested
    object only where it held that object in [st]. *)
Definition narrows (st st' : state) : Prop :=
  ∀ b ob', heap st' !! b = Some ob' →
    ∃ ob, heap st !! b = Some ob ∧
          properties_names ob' None = properties_names ob None ∧
          o_property_changed ob' = o_property_changed ob ∧
          o_changed_signals ob' = o_changed_signals ob ∧
          ∀ nm c, getattr st' ob' nm = Val (VObj c) →
                  getattr st ob nm = Val (VObj c).

(** [confined a st st']: from [st] to [st'] no reference was added, and the
    log has grown by notifications of assignments to instances that [a]
    reaches in [st]. *)
Definition confined (a : addr) (st st' : state) : Prop :=
  narrows st st' ∧
  ∃ new, log st' = log st ++ new ∧
         Forall (λ e, ∃ c nm, reaches st a c ∧ notifies st e c nm) new.

(** ** An instance that holds itself *)

(** A class with a link [next] and a plain [v];
    [nd = Node(); nd.next = nd]. *)
Definition Node : klass :=
  Klass {[ "next"; "v" ]}
        {[ "next" := CProperty VNone; "v" := CProperty (VInt 0) ]}
        false.
Definition node : addr := 1%positive.
Definition ring : state :=
  final (setattr node "next" (VObj node) (new_instance Node empty_state).2).
Definition node_obj : obj :=
  Obj Node {[ "next" := VObj node ]} ∅ ∅ 1%positive.

(** * Properties of the metaclass *)

Module MetaFacts.
Import Meta.

Lemma same_shape_refl t : same_shape t t.
Proof. by split. Qed.

Lemma same_shape_trans t1 t2 t3 :
  same_shape t1 t2 → same_shape t2 t3 → same_shape t1 t3.
Proof.
  intros [L1 B1] [L2 B2]. split; [congruence|].
  intros i. by rewrite B2, B1.
Qed.

Lemma direct_sub_shape t t' s c :
  same_shape t t' → direct_sub t' s c ↔ direct_sub t s c.
Proof.
  intros [_ B]. unfold direct_sub. specialize (B s).
  destruct (t' !! s), (t !! s); simpl in *; try done.
  inversion B as [B']. by rewrite B'.
Qed.

Lemma direct_sub_lt_length t s c : direct_sub t s c → s < length t.
Proof.
  unfold direct_sub. intros H. apply lookup_lt_is_Some.
  destruct (t !! s); [eauto|]. simpl in H. by apply elem_of_nil in H.
Qed.

Lemma elem_of_subclasses t c s :
  s ∈ __subclasses__ t c ↔ direct_sub t s c.
Proof.
  unfold __subclasses__. rewrite list_elem_of_filter, elem_of_seq.
  split; [tauto|]. intros H. split; [done|].
  apply direct_sub_lt_length in H. lia.
Qed.

Lemma same_shape_alter_properties f c t :
  same_shape t (alter (with_properties f) c t).
Proof.
  split; [by rewrite length_alter|].
  intros i. destruct (decide (i = c)) as [->|].
  - rewrite list_lookup_alter_eq. by destruct (t !! c).
  - by rewrite list_lookup_alter_ne.
Qed.

Lemma registry_alter_properties f c t d :
  registry (alter (with_properties f) c t) d =
    if decide (d = c ∧ c < length t) then f (registry t d) else registry t d.
Proof.
  unfold registry. destruct (decide (d = c)) as [->|].
  - rewrite list_lookup_alter_eq.
    destruct (t !! c) eqn:E; simpl.
    + apply lookup_lt_Some in E. by rewrite decide_True.
    + apply lookup_ge_None in E. rewrite decide_False; [done|lia].
  - rewrite list_lookup_alter_ne by done. rewrite decide_False; [done|tauto].
Qed.


Lemma well_founded_shape t t' :
  same_shape t t' → well_founded_table t → well_founded_table t'.
Proof.
  intros Hs Hwf s c H. apply (Hwf s c). by apply (direct_sub_shape t t').
Qed.

Lemma rtc_direct_sub_shape t t' d c :
  same_shape t t' → rtc (direct_sub t') d c ↔ rtc (direct_sub t) d c.
Proof.
  intros Hs. split; induction 1; try done.
  - eapply rtc_l; [|done]. by apply (direct_sub_shape t t').
  - eapply rtc_l; [|done]. by apply (direct_sub_shape t t').
Qed.

Lemma add_property_fold (k : nat) (name : string) :
  (∀ c t, well_founded_table t → c < length t → length t - c ≤ k →
     ∃ t', _add_property k c name t = Some t' ∧ added name (eq c) t t') →
  ∀ L t, well_founded_table t →
    (∀ s, s ∈ L → s < length t ∧ length t - s ≤ k) →
    ∃ t', foldl (λ acc s, acc ≫= _add_property k s name) (Some t) L = Some t'
          ∧ added name (λ r, r ∈ L) t t'.
Proof.
  intros IH L. induction L as [|s L IHL]; intros t Hwf HL.
  - exists t. split; [done|]. split; [apply same_shape_refl|].
    intros d x. split; [tauto|]. intros [?|[_ (r & Hr & _)]]; [done|].
    by apply elem_of_nil in Hr.
  - destruct (HL s) as [Hs1 Hs2]; [left|].
    destruct (IH s t Hwf Hs1 Hs2) as (t2 & E2 & Hsh2 & Hreg2).
    destruct (IHL t2) as (t' & E' & Hsh' & Hreg').
    { by eapply well_founded_shape. }
    { intros r Hr. destruct Hsh2 as [-> _]. apply HL. by right. }
    exists t'. split.
    { simpl. rewrite E2. exact E'. }
    split; [by eapply same_shape_trans|].
    intros d x. rewrite Hreg', Hreg2. split.
    + intros [[?|[-> (r & <- & Hr)]]|[-> (r & Hr & Hrtc)]].
      * by left.
      * right. split; [done|]. exists s. split; [left|done].
      * right. split; [done|]. exists r. split; [by right|].
        by apply (rtc_direct_sub_shape t t2).
    + intros [?|[-> (r & Hr & Hrtc)]]; [by left; left|].
      apply elem_of_cons in Hr as [->|Hr].
      * left. right. eauto.
      * right. split; [done|]. exists r. split; [done|].
        by apply (rtc_direct_sub_shape t t2).
Qed.

Lemma add_property_spec (fuel : nat) (name : string) (c : nat) (t : list Meta.cls) :
  well_founded_table t → c < length t → length t - c ≤ fuel →
  ∃ t', _add_property fuel c name t = Some t' ∧ added name (eq c) t t'.
Proof.
  revert c t. induction fuel as [|k IH]; intros c t Hwf Hc Hfuel; [lia|].
  simpl. set (t1 := alter _ c t).
  assert (same_shape t t1) as Hsh1 by apply same_shape_alter_properties.
  destruct (add_property_fold k name IH (__subclasses__ t1 c) t1)
    as (t' & E & Hsh & Hreg).
  { by eapply well_founded_shape. }
  { intros s Hs. apply elem_of_subclasses in Hs.
    pose proof (direct_sub_lt_length _ _ _ Hs) as Hlt.
    apply (direct_sub_shape t t1) in Hs; [|done]. apply Hwf in Hs.
    destruct Hsh1 as [Hlen _]. rewrite Hlen in *. lia. }
  exists t'. split; [done|]. split; [by eapply same_shape_trans|].
  intros d x. rewrite Hreg. unfold t1 at 1.
  rewrite registry_alter_properties. split.
  - intros [Hx|[-> (r & Hr & Hrtc)]].
    + case_decide as Hd; [|by left]. destruct Hd as [-> _].
      apply elem_of_union in Hx as [?|Hx]; [by left|].
      apply elem_of_singleton in Hx as ->. right. eauto using rtc_refl.
    + right. split; [done|]. exists c. split; [done|].
      apply elem_of_subclasses in Hr.
      apply (rtc_direct_sub_shape t t1) in Hrtc; [|done].
      apply (direct_sub_shape t t1) in Hr; [|done].
      eapply rtc_r; eauto.
  - intros [Hx|[-> (r & <- & Hrtc)]].
    + left. case_decide; [|done]. apply elem_of_union. by left.
    + apply rtc_inv_r in Hrtc as [->|(s & Hrtc & Hs)].
      * left. rewrite decide_True by done. apply elem_of_union. right.
        by apply elem_of_singleton.
      * right. split; [done|]. exists s. split.
        -- apply elem_of_subclasses. by apply (direct_sub_shape t t1).
        -- by apply (rtc_direct_sub_shape t t1).
Qed.


Lemma superset_direct t :
  (∀ s c, direct_sub t s c → registry t c ⊆ registry t s) →
  superset_invariant t.
Proof.
  intros Hd s c Hsc. induction Hsc as [s c H|s m c H _ IH].
  - by apply Hd.
  - etrans; [exact IH|]. by apply Hd.
Qed.

(** A post-hoc addition keeps every registry above the registries of its
    bases. *)
Lemma add_property_superset name c t t' :
  added name (eq c) t t' → superset_invariant t → superset_invariant t'.
Proof.
  intros [Hsh Hreg] Hinv. apply superset_direct. intros s d Hsd x Hx.
  apply (direct_sub_shape t t') in Hsd; [|done].
  apply Hreg in Hx. apply Hreg.
  destruct Hx as [Hx|[-> (r & <- & Hrtc)]].
  - left. revert Hx. apply Hinv. by apply tc_once.
  - right. split; [done|]. exists c. split; [done|]. by eapply rtc_l.
Qed.

Lemma setattr_superset c name v t :
  well_founded_table t → c < length t → superset_invariant t →
  ∃ t', __setattr__ (length t) c name v t = Done t' ∧ superset_invariant t'.
Proof.
  intros Hwf Hc Hinv. unfold __setattr__.
  set (t1 := alter (with_namespace (insert name v)) c t).
  assert (same_shape t t1) as Hsh.
  { split; [by unfold t1; rewrite length_alter|].
    intros i. unfold t1. destruct (decide (i = c)) as [->|].
    - rewrite list_lookup_alter_eq. by destruct (t !! c).
    - by rewrite list_lookup_alter_ne. }
  assert (∀ d, registry t1 d = registry t d) as Hreg.
  { intros d. unfold registry, t1. destruct (decide (d = c)) as [->|].
    - rewrite list_lookup_alter_eq. by destruct (t !! c).
    - by rewrite list_lookup_alter_ne. }
  assert (superset_invariant t1) as Hinv1.
  { apply superset_direct. intros s d Hsd. rewrite !Hreg.
    apply Hinv, tc_once. by apply (direct_sub_shape t t1). }
  destruct (is_property v); [|by eauto].
  destruct (add_property_spec (length t) name c t1) as (t' & E & Hadd).
  - by eapply well_founded_shape.
  - destruct Hsh as [-> _]. done.
  - destruct Hsh as [-> _]. lia.
  - rewrite E. eauto using add_property_superset.
Qed.

Lemma foldl_union_elem (init : gset string) (l : list (gset string)) x :
  x ∈ foldl (∪) init l ↔ x ∈ init ∨ ∃ r, r ∈ l ∧ x ∈ r.
Proof.
  revert init. induction l as [|r l IH]; intros init; simpl.
  - split; [by left|]. intros [?|(r & Hr & _)]; [done|].
    by apply elem_of_nil in Hr.
  - rewrite IH, elem_of_union. split.
    + intros [[?|?]|(r' & ? & ?)]; [by left| |].
      * right. exists r. split; [left|done].
      * right. exists r'. split; [by right|done].
    + intros [?|(r' & Hr' & ?)]; [by left; left|].
      apply elem_of_cons in Hr' as [->|?]; [by left; right|].
      right. eauto.
Qed.

Lemma base_registry_Some t b r :
  base_registry t b = Some r →
  match b with Proper c => c < length t ∧ r = registry t c | Foreign => True end.
Proof.
  destruct b as [c|]; [|done]. simpl. unfold registry.
  destruct (t !! c) eqn:E; intros; simplify_eq/=.
  split; [by eapply lookup_lt_Some|done].
Qed.

(** Defining a class keeps the invariant: the registry of the new class
    holds the registry of each of its proper bases. *)
Lemma new_superset bs ns t c t' :
  well_founded_table t → superset_invariant t →
  __new__ bs ns t = Some (c, t') →
  c = length t ∧ well_founded_table t' ∧ superset_invariant t'.
Proof.
  intros Hwf Hinv Hnew. unfold __new__ in Hnew.
  destruct (mapM (base_registry t) bs) as [inh|] eqn:Hm; simplify_eq/=.
  apply mapM_Some in Hm.
  assert (∀ s d, direct_sub (t ++ [Cls bs ns (foldl (∪) (declared ns) inh)]) s d →
            (s < length t ∧ direct_sub t s d) ∨ (s = length t ∧ Proper d ∈ bs))
    as Hcases.
  { intros s d Hsd. assert (Hlt := direct_sub_lt_length _ _ _ Hsd).
    rewrite length_app in Hlt. simpl in Hlt. unfold direct_sub in *.
    destruct (decide (s < length t)) as [Hs|Hs].
    - left. by rewrite lookup_app_l in Hsd.
    - right. assert (s = length t) as -> by lia.
      by rewrite list_lookup_middle in Hsd. }
  assert (∀ d, Proper d ∈ bs →
            d < length t ∧ registry t d ⊆ foldl (∪) (declared ns) inh) as Hbs.
  { intros d Hd. apply list_elem_of_lookup in Hd as [i Hi].
    destruct (Forall2_lookup_l _ _ _ _ _ Hm Hi) as (r & Hr & Hbase).
    apply base_registry_Some in Hbase as [Hlt ->]. split; [done|].
    intros x Hx. apply foldl_union_elem. right. exists (registry t d).
    split; [|done]. apply list_elem_of_lookup. eauto. }
  split; [done|]. split.
  - intros s d Hsd. destruct (Hcases s d Hsd) as [[_ H]|[-> H]].
    + by apply Hwf.
    + by apply Hbs.
  - apply superset_direct. intros s d Hsd.
    destruct (Hcases s d Hsd) as [[Hs H]|[-> H]].
    + assert (d < length t) by (apply Hwf in H; lia).
      unfold registry. rewrite !lookup_app_l by done.
      apply Hinv. by apply tc_once.
    + destruct (Hbs d H) as [Hd Hsub].
      unfold registry at 2. rewrite list_lookup_middle by done. simpl.
      unfold registry at 1. by rewrite lookup_app_l.
Qed.

(** The empty interpreter. *)
Lemma empty_table_invariant :
  well_founded_table [] ∧ superset_invariant [].
Proof.
  split.
  - intros s c H. apply direct_sub_lt_length in H. simpl in H. lia.
  - apply superset_direct. intros s c H.
    apply direct_sub_lt_length in H. simpl in H. lia.
Qed.

(** The hierarchy of the example is built from the empty interpreter by
    three class definitions, so it satisfies the invariant. *)
Lemma hierarchy_invariant t :
  hierarchy = Some t → well_founded_table t ∧ superset_invariant t.
Proof.
  unfold hierarchy. intros H.
  destruct (__new__ [] ∅ []) as [[c0 t0]|] eqn:E0; simplify_eq/=.
  destruct (__new__ [Proper 0] _ t0) as [[c1 t1]|] eqn:E1; simplify_eq/=.
  destruct (__new__ [Proper 1] _ t1) as [[c2 t2]|] eqn:E2; simplify_eq/=.
  destruct empty_table_invariant as [W I].
  destruct (new_superset _ _ _ _ _ W I E0) as (_ & W0 & I0).
  destruct (new_superset _ _ _ _ _ W0 I0 E1) as (_ & W1 & I1).
  destruct (new_superset _ _ _ _ _ W1 I1 E2) as (_ & W2 & I2).
  done.
Qed.

(** C2 (registry superset invariant), evaluated on the code at a removal.
    The class [S] (number 2) derives from [T] (number 1) and both declare
    the property [p].  [del S.p] succeeds, since [S] binds [p] itself, and
    unregisters [p] from [S] while [T] keeps it: afterwards the registry of
    the subclass [S] is no longer a superset of the registry of [T]. *)
Theorem C2_delattr_breaks_superset :
  ∃ t t',
    hierarchy = Some t ∧ superset_invariant t ∧
    __delattr__ (length t) 2 "p" t = Done t' ∧
    subclass t' 2 1 ∧
    "p" ∈ registry t' 1 ∧ ("p" ∉ registry t' 2) ∧
    ¬ superset_invariant t'.
Proof.
  destruct hierarchy as [t|] eqn:Ht; [|vm_compute in Ht; discriminate].
  destruct (hierarchy_invariant t Ht) as [_ Hinv].
  vm_compute in Ht. injection Ht as <-.
  eexists _, _. split; [reflexivity|]. split; [exact Hinv|].
  split; [vm_compute; reflexivity|].
  match goal with |- subclass ?t' _ _ ∧ _ => set (after := t') end.
  assert (subclass after 2 1) as Hsub.
  { apply tc_once. apply (bool_decide_unpack _). vm_compute. exact I. }
  assert ("p" ∈ registry after 1) as Hin.
  { apply (bool_decide_unpack _). vm_compute. exact I. }
  assert ("p" ∉ registry after 2) as Hout.
  { apply (bool_decide_unpack _). vm_compute. exact I. }
  repeat split; try done.
  intros Hbad. apply Hout. by apply (Hbad 2 1 Hsub).
Qed.

End MetaFacts.

(** * Properties of instances *)

Section Assignment.

Implicit Types (st : state) (a : addr) (o : obj) (name : string) (v : value).

Lemma emit_changed_ok a name v st o :
  heap st !! a = Some o →
  ∃ st', _emit_changed a name v st = Ok () st' ∧
         heap st' = heap st ∧ wrappers st' = wrappers st ∧
         next_signal st' = next_signal st ∧
         log st' = log st ++ notification a o name v.
Proof.
  intros Ha. unfold _emit_changed, notification. rewrite Ha.
  destruct (o_changed_signals o !! name) as [s|]; eexists; split; try done;
    simpl; repeat split; try done.
  by rewrite <- app_assoc.
Qed.

Lemma object_getattribute_stored o name v :
  o_attrs o !! name = Some v → object_getattribute o name = Val v.
Proof.
  intros H. unfold object_getattribute. rewrite H.
  by destruct (k_attrs (o_class o) !! name) as [[]|].
Qed.

Lemma base_setattr_ok a name v st o :
  heap st !! a = Some o → name ∈ properties_names o None →
  ∃ st', base_setattr a name v st = Ok () st' ∧
         heap st' = <[a := with_attrs (insert name v) o]> (heap st) ∧
         wrappers st' = wrappers st ∧
         next_signal st' = next_signal st ∧
         log st' = log st ++ notification a o name v.
Proof.
  intros Ha Hn. unfold base_setattr. rewrite Ha.
  rewrite decide_True by done.
  set (o1 := with_attrs (insert name v) o).
  set (st1 := set_heap _ st).
  destruct (emit_changed_ok a name v st1 o1) as (st' & E & Hh & Hw & Hs & Hl).
  { unfold st1. simpl. by rewrite lookup_insert_eq. }
  exists st'. by rewrite E, Hh, Hw, Hs, Hl.
Qed.

(** Assignment to a recognised name: the value is stored and the log grows
    by the notification. *)
Lemma setattr_notifies st a o name v :
  heap st !! a = Some o → wf_obj st o → live_value st v →
  name ∈ properties_names o None →
  ∃ st' o',
    setattr a name v st = Ok () st' ∧
    heap st' !! a = Some o' ∧
    (is_wrapper v = false → getattr st' o' name = Val v) ∧
    o_property_changed o' = o_property_changed o ∧
    o_changed_signals o' = o_changed_signals o ∧
    log st' = log st ++ notification a o name v.
Proof.
  intros Ha Hwf Hv Hn. unfold setattr. rewrite Ha.
  destruct (k_instance_properties (o_class o)) eqn:Hk.
  - destruct (is_wrapper v) eqn:Hw.
    + destruct v as [| | | | |w]; try done.
      destruct (base_setattr_ok a name (VIProp w) st o Ha Hn)
        as (st1 & E & Hh & _ & _ & Hl).
      rewrite E. simpl. unfold register_i_property.
      rewrite Hh, lookup_insert_eq. eexists _, _. split; [done|]. simpl.
      rewrite lookup_insert_eq. repeat split; done.
    + assert (∀ X Y : outcome unit,
                match v with VIProp _ => X | _ => Y end = Y) as Hm
        by (intros; by destruct v).
      rewrite Hm. clear Hm. case_decide as Hi.
      * destruct (Hwf Hk name Hi) as (w & Hattr & [p Hp]).
        rewrite (object_getattribute_stored _ _ _ Hattr).
        unfold __pset__. rewrite Hp. simpl.
        set (st1 := set_wrappers _ st).
        destruct (emit_changed_ok a name v st1 o Ha)
          as (st' & E & Hh & Hws & _ & Hl).
        rewrite E. exists st', o. split; [done|]. rewrite Hh.
        split; [done|]. split; [|done].
        intros _. unfold getattr.
        rewrite (object_getattribute_stored _ _ _ Hattr), Hk.
        unfold __pget__. rewrite Hws. simpl. by rewrite lookup_insert_eq.
      * destruct (base_setattr_ok a name v st o Ha Hn)
          as (st1 & E & Hh & _ & _ & Hl).
        rewrite E. eexists _, _. split; [done|]. rewrite Hh, lookup_insert_eq.
        split; [done|]. split; [|done].
        intros _. unfold getattr.
        rewrite (object_getattribute_stored _ name v)
          by (simpl; apply lookup_insert_eq).
        by destruct v.
  - destruct (base_setattr_ok a name v st o Ha Hn)
      as (st1 & E & Hh & _ & _ & Hl).
    rewrite E. eexists _, _. split; [done|]. rewrite Hh, lookup_insert_eq.
    split; [done|]. split; [|done].
    intros Hw. unfold getattr.
    rewrite (object_getattribute_stored _ name v)
      by (simpl; apply lookup_insert_eq).
    by destruct v.
Qed.

End Assignment.

Section Changed.

Implicit Types (st : state) (a : addr) (o : obj) (name : string).

(** [changed(name)] raises [ValueError] exactly when [name] is not a
    recognised property name.  For a recognised name it returns a signal:
    the one already cached for the name, or else a newly constructed signal
    that is cached; a second call returns the same signal and changes
    nothing. *)
Lemma changed_contract st a o name :
  heap st !! a = Some o →
  ((∃ e st', changed a name st = Raise e st') ↔
     name ∉ properties_names o None) ∧
  (name ∉ properties_names o None →
     changed a name st = Raise ValueError st) ∧
  (name ∈ properties_names o None →
     ∃ s st1,
       changed a name st = Ok s st1 ∧
       changed a name st1 = Ok s st1 ∧
       signal_at st1 (Named a name) = Some s ∧
       match o_changed_signals o !! name with
       | Some s0 => s = s0 ∧ st1 = st
       | None => s = next_signal st ∧ next_signal st1 = Pos.succ s
       end).
Proof.
  intros Ha. unfold changed. rewrite Ha.
  destruct (decide (name ∈ properties_names o None)) as [Hn|Hn].
  - split; [|split; [done|]].
    + split; [|done]. intros (e & st' & H).
      by destruct (o_changed_signals o !! name).
    + intros _. destruct (o_changed_signals o !! name) as [s|] eqn:Hs.
      * exists s, st. rewrite Ha, decide_True, Hs by done.
        repeat split; try done. simpl. by rewrite Ha.
      * eexists _, _. split; [done|]. simpl.
        rewrite !lookup_insert_eq. simpl.
        rewrite decide_True by done. rewrite lookup_insert_eq.
        repeat split; done.
  - split; [|split; [done|done]]. split; [done|]. eauto.
Qed.

End Changed.

Section Update.

Implicit Types (st : state) (a : addr) (o : obj) (name : string) (v : value).

(** C6 (unknown-name tolerance).  When no key of the mapping is a
    recognised property name of the instance, [update_properties] returns
    normally and the state (property values, signals and log) is the one it
    started from. *)
Theorem C6_unknown_names_ignored (fuel : nat) st a o (items : dict) :
  heap st !! a = Some o →
  (∀ name v, (name, v) ∈ items → name ∉ properties_names o None) →
  update_properties (S fuel) a (VDict items) st = Ok () st.
Proof.
  intros Ha Hunknown. simpl.
  induction items as [|[name v] rest IH]; [done|].
  simpl. rewrite Ha. rewrite decide_False.
  - simpl. apply IH. intros n w Hin. apply (Hunknown n w). by right.
  - apply (Hunknown name v). by left.
Qed.

(** C6 on the example of the specification:
    [l.update_properties({"nonexistent": 1})]. *)
Lemma C6_unknown_names_ignored_witness :
  update_properties 1 light (VDict [("nonexistent", VInt 1)]) light_state
  = Ok () light_state.
Proof.
  apply (C6_unknown_names_ignored 0 light_state light light_obj).
  - vm_compute. reflexivity.
  - intros name v Hin. apply list_elem_of_singleton in Hin.
    injection Hin as -> ->.
    apply (bool_decide_unpack _). vm_compute. exact I.
Defined.

End Update.

Section Evolution.

Implicit Types (st : state) (a b : addr) (o : obj) (name nm : string)
  (v : value).

Lemma evolves_refl st : evolves st st.
Proof.
  split; [done|]. split; [done|]. split; [done|].
  exists []. by rewrite app_nil_r.
Qed.

Lemma signals_same_heap st st' b o :
  (∀ sl, signal_at st' sl = signal_at st sl) → heap st !! b = Some o →
  ∃ o', heap st' !! b = Some o' ∧
        o_property_changed o' = o_property_changed o ∧
        ∀ nm, o_changed_signals o' !! nm = o_changed_signals o !! nm.
Proof.
  intros Hs Hb. pose proof (Hs (Aggregate b)) as Hagg. simpl in Hagg.
  rewrite Hb in Hagg. simpl in Hagg.
  destruct (heap st' !! b) as [o'|] eqn:Hb'; simplify_eq/=.
  exists o'. repeat split; [done|]. intros nm.
  pose proof (Hs (Named b nm)) as Hnm. simpl in Hnm.
  by rewrite Hb, Hb' in Hnm.
Qed.

Lemma notification_signals a o o' name v :
  o_property_changed o' = o_property_changed o →
  o_changed_signals o' !! name = o_changed_signals o !! name →
  notification a o' name v = notification a o name v.
Proof. intros H1 H2. unfold notification. by rewrite H1, H2. Qed.

Lemma notifies_back st st' e b nm :
  (∀ sl, signal_at st sl = signal_at st' sl) →
  notifies st' e b nm → notifies st e b nm.
Proof.
  intros Hs (o' & v & Hb & He).
  destruct (signals_same_heap st' st b o' Hs Hb) as (o & Ho & H1 & H2).
  exists o, v. split; [done|].
  by rewrite (notification_signals b o' o nm v).
Qed.

Lemma evolves_trans st1 st2 st3 :
  evolves st1 st2 → evolves st2 st3 → evolves st1 st3.
Proof.
  intros (O1 & S1 & N1 & new1 & L1 & F1) (O2 & S2 & N2 & new2 & L2 & F2).
  split; [by auto|]. split; [by intros sl; rewrite S2|].
  split; [congruence|].
  exists (new1 ++ new2). split; [by rewrite L2, L1, app_assoc|].
  apply Forall_app. split; [done|].
  eapply List.Forall_impl; [|exact F2]. intros e (b & nm & Hn & Hno).
  exists b, nm. split.
  - by apply (notifies_back st1 st2).
  - intros n Hh. by apply (Hno n), O1.
Qed.

Lemma getattr_ext st st' o o' nm :
  wrappers st' = wrappers st → o_class o' = o_class o →
  o_attrs o' !! nm = o_attrs o !! nm →
  getattr st' o' nm = getattr st o nm.
Proof.
  intros Hw Hc Ha. unfold getattr, object_getattribute, __pget__.
  by rewrite Hw, Hc, Ha.
Qed.

(** Replacing what one property of one instance holds, when that property
    held no nested object. *)
Lemma evolves_store st st' a o o' name cur new :
  heap st !! a = Some o → getattr st o name = Val cur →
  is_object cur = false →
  heap st' = <[a := o']> (heap st) → wrappers st' = wrappers st →
  next_signal st' = next_signal st →
  o_class o' = o_class o →
  o_property_changed o' = o_property_changed o →
  o_changed_signals o' = o_changed_signals o →
  (∀ nm, nm ≠ name → o_attrs o' !! nm = o_attrs o !! nm) →
  log st' = log st ++ new →
  (new = [] ∨ ∃ v, new = notification a o name v) →
  evolves st st'.
Proof.
  intros Ha Hcur Hobj Hh Hw Hn Hc Hpc Hcs Hattrs Hl Hnew.
  assert (∀ n, ¬ holds_object st a name n) as Hfree.
  { intros n (o0 & Ho0 & Hg). simplify_eq. by rewrite Hcur in Hg; simplify_eq. }
  split; [|split; [|split; [done|]]].
  - intros b nm n (ob & Hb & Hg). unfold holds_object. rewrite Hh.
    destruct (decide (b = a)) as [->|Hne].
    + rewrite lookup_insert_eq. assert (ob = o) as -> by congruence.
      exists o'. split; [done|].
      rewrite <- Hg. apply getattr_ext; [done..|].
      apply Hattrs. intros ->. apply (Hfree n). by exists o.
    + rewrite lookup_insert_ne by done.
      exists ob. split; [done|]. rewrite <- Hg. by apply getattr_ext.
  - intros [b|b nm]; simpl; rewrite Hh.
    + destruct (decide (b = a)) as [->|Hne].
      * by rewrite lookup_insert_eq, Ha; simpl; rewrite Hpc.
      * by rewrite lookup_insert_ne.
    + destruct (decide (b = a)) as [->|Hne].
      * by rewrite lookup_insert_eq, Ha; simpl; rewrite Hcs.
      * by rewrite lookup_insert_ne.
  - exists new. split; [done|]. destruct Hnew as [->|[v ->]]; [done|].
    apply Forall_forall. intros e He%list_elem_of_In.
    exists a, name. split; [|done]. by exists o, v.
Qed.

Lemma base_setattr_final a name v st o :
  heap st !! a = Some o →
  ∃ st' new,
    base_setattr a name v st = Ok () st' ∧
    heap st' = <[a := with_attrs (insert name v) o]> (heap st) ∧
    wrappers st' = wrappers st ∧ next_signal st' = next_signal st ∧
    log st' = log st ++ new ∧
    (new = [] ∨ new = notification a o name v).
Proof.
  intros Ha. destruct (decide (name ∈ properties_names o None)) as [Hn|Hn].
  - destruct (base_setattr_ok a name v st o Ha Hn)
      as (st' & E & Hh & Hw & Hs & Hl).
    exists st', (notification a o name v). repeat split; auto.
  - unfold base_setattr. rewrite Ha, decide_False by done.
    eexists _, []. simpl. rewrite app_nil_r. repeat split; auto.
Qed.

Lemma setattr_evolves a name v st o cur :
  heap st !! a = Some o → getattr st o name = Val cur →
  is_object cur = false →
  evolves st (final (setattr a name v st)).
Proof.
  intros Ha Hcur Hobj. unfold setattr. rewrite Ha.
  destruct (base_setattr_final a name v st o Ha)
    as (stb & new & Eb & Hh & Hw & Hn & Hl & Hnew).
  assert (evolves st stb) as Hbase.
  { eapply (evolves_store st stb a o _ name cur new); eauto.
    - intros nm Hne. simpl. by rewrite lookup_insert_ne.
    - destruct Hnew as [-> | ->]; eauto. }
  destruct (k_instance_properties (o_class o)) eqn:Hk; [|by rewrite Eb].
  destruct (is_wrapper v) eqn:Hisw.
  - destruct v as [| | | | |w]; try done. rewrite Eb. simpl.
    unfold register_i_property. rewrite Hh, lookup_insert_eq. simpl.
    apply (evolves_store st _ a o
             (with_i_properties (λ s, s ∪ {[name]})
                (with_attrs (insert name (VIProp w)) o)) name cur new);
      simpl; try done.
    + by rewrite insert_insert_eq.
    + intros nm Hne. by rewrite lookup_insert_ne.
    + destruct Hnew as [-> | ->]; eauto.
  - assert (∀ X Y : outcome unit,
              match v with VIProp _ => X | _ => Y end = Y) as Hm
      by (intros; by destruct v).
    rewrite Hm. clear Hm. case_decide as Hi; [|by rewrite Eb].
    destruct (object_getattribute o name) as [x|e] eqn:Hx;
      [|apply evolves_refl].
    destruct (is_wrapper x) eqn:Hxw;
      [|destruct x; try done; apply evolves_refl].
    destruct x as [| | | | |w]; try done.
    unfold __pset__. destruct (wrappers st !! w) as [p|] eqn:Hp;
      [|apply evolves_refl].
    simpl. set (st1 := set_wrappers _ st).
    destruct (emit_changed_ok a name v st1 o Ha)
      as (st' & E & Hh' & Hw' & Hn' & Hl').
    rewrite E. simpl.
    assert (ip_value p = cur) as Hpc.
    { unfold getattr in Hcur. rewrite Hx, Hk in Hcur.
      unfold __pget__ in Hcur. rewrite Hp in Hcur. by simplify_eq. }
    split; [|split; [|split; [by rewrite Hn'|]]].
    + intros b nm n (ob & Hb & Hg). exists ob. rewrite Hh'.
      split; [done|]. unfold getattr, __pget__ in *.
      destruct (object_getattribute ob nm) as [y|] eqn:Hy; [|done].
      destruct y as [| | | | |w']; try done.
      destruct (k_instance_properties (o_class ob)) eqn:Hkb; [|done].
      rewrite Hw'. simpl.
      destruct (decide (w' = w)) as [->|Hne];
        [|by rewrite lookup_insert_ne].
      rewrite Hp in Hg. injection Hg as Hg. rewrite Hg in Hpc.
      subst cur. done.
    + intros sl. destruct sl; simpl; by rewrite Hh'.
    + exists (notification a o name v). split; [done|].
      apply Forall_forall. intros e He%list_elem_of_In.
      exists a, name. split.
      * by exists o, v.
      * intros n (o0 & Ho0 & Hg). assert (o0 = o) as -> by congruence.
        rewrite Hcur in Hg. injection Hg as ->. done.
Qed.

Lemma evolves_and_then {A B} st (m : outcome A)
    (k : A → state → outcome B) :
  evolves st (final m) →
  (∀ x st1, m = Ok x st1 → evolves st1 (final (k x st1))) →
  evolves st (final (and_then m k)).
Proof.
  intros Hm Hk. destruct m as [x st1|e st1]; simpl in *; [|done].
  eapply evolves_trans; [exact Hm|]. by apply Hk.
Qed.

Lemma update_items_evolves nested a items st :
  (∀ n v st0, evolves st0 (final (nested n v st0))) →
  evolves st (final (update_items nested a items st)).
Proof.
  intros Hnested. revert st.
  induction items as [|[name v] rest IH]; intros st; simpl.
  { apply evolves_refl. }
  destruct (heap st !! a) as [o|] eqn:Ha; [|apply evolves_refl].
  apply evolves_and_then; [|intros; apply IH].
  case_decide; [|apply evolves_refl].
  destruct (getattr st o name) as [cur|e] eqn:Hcur; [|apply evolves_refl].
  destruct (is_object cur) eqn:Hobj.
  - destruct cur; first [done | apply Hnested].
  - assert (∀ (X : addr → outcome unit) (Y : outcome unit),
              match cur with VObj n => X n | _ => Y end = Y) as Hm
      by (intros; by destruct cur).
    rewrite Hm. by eapply setattr_evolves.
Qed.

(** An import leaves every nested object where it is and notifies only
    properties that held no nested object. *)
Lemma update_properties_evolves (fuel : nat) a (m : value) st :
  evolves st (final (update_properties fuel a m st)).
Proof.
  revert a m st. induction fuel as [|k IH]; intros a m st; simpl.
  { apply evolves_refl. }
  destruct m; try apply evolves_refl.
  by apply update_items_evolves.
Qed.

End Evolution.

(** * The order of store and notification *)

Section AssignmentOrder.

Implicit Types (st : state) (a : addr) (o : obj) (name : string) (v : value).

Lemma emit_changed_views a name v st o :
  heap st !! a = Some o →
  ∃ st', _emit_changed a name v st = Ok () st' ∧
         heap st' = heap st ∧ wrappers st' = wrappers st ∧
         seen st' = seen st
                    ++ replicate (length (notification a o name v))
                                 (heap st, wrappers st).
Proof.
  intros Ha. unfold _emit_changed, notification. rewrite Ha.
  destruct (o_changed_signals o !! name) as [s|]; eexists; split; try done;
    simpl; repeat split; try done.
  by rewrite <- app_assoc.
Qed.

Lemma observe_getattr st (w : snapshot) a o o' name :
  w.1 !! a = Some o → w.2 = wrappers st →
  o_class o' = o_class o → o_attrs o' !! name = o_attrs o !! name →
  observe w a name = getattr st o' name.
Proof.
  intros Ha Hw Hc Hattr. unfold observe. rewrite Ha.
  symmetry. by apply getattr_ext.
Qed.

(** What the subscribers of the emissions of an assignment can read. *)
Lemma setattr_views st a o name v :
  heap st !! a = Some o → wf_obj st o → live_value st v →
  name ∈ properties_names o None →
  ∃ st' o' views,
    setattr a name v st = Ok () st' ∧
    heap st' !! a = Some o' ∧
    seen st' = seen st ++ views ∧
    length views = length (notification a o name v) ∧
    Forall (λ w, observe w a name = getattr st' o' name) views.
Proof.
  intros Ha Hwf Hv Hn.
  assert (∀ st1 o1,
            heap st1 = <[a := o1]> (heap st) →
            ∃ st2, _emit_changed a name v st1 = Ok () st2 ∧
                   heap st2 = heap st1 ∧ wrappers st2 = wrappers st1 ∧
                   seen st2 = seen st1
                     ++ replicate (length (notification a o1 name v))
                                  (heap st1, wrappers st1)) as Hemit.
  { intros st1 o1 Hh. apply emit_changed_views.
    by rewrite Hh, lookup_insert_eq. }
  set (o1 := with_attrs (insert name v) o).
  set (st1 := set_heap (<[a := o1]> (heap st)) st).
  assert (base_setattr a name v st = _emit_changed a name v st1) as Hbase.
  { unfold base_setattr. rewrite Ha. by rewrite decide_True. }
  destruct (Hemit st1 o1 eq_refl) as (st2 & E2 & Hh2 & Hw2 & Hs2).
  assert (length (notification a o1 name v)
          = length (notification a o name v)) as Hlen by done.
  assert (Forall (λ w : snapshot,
                    w.1 !! a = Some o1 ∧ w.2 = wrappers st)
                 (replicate (length (notification a o1 name v))
                            (heap st1, wrappers st1))) as Hall.
  { apply Forall_replicate. simpl. by rewrite lookup_insert_eq. }
  unfold setattr. rewrite Ha.
  destruct (k_instance_properties (o_class o)) eqn:Hk.
  - destruct (is_wrapper v) eqn:Hwr.
    + destruct v as [| | | | |w]; try done.
      rewrite Hbase, E2. simpl. unfold register_i_property.
      rewrite Hh2. simpl. rewrite lookup_insert_eq.
      eexists _, _, _. split; [done|]. simpl.
      rewrite lookup_insert_eq. split; [done|].
      split; [exact Hs2|]. split; [by rewrite length_replicate|].
      eapply List.Forall_impl; [|exact Hall].
      intros snap [H1 H2]. apply (observe_getattr _ snap a o1); try done.
      simpl. by rewrite Hw2.
    + assert (∀ X Y : outcome unit,
                match v with VIProp _ => X | _ => Y end = Y) as Hm
        by (intros; by destruct v).
      rewrite Hm. clear Hm. case_decide as Hi.
      * destruct (Hwf Hk name Hi) as (w & Hattr & [p Hp]).
        rewrite (object_getattribute_stored _ _ _ Hattr).
        unfold __pset__. rewrite Hp. simpl.
        set (st3 := set_wrappers _ st).
        destruct (emit_changed_views a name v st3 o Ha)
          as (st4 & E4 & Hh4 & Hw4 & Hs4).
        rewrite E4. exists st4, o. eexists. split; [done|].
        rewrite Hh4. split; [done|]. split; [exact Hs4|].
        split; [by rewrite length_replicate|].
        apply Forall_replicate.
        by apply (observe_getattr _ _ a o).
      * rewrite Hbase, E2. exists st2, o1. eexists. split; [done|].
        rewrite Hh2. split; [by apply lookup_insert_eq|].
        split; [exact Hs2|]. split; [by rewrite length_replicate|].
        eapply List.Forall_impl; [|exact Hall].
        intros snap [H1 H2]. apply (observe_getattr _ snap a o1); try done.
        by rewrite Hw2.
  - rewrite Hbase, E2. exists st2, o1. eexists. split; [done|].
    rewrite Hh2. split; [by apply lookup_insert_eq|].
    split; [exact Hs2|]. split; [by rewrite length_replicate|].
    eapply List.Forall_impl; [|exact Hall].
    intros snap [H1 H2]. apply (observe_getattr _ snap a o1); try done.
    by rewrite Hw2.
Qed.

(** C4 (change notification on assignment).  Assigning [v] to a recognised
    property name of a well-formed instance succeeds, stores the value, and
    appends to the log exactly the aggregate emission with [(o, name, v)]
    followed by the emission of the signal of the name with [(v)] when
    [changed(name)] created it.  Nothing is asked of the current value, so
    assigning the value already held notifies all the same.  The emissions
    come after the store: at the delivery of each of them, one per
    emission, a subscriber that reads [name] on the instance reads what is
    read once the assignment has returned. *)
Theorem C4_assignment_notifies st a o name v :
  heap st !! a = Some o → wf_obj st o → live_value st v →
  name ∈ properties_names o None →
  ∃ st' o',
    setattr a name v st = Ok () st' ∧
    heap st' !! a = Some o' ∧
    (is_wrapper v = false → getattr st' o' name = Val v) ∧
    o_property_changed o' = o_property_changed o ∧
    o_changed_signals o' = o_changed_signals o ∧
    log st' = log st ++ notification a o name v ∧
    ∃ views,
      seen st' = seen st ++ views ∧
      length views = length (notification a o name v) ∧
      Forall (λ w, observe w a name = getattr st' o' name) views.
Proof.
  intros Ha Hwf Hv Hn.
  destruct (setattr_notifies st a o name v Ha Hwf Hv Hn)
    as (st' & o' & E & Ho' & Hg & Hpc & Hcs & Hl).
  destruct (setattr_views st a o name v Ha Hwf Hv Hn)
    as (st2 & o2 & views & E2 & Ho2 & Hs & Hlen & Hall).
  rewrite E in E2. injection E2 as <-.
  assert (o2 = o') as -> by congruence.
  exists st', o'. repeat split; try done. by exists views.
Qed.

(** C4 on the example: [l.intensity = 50]. *)
Lemma C4_assignment_notifies_witness :
  ∃ st' o',
    setattr light "intensity" (VInt 50) light_state = Ok () st' ∧
    heap st' !! light = Some o' ∧
    (is_wrapper (VInt 50) = false →
     getattr st' o' "intensity" = Val (VInt 50)) ∧
    o_property_changed o' = o_property_changed light_obj ∧
    o_changed_signals o' = o_changed_signals light_obj ∧
    log st' = log light_state
              ++ notification light light_obj "intensity" (VInt 50) ∧
    ∃ views,
      seen st' = seen light_state ++ views ∧
      length views
      = length (notification light light_obj "intensity" (VInt 50)) ∧
      Forall (λ w, observe w light "intensity" = getattr st' o' "intensity")
             views.
Proof.
  apply (C4_assignment_notifies light_state light light_obj
           "intensity" (VInt 50)).
  - vm_compute. reflexivity.
  - intros H. vm_compute in H. discriminate.
  - exact I.
  - apply (bool_decide_unpack _). vm_compute. exact I.
Defined.

End AssignmentOrder.


Section NestedImport.

Implicit Types (st : state) (a n : addr) (o : obj) (name : string)
  (v value : value).



End NestedImport.

Section Signals.

Implicit Types (st : state) (a n : addr) (o : obj) (name : string).

Lemma wf_signals_empty : wf_signals empty_state.
Proof. split; intros [b|b nm]; simpl; intros; simplify_eq/=. Qed.

(** Constructing a signal and storing it in a place that held none. *)
Lemma wf_signals_alloc st st' sl0 :
  signal_at st sl0 = None →
  next_signal st' = Pos.succ (next_signal st) →
  (∀ sl, signal_at st' sl =
         if decide (sl = sl0) then Some (next_signal st) else signal_at st sl) →
  wf_signals st → wf_signals st'.
Proof.
  intros Hnone Hnext Hat [Hb Hu]. split.
  - intros sl s. rewrite Hat, Hnext. case_decide.
    + intros; simplify_eq. lia.
    + intros H1. apply Hb in H1. lia.
  - intros sl1 sl2 s. rewrite !Hat. repeat case_decide; intros H1 H2.
    + congruence.
    + simplify_eq. apply Hb in H2. lia.
    + simplify_eq. apply Hb in H1. lia.
    + by eapply Hu.
Qed.

Lemma wf_signals_new_instance k st :
  wf_signals st → wf_signals (new_instance k st).2.
Proof.
  intros Hwf. unfold new_instance. simpl.
  set (a := fresh (dom (heap st))).
  assert (heap st !! a = None) as Hfresh.
  { apply not_elem_of_dom. apply is_fresh. }
  apply (wf_signals_alloc st _ (Aggregate a)); simpl; try done.
  - by rewrite Hfresh.
  - intros [b|b nm]; simpl.
    + destruct (decide (b = a)) as [->|Hne].
      * by rewrite lookup_insert_eq, decide_True.
      * rewrite lookup_insert_ne, decide_False by congruence. done.
    + destruct (decide (b = a)) as [->|Hne].
      * by rewrite lookup_insert_eq, Hfresh.
      * by rewrite lookup_insert_ne.
Qed.

Lemma wf_signals_changed a name st :
  wf_signals st → wf_signals (final (changed a name st)).
Proof.
  intros Hwf. unfold changed.
  destruct (heap st !! a) as [o|] eqn:Ha; [|done].
  case_decide; [|done].
  destruct (o_changed_signals o !! name) as [s|] eqn:Hs; [done|]. simpl.
  apply (wf_signals_alloc st _ (Named a name)); simpl; try done.
  - by rewrite Ha.
  - intros [b|b nm]; simpl.
    + destruct (decide (b = a)) as [->|Hne].
      * by rewrite lookup_insert_eq, Ha.
      * by rewrite lookup_insert_ne.
    + destruct (decide (b = a)) as [->|Hne].
      * rewrite lookup_insert_eq. simpl.
        destruct (decide (nm = name)) as [->|Hnm].
        -- by rewrite lookup_insert_eq, decide_True.
        -- rewrite lookup_insert_ne, decide_False, Ha by congruence. done.
      * rewrite lookup_insert_ne, decide_False by congruence. done.
Qed.

Lemma wf_signals_evolves st st' :
  evolves st st' → wf_signals st → wf_signals st'.
Proof.
  intros (_ & Hs & Hn & _) [Hb Hu]. split.
  - intros sl s. rewrite Hs, Hn. apply Hb.
  - intros sl1 sl2 s. rewrite !Hs. apply Hu.
Qed.

Lemma wf_signals_rig : wf_signals rig.
Proof.
  unfold rig. apply wf_signals_changed.
  eapply wf_signals_evolves.
  - eapply (setattr_evolves fixture "lamp" (VObj lamp) _ _ VNone).
    + vm_compute. reflexivity.
    + vm_compute. reflexivity.
    + reflexivity.
  - do 2 apply wf_signals_new_instance. apply wf_signals_empty.
Qed.

(** An import never notifies a property that holds a nested object:
    neither the aggregate signal of the instance with that name, nor the
    signal of the name. *)
Lemma update_properties_silent (fuel : nat) st a o name n (m : value) :
  wf_signals st → heap st !! a = Some o →
  getattr st o name = Val (VObj n) →
  ∃ new,
    log (final (update_properties fuel a m st)) = log st ++ new ∧
    ∀ s args, Emit s args ∈ new →
      (s = o_property_changed o → ∀ v, args ≠ [VObj a; VStr name; v]) ∧
      o_changed_signals o !! name ≠ Some s.
Proof.
  intros [_ Huniq] Ha Hg.
  destruct (update_properties_evolves fuel a m st)
    as (_ & _ & _ & new & Hl & Hnew).
  exists new. split; [done|]. intros s args He.
  rewrite List.Forall_forall in Hnew.
  apply list_elem_of_In in He.
  destruct (Hnew _ He) as (b & nm & (ob & v & Hb & Hin) & Hfree).
  assert (¬ (b = a ∧ nm = name)) as Hdiff.
  { intros [-> ->]. apply (Hfree n). by exists o. }
  unfold notification in Hin.
  apply elem_of_cons in Hin as [Hin|Hin].
  - injection Hin as -> ->. split.
    + intros _ v' Heq. injection Heq as -> ->. by apply Hdiff.
    + intros Hs.
      assert (Named a name = Aggregate b) as Heq; [|done].
      apply (Huniq _ _ (o_property_changed ob)); simpl.
      * by rewrite Ha.
      * by rewrite Hb.
  - destruct (o_changed_signals ob !! nm) as [s'|] eqn:Hs';
      [|by apply elem_of_nil in Hin].
    apply list_elem_of_singleton in Hin. injection Hin as -> ->. split.
    + intros _ v' Heq. discriminate.
    + intros Hs.
      assert (Named a name = Named b nm) as Heq.
      { apply (Huniq _ _ s'); simpl.
        - by rewrite Ha.
        - by rewrite Hb. }
      injection Heq as -> ->. by apply Hdiff.
Qed.

End Signals.

Section InstanceProperties.

Implicit Types (st : state) (a : addr) (o : obj) (name : string) (v : value).

(** C8 (instance-local properties are transparent).  On a
    [HasInstanceProperties] instance, a name of the instance-local registry
    is a recognised property name; the instance binds it to a wrapper and
    reading the name gives the value the wrapper holds, not the wrapper;
    assigning a plain value leaves the binding alone, replaces the value
    inside that wrapper, and appends to the log the notification that an
    assignment to a class-declared property appends. *)
Theorem C8_instance_property_access st a o name :
  heap st !! a = Some o → k_instance_properties (o_class o) = true →
  wf_obj st o → name ∈ o_i_properties o →
  name ∈ properties_names o None ∧
  ∃ w p,
    o_attrs o !! name = Some (VIProp w) ∧ wrappers st !! w = Some p ∧
    getattr st o name = Val (ip_value p) ∧
    ∀ v, is_wrapper v = false →
      ∃ st',
        setattr a name v st = Ok () st' ∧
        heap st' = heap st ∧
        wrappers st' = <[w := IProp v (ip_default p)]> (wrappers st) ∧
        getattr st' o name = Val v ∧
        log st' = log st ++ notification a o name v.
Proof.
  intros Ha Hk Hwf Hi.
  assert (name ∈ properties_names o None) as Hn.
  { simpl. unfold _properties_names. rewrite Hk. apply elem_of_union.
    by right. }
  split; [done|].
  destruct (Hwf Hk name Hi) as (w & Hattr & [p Hp]).
  assert (object_getattribute o name = Val (VIProp w)) as Hog
    by by apply object_getattribute_stored.
  exists w, p. split; [done|]. split; [done|]. split.
  { unfold getattr, __pget__. by rewrite Hog, Hk, Hp. }
  intros v Hv. unfold setattr. rewrite Ha, Hk.
  assert (∀ X Y : outcome unit,
            match v with VIProp _ => X | _ => Y end = Y) as Hm
    by (intros; by destruct v).
  rewrite Hm, decide_True, Hog by done.
  unfold __pset__. rewrite Hp. simpl. set (st1 := set_wrappers _ st).
  destruct (emit_changed_ok a name v st1 o Ha)
    as (st' & E & Hh & Hw & _ & Hl).
  rewrite E. exists st'. split; [done|]. split; [done|]. split; [done|].
  split; [|done].
  unfold getattr, __pget__. rewrite Hog, Hk, Hw. simpl.
  by rewrite lookup_insert_eq.
Qed.

Lemma bag_obj_wf : wf_obj bag_state bag_obj.
Proof.
  intros _ name Hn. simpl in Hn. apply elem_of_singleton in Hn as ->.
  exists 1%positive. split; [done|]. vm_compute. eauto.
Qed.

(** C8 on the example: [b.x] and [b.x = v]. *)
Lemma C8_instance_property_access_witness :
  "x" ∈ properties_names bag_obj None ∧
  ∃ w p,
    o_attrs bag_obj !! "x" = Some (VIProp w) ∧
    wrappers bag_state !! w = Some p ∧
    getattr bag_state bag_obj "x" = Val (ip_value p) ∧
    ∀ v, is_wrapper v = false →
      ∃ st',
        setattr bag "x" v bag_state = Ok () st' ∧
        heap st' = heap bag_state ∧
        wrappers st' = <[w := IProp v (ip_default p)]> (wrappers bag_state) ∧
        getattr st' bag_obj "x" = Val v ∧
        log st' = log bag_state ++ notification bag bag_obj "x" v.
Proof.
  apply (C8_instance_property_access bag_state bag bag_obj "x").
  - vm_compute. reflexivity.
  - reflexivity.
  - exact bag_obj_wf.
  - simpl. by apply elem_of_singleton.
Defined.

End InstanceProperties.

Section SparseExport.

Implicit Types (st : state) (a n : addr) (o : obj) (name : string)
  (v x : value).

Lemma collect_Val {A B} (f : A → res (list B)) (l : list A) (ys : list B) :
  collect f l = Val ys →
  ∀ y, y ∈ ys ↔ ∃ i zs, i ∈ l ∧ f i = Val zs ∧ y ∈ zs.
Proof.
  revert ys. induction l as [|i l IH]; intros ys; simpl.
  - intros [= <-] y. split.
    + by intros ?%elem_of_nil.
    + by intros (j & zs & ?%elem_of_nil & _).
  - destruct (f i) as [zs|] eqn:Hi; [|done]. simpl.
    destruct (collect f l) as [ws|] eqn:Hl; [|done]. simpl.
    intros [= <-] y. rewrite elem_of_app, (IH ws eq_refl). split.
    + intros [Hy|(j & zs' & Hin & Hf & Hy)].
      * exists i, zs. split; [left|done].
      * exists j, zs'. split; [by right|done].
    + intros (j & zs' & Hin & Hf & Hy).
      apply elem_of_cons in Hin as [->|Hin].
      * left. rewrite Hi in Hf. by injection Hf as <-.
      * right. eauto.
Qed.

Lemma collect_Err {A B} (f : A → res (list B)) (l : list A) (i : A) e :
  i ∈ l → f i = Err e → ∃ e', collect f l = Err e'.
Proof.
  intros Hin Hi. induction l as [|j l IH]; [by apply elem_of_nil in Hin|].
  simpl. apply elem_of_cons in Hin as [<-|Hin].
  - rewrite Hi. eauto.
  - destruct (f j); [|by eauto]. simpl.
    destruct (IH Hin) as [e' ->]. eauto.
Qed.

(** The sparse export rule, for an export that returns: an entry is present
    exactly for a recognised name that holds either a value other than a
    nested object that differs from the declared default, or a nested
    object whose own sparse export is not empty. *)
Lemma sparse_export_rule (fuel : nat) st a o (E : dict) :
  heap st !! a = Some o →
  properties (S fuel) st a false None = Val E →
  ∀ name x, (name, x) ∈ E ↔
    name ∈ properties_names o None ∧
    ((∃ p d, getattr st o name = Val x ∧ is_object x = false ∧
             _property o name = Val p ∧ default_of st p = Val d ∧
             py_ne x d = true) ∨
     (∃ n sub, getattr st o name = Val (VObj n) ∧
               properties fuel st n false None = Val sub ∧
               sub ≠ [] ∧ x = VDict sub)).
Proof.
  intros Ha HE name x. simpl in HE. unfold get_obj in HE. rewrite Ha in HE.
  simpl in HE. rewrite (collect_Val _ _ _ HE). clear HE.
  setoid_rewrite elem_of_elements. unfold export_entry. split.
  - intros (nm & zs & Hnm & Hf & Hin).
    destruct (getattr st o nm) as [cur|] eqn:Hcur; [|done]. simpl in Hf.
    destruct (is_object cur) eqn:Hobj.
    + destruct cur as [| | | |n|]; try done.
      destruct (properties fuel st n false None) as [sub|] eqn:Hsub;
        [|done].
      simpl in Hf. injection Hf as <-.
      case_bool_decide as Hemp; simpl in Hin;
        [by apply elem_of_nil in Hin|].
      apply list_elem_of_singleton in Hin. injection Hin as -> ->.
      split; [done|]. right. by exists n, sub.
    + assert (match _property o nm with
              | Val p => match default_of st p with
                         | Val d => Val (if py_ne cur d then [(nm, cur)] else [])
                         | Err e => Err e
                         end
              | Err e => Err e
              end = Val zs) as Hf' by (by destruct cur).
      clear Hf.
      destruct (_property o nm) as [p|] eqn:Hp; [|done].
      destruct (default_of st p) as [d|] eqn:Hd; [|done].
      injection Hf' as <-.
      destruct (py_ne cur d) eqn:Hne; [|by apply elem_of_nil in Hin].
      apply list_elem_of_singleton in Hin. injection Hin as -> ->.
      split; [done|]. left. by exists p, d.
  - intros [Hn [(p & d & Hcur & Hobj & Hp & Hd & Hne)
               |(n & sub & Hcur & Hsub & Hemp & ->)]].
    + exists name, [(name, x)]. split; [done|]. split; [|by left].
      rewrite Hcur. simpl.
      destruct x; try done; rewrite Hp; simpl; rewrite Hd; simpl;
        by rewrite Hne.
    + exists name, [(name, VDict sub)]. split; [done|]. split; [|by left].
      rewrite Hcur. simpl. rewrite Hsub. simpl.
      by rewrite bool_decide_eq_false_2.
Qed.

(** The sparse export of a [HasInstanceProperties] instance never returns
    when an instance-local property holds a value other than a nested
    object: [_property] calls [self._getattribute], which does not exist. *)
Lemma sparse_export_instance_property (fuel : nat) st a o name v :
  heap st !! a = Some o → k_instance_properties (o_class o) = true →
  name ∈ o_i_properties o →
  getattr st o name = Val v → is_object v = false →
  ∃ e, properties fuel st a false None = Err e.
Proof.
  intros Ha Hk Hi Hg Hobj. destruct fuel as [|fuel]; simpl; [eauto|].
  unfold get_obj. rewrite Ha. simpl.
  apply (collect_Err _ _ name AttributeError).
  - apply elem_of_elements. simpl. unfold _properties_names.
    rewrite Hk. apply elem_of_union. by right.
  - unfold export_entry. rewrite Hg. simpl.
    unfold _property. rewrite Hk, bool_decide_eq_true_2 by done. simpl.
    by destruct v.
Qed.

(** C3 (sparse export rule), evaluated on the code.  After
    [b = Bag(); b.x = InstanceProperty(default=1); b.x = 7] the property
    [x] holds [7], which differs from its default [1], and the full export
    is [{"x": 7}]; but the sparse export raises [AttributeError] instead of
    returning [{"x": 7}]. *)
Theorem C3_sparse_export_raises :
  (∃ o, heap bag_state' !! bag = Some o ∧
        "x" ∈ properties_names o None ∧
        getattr bag_state' o "x" = Val (VInt 7)) ∧
  wrappers bag_state' !! 1%positive = Some (IProp (VInt 7) (VInt 1)) ∧
  py_ne (VInt 7) (VInt 1) = true ∧
  properties 1 bag_state' bag true None = Val [("x", VInt 7)] ∧
  ∀ fuel, properties (S fuel) bag_state' bag false None = Err AttributeError.
Proof.
  split.
  { exists bag_obj. split; [vm_compute; reflexivity|]. split.
    - apply (bool_decide_unpack _). vm_compute. exact I.
    - vm_compute. reflexivity. }
  split; [vm_compute; reflexivity|]. split; [reflexivity|].
  split; [vm_compute; reflexivity|].
  intros fuel. simpl. vm_compute. reflexivity.
Qed.

End SparseExport.

(** * Properties of the names accessor *)

Module NamesFacts.
Import Names.

Lemma copy_fresh l (st : gmap loc (gset string)) l' st' :
  copy l st = Some (l', st') →
  ∃ s, st !! l = Some s ∧ (l' ∉ dom st) ∧ st' = <[l' := s]> st.
Proof.
  unfold copy. destruct (st !! l) as [s|] eqn:Hl; [|done]. simpl.
  intros [= <- <-]. exists s. split; [done|]. split; [apply is_fresh|done].
Qed.

Lemma union_fresh l1 l2 (st : gmap loc (gset string)) l' st' :
  union l1 l2 st = Some (l', st') →
  ∃ s t, st !! l1 = Some s ∧ st !! l2 = Some t ∧
         (l' ∉ dom st) ∧ st' = <[l' := s ∪ t]> st.
Proof.
  unfold union. destruct (st !! l1) as [s|]; [|done]. simpl.
  destruct (st !! l2) as [t|]; [|done]. simpl.
  intros [= <- <-]. exists s, t. repeat split; [apply is_fresh].
Qed.

(** The set that [_properties_names] returns is new: it is none of the
    sets that existed, all of which are left as they were, and it holds the
    recognised names. *)
Lemma properties_names_fresh o (st : gmap loc (gset string)) l st1 :
  _properties_names o st = Some (l, st1) →
  (l ∉ dom st) ∧
  (∀ l0, l0 ∈ dom st → st1 !! l0 = st !! l0) ∧
  (∀ r, recognised o st = Some r → st1 !! l = Some r).
Proof.
  unfold _properties_names, recognised.
  destruct (i_properties o) as [i|].
  - destruct (copy (cls_properties o) st) as [[c stc]|] eqn:Hc; [|done].
    simpl. intros Hu.
    apply copy_fresh in Hc as (s & Hs & Hc & ->).
    apply union_fresh in Hu as (s' & t & Hs' & Ht & Hl & ->).
    rewrite lookup_insert_eq in Hs'. injection Hs' as <-.
    rewrite dom_insert in Hl. apply not_elem_of_union in Hl as [Hlc Hl].
    apply not_elem_of_singleton in Hlc.
    split; [done|]. split.
    + intros l0 Hl0. rewrite !lookup_insert_ne; [done| |]; set_solver.
    + rewrite Hs. simpl. intros r Hr. rewrite lookup_insert_eq.
      destruct (st !! i) as [t'|] eqn:Hi; simplify_eq/=.
      rewrite lookup_insert_ne in Ht; [by simplify_eq|].
      intros ->. apply Hc. apply elem_of_dom. eauto.
  - intros Hc. apply copy_fresh in Hc as (s & Hs & Hl & ->).
    split; [done|]. split.
    + intros l0 Hl0. rewrite lookup_insert_ne; [done|]. set_solver.
    + rewrite Hs. simpl. intros r [= <-]. by rewrite lookup_insert_eq.
Qed.

Lemma mutate_other l (st : gmap loc (gset string)) (ms : list mutation) l0 :
  l0 ≠ l → foldl (mutate l) st ms !! l0 = st !! l0.
Proof.
  intros Hne. revert st. induction ms as [|m ms IH]; intros st; [done|].
  simpl. rewrite IH. unfold mutate. by rewrite lookup_alter_ne.
Qed.

Lemma mutate_dom l (st : gmap loc (gset string)) (ms : list mutation) :
  dom (foldl (mutate l) st ms) = dom st.
Proof.
  revert st. induction ms as [|m ms IH]; intros st; [done|].
  simpl. rewrite IH. unfold mutate. apply dom_alter_L.
Qed.

(** The names accessor returns when the sets of the instance exist. *)
Lemma properties_names_returns o filter (st : gmap loc (gset string)) r :
  recognised o st = Some r →
  ∃ l st1, properties_names o filter st = Some (l, st1).
Proof.
  unfold recognised, properties_names, _properties_names, copy, union.
  destruct (st !! cls_properties o) as [s|] eqn:Hs; [|done]. simpl.
  destruct (i_properties o) as [i|].
  - destruct (st !! i) as [t|] eqn:Hi; [|done]. simpl. intros _.
    rewrite lookup_insert_eq. simpl.
    rewrite lookup_insert_ne.
    + rewrite Hi. simpl. destruct filter; eauto.
    + intros <-. apply (is_fresh (dom st)). apply elem_of_dom. eauto.
  - intros _. destruct filter; eauto.
Qed.

(** C9 (the names accessor hands out a copy).  Whatever the caller, or the
    filter, does to the set returned by [properties_names], every set that
    existed before the call, the registry of the class and the
    instance-local registry among them, is left as it was; the names the
    instance recognises are unchanged, and so is what the accessor returns
    when it is called again. *)
Theorem C9_names_is_a_copy o filter (st : gmap loc (gset string)) l st1
    (ms : list mutation) r :
  recognised o st = Some r →
  properties_names o filter st = Some (l, st1) →
  (l ∉ dom st) ∧
  (∀ l0, l0 ∈ dom st → foldl (mutate l) st1 ms !! l0 = st !! l0) ∧
  foldl (mutate l) st1 ms !! cls_properties o = st !! cls_properties o ∧
  recognised o (foldl (mutate l) st1 ms) = Some r ∧
  ∃ l' st2,
    _properties_names o (foldl (mutate l) st1 ms) = Some (l', st2) ∧
    st2 !! l' = Some r.
Proof.
  intros Hr Hp. unfold properties_names in Hp.
  destruct (_properties_names o st) as [[l1 st0]|] eqn:Hn; [|done].
  simpl in Hp.
  destruct (properties_names_fresh o st l1 st0 Hn) as (Hfresh & Hsame & _).
  set (byfilter := match filter with Some fs => fs | None => [] end).
  assert (l = l1 ∧ st1 = foldl (mutate l1) st0 byfilter) as [-> ->].
  { unfold byfilter. destruct filter; by simplify_eq. }
  rewrite <- foldl_app. set (all := byfilter ++ ms).
  assert (∀ l0, l0 ∈ dom st → foldl (mutate l1) st0 all !! l0 = st !! l0)
    as Hold.
  { intros l0 Hl0. rewrite mutate_other; [by apply Hsame|].
    intros ->. done. }
  assert (cls_properties o ∈ dom st ∧
          ∀ i, i_properties o = Some i → i ∈ dom st) as [Hcls Hinst].
  { unfold recognised in Hr.
    destruct (st !! cls_properties o) as [s|] eqn:Hs; [|done].
    split; [apply elem_of_dom; eauto|]. intros i Hi. rewrite Hi in Hr.
    simpl in Hr. destruct (st !! i) eqn:Hsi; [|done].
    apply elem_of_dom. eauto. }
  assert (recognised o (foldl (mutate l1) st0 all) = Some r) as Hrec.
  { rewrite <- Hr. unfold recognised. rewrite (Hold _ Hcls).
    destruct (i_properties o) as [i|]; [|done].
    by rewrite (Hold i (Hinst i eq_refl)). }
  split; [done|]. split; [done|]. split; [by apply Hold|].
  split; [done|].
  destruct (properties_names_returns o None _ r Hrec) as (l' & st2 & H2).
  unfold properties_names in H2.
  destruct (_properties_names o (foldl (mutate l1) st0 all))
    as [[l2 st3]|] eqn:Hn2; [|done].
  simpl in H2. injection H2 as <- <-. exists l2, st3. split; [done|].
  by apply (properties_names_fresh _ _ _ _ Hn2).
Qed.

(** C9 on the example: the returned set is filtered, then extended and
    cleared by the caller. *)
Lemma C9_names_is_a_copy_witness :
  (2%positive ∉ dom light_sets) ∧
  (∀ l0, l0 ∈ dom light_sets →
     foldl (mutate 2%positive) light_names [Add "x"; Clear] !! l0
     = light_sets !! l0) ∧
  foldl (mutate 2%positive) light_names [Add "x"; Clear]
    !! cls_properties light_instance
  = light_sets !! cls_properties light_instance ∧
  recognised light_instance
    (foldl (mutate 2%positive) light_names [Add "x"; Clear])
  = Some {[ "intensity"; "color" ]} ∧
  ∃ l' st2,
    _properties_names light_instance
      (foldl (mutate 2%positive) light_names [Add "x"; Clear])
    = Some (l', st2) ∧
    st2 !! l' = Some {[ "intensity"; "color" ]}.
Proof.
  apply (C9_names_is_a_copy light_instance (Some [Discard "color"])
           light_sets 2%positive light_names [Add "x"; Clear]
           {[ "intensity"; "color" ]}).
  - vm_compute. reflexivity.
  - vm_compute. reflexivity.
Defined.

End NamesFacts.

(** * Cascades through the class hierarchy *)

Module MetaCascade.
Import Meta MetaFacts Cascade.

Lemma same_shape_alter_namespace f c t :
  same_shape t (alter (with_namespace f) c t).
Proof.
  split; [by rewrite length_alter|].
  intros i. destruct (decide (i = c)) as [->|].
  - rewrite list_lookup_alter_eq. by destruct (t !! c).
  - by rewrite list_lookup_alter_ne.
Qed.

Lemma registry_alter_namespace f c t d :
  registry (alter (with_namespace f) c t) d = registry t d.
Proof.
  unfold registry. destruct (decide (d = c)) as [->|].
  - rewrite list_lookup_alter_eq. by destruct (t !! c).
  - by rewrite list_lookup_alter_ne.
Qed.

Lemma del_property_fold (k : nat) (name : string) :
  (∀ c t, well_founded_table t → c < length t → length t - c ≤ k →
     ∃ t', _del_property k c name t = Some t' ∧ removed name (eq c) t t') →
  ∀ L t, well_founded_table t →
    (∀ s, s ∈ L → s < length t ∧ length t - s ≤ k) →
    ∃ t', foldl (λ acc s, acc ≫= _del_property k s name) (Some t) L = Some t'
          ∧ removed name (λ r, r ∈ L) t t'.
Proof.
  intros IH L. induction L as [|s L IHL]; intros t Hwf HL.
  - exists t. split; [done|]. split; [apply same_shape_refl|].
    intros d x. split; [|tauto]. intros Hx. split; [done|].
    intros [_ (r & Hr & _)]. by apply elem_of_nil in Hr.
  - destruct (HL s) as [Hs1 Hs2]; [left|].
    destruct (IH s t Hwf Hs1 Hs2) as (t2 & E2 & Hsh2 & Hreg2).
    destruct (IHL t2) as (t' & E' & Hsh' & Hreg').
    { by eapply well_founded_shape. }
    { intros r Hr. destruct Hsh2 as [-> _]. apply HL. by right. }
    exists t'. split.
    { simpl. rewrite E2. exact E'. }
    split; [by eapply same_shape_trans|].
    intros d x. rewrite Hreg', Hreg2. split.
    + intros [[Hx Hn1] Hn2]. split; [done|].
      intros [-> (r & Hr & Hrtc)].
      apply elem_of_cons in Hr as [->|Hr].
      * apply Hn1. eauto.
      * apply Hn2. split; [done|]. exists r. split; [done|].
        by apply (rtc_direct_sub_shape t t2).
    + intros [Hx Hn]. split; [split; [done|]|].
      * intros [-> (r & <- & Hrtc)]. apply Hn. split; [done|].
        exists s. split; [left|done].
      * intros [-> (r & Hr & Hrtc)]. apply Hn. split; [done|].
        exists r. split; [by right|].
        by apply (rtc_direct_sub_shape t t2).
Qed.

Lemma del_property_spec (fuel : nat) (name : string) (c : nat) (t : list Meta.cls) :
  well_founded_table t → c < length t → length t - c ≤ fuel →
  ∃ t', _del_property fuel c name t = Some t' ∧ removed name (eq c) t t'.
Proof.
  revert c t. induction fuel as [|k IH]; intros c t Hwf Hc Hfuel; [lia|].
  simpl. set (t1 := alter _ c t).
  assert (same_shape t t1) as Hsh1 by apply same_shape_alter_properties.
  destruct (del_property_fold k name IH (__subclasses__ t1 c) t1)
    as (t' & E & Hsh & Hreg).
  { by eapply well_founded_shape. }
  { intros s Hs. apply elem_of_subclasses in Hs.
    pose proof (direct_sub_lt_length _ _ _ Hs) as Hlt.
    apply (direct_sub_shape t t1) in Hs; [|done]. apply Hwf in Hs.
    destruct Hsh1 as [Hlen _]. rewrite Hlen in *. lia. }
  exists t'. split; [done|]. split; [by eapply same_shape_trans|].
  intros d x. rewrite Hreg. unfold t1 at 1.
  rewrite registry_alter_properties. split.
  - intros [Hx Hn]. split.
    + case_decide as Hd; [|done]. apply elem_of_difference in Hx. tauto.
    + intros [-> (r & <- & Hrtc)].
      apply rtc_inv_r in Hrtc as [->|(s & Hrtc & Hs)].
      * rewrite decide_True in Hx by done.
        apply elem_of_difference in Hx as [_ Hx]. apply Hx.
        by apply elem_of_singleton.
      * apply Hn. split; [done|]. exists s. split.
        -- apply elem_of_subclasses. by apply (direct_sub_shape t t1).
        -- by apply (rtc_direct_sub_shape t t1).
  - intros [Hx Hn]. split.
    + case_decide as Hd; [|done]. destruct Hd as [-> _].
      apply elem_of_difference. split; [done|].
      intros ->%elem_of_singleton. apply Hn. eauto using rtc_refl.
    + intros [-> (r & Hr & Hrtc)]. apply Hn. split; [done|].
      exists c. split; [done|].
      apply elem_of_subclasses in Hr.
      apply (rtc_direct_sub_shape t t1) in Hrtc; [|done].
      apply (direct_sub_shape t t1) in Hr; [|done].
      eapply rtc_r; eauto.
Qed.

Lemma foldl_bind_None {A B} (f : B → A → option A) (L : list B) :
  foldl (λ acc s, acc ≫= f s) None L = None.
Proof. by induction L. Qed.

Lemma foldl_bind_Some {A B} (f : B → A → option A) (R : A → A → Prop)
    (L : list B) (a a' : A) :
  (∀ x, R x x) → (∀ x y z, R x y → R y z → R x z) →
  (∀ s x y, f s x = Some y → R x y) →
  foldl (λ acc s, acc ≫= f s) (Some a) L = Some a' → R a a'.
Proof.
  intros Hrefl Htrans Hstep. revert a. induction L as [|s L IH]; intros a; simpl.
  - by intros [= ->].
  - destruct (f s a) as [b|] eqn:E.
    + intros H. eapply Htrans; [by eapply Hstep|by apply IH].
    + by rewrite foldl_bind_None.
Qed.

Lemma same_namespaces_refl t : same_namespaces t t.
Proof. done. Qed.

Lemma same_namespaces_trans t1 t2 t3 :
  same_namespaces t1 t2 → same_namespaces t2 t3 → same_namespaces t1 t3.
Proof. intros H1 H2 i. by rewrite H2, H1. Qed.

Lemma same_namespaces_alter_properties f c t :
  same_namespaces t (alter (with_properties f) c t).
Proof.
  intros i. destruct (decide (i = c)) as [->|].
  - rewrite list_lookup_alter_eq. by destruct (t !! c).
  - by rewrite list_lookup_alter_ne.
Qed.

Lemma add_property_namespaces (fuel : nat) c name t t' :
  _add_property fuel c name t = Some t' → same_namespaces t t'.
Proof.
  revert c t t'. induction fuel as [|k IH]; intros c t t'; [done|]. simpl.
  intros H. eapply same_namespaces_trans;
    [apply (same_namespaces_alter_properties (λ r, r ∪ {[name]}) c)|].
  revert H. apply foldl_bind_Some;
    eauto using same_namespaces_refl, same_namespaces_trans.
Qed.

Lemma del_property_namespaces (fuel : nat) c name t t' :
  _del_property fuel c name t = Some t' → same_namespaces t t'.
Proof.
  revert c t t'. induction fuel as [|k IH]; intros c t t'; [done|]. simpl.
  intros H. eapply same_namespaces_trans;
    [apply (same_namespaces_alter_properties (λ r, r ∖ {[name]}) c)|].
  revert H. apply foldl_bind_Some;
    eauto using same_namespaces_refl, same_namespaces_trans.
Qed.

Lemma family_hierarchy : hierarchy = Some family.
Proof. vm_compute. reflexivity. Qed.

Lemma family_invariant : well_founded_table family ∧ superset_invariant family.
Proof. apply hierarchy_invariant, family_hierarchy. Qed.

Lemma elem_of_declared (ns : gmap string cattr) x :
  x ∈ declared ns ↔ ∃ d, ns !! x = Some (CProperty d).
Proof.
  unfold declared. rewrite elem_of_dom. split.
  - intros [v Hv]. apply map_lookup_filter_Some in Hv as [Hv Hp].
    destruct v as [d|v]; [eauto|done].
  - intros [d Hd]. exists (CProperty d). by apply map_lookup_filter_Some.
Qed.

(** X1 (class definition).  [HasPropertiesMeta.__new__] gives the new class
    the next position; its registry holds exactly the names that the class
    body binds to a [Property] and the names registered in its proper
    bases, and the classes that existed are left as they were. *)
Theorem new_registry bs ns t c t' :
  __new__ bs ns t = Some (c, t') →
  c = length t ∧
  (∀ x, x ∈ registry t' c ↔
        (∃ d, ns !! x = Some (CProperty d)) ∨
        (∃ b, Proper b ∈ bs ∧ x ∈ registry t b)) ∧
  (∀ d, d < length t → t' !! d = t !! d).
Proof.
  unfold __new__. intros Hnew.
  destruct (mapM (base_registry t) bs) as [inh|] eqn:Hm; simplify_eq/=.
  apply mapM_Some in Hm. split; [done|]. split.
  - intros x. unfold registry. rewrite list_lookup_middle by done. simpl.
    rewrite foldl_union_elem, elem_of_declared.
    apply or_iff_compat_l. split.
    + intros (r & Hr & Hx). apply list_elem_of_lookup in Hr as [i Hi].
      destruct (Forall2_lookup_r _ _ _ _ _ Hm Hi) as (b & Hb & Hbase).
      destruct b as [b|]; [|simpl in Hbase; simplify_eq; set_solver].
      apply base_registry_Some in Hbase as [_ ->].
      exists b. split; [|done]. apply list_elem_of_lookup. eauto.
    + intros (b & Hb & Hx). apply list_elem_of_lookup in Hb as [i Hi].
      destruct (Forall2_lookup_l _ _ _ _ _ Hm Hi) as (r & Hr & Hbase).
      apply base_registry_Some in Hbase as [_ ->].
      exists (registry t b). split; [|done]. apply list_elem_of_lookup. eauto.
  - intros d Hd. by rewrite lookup_app_l.
Qed.

Lemma new_registry_witness :
  ∃ t', __new__ [Proper 1] {[ "q" := CProperty VNone ]} family = Some (3, t') ∧
        3 = length family ∧
        (∀ x, x ∈ registry t' 3 ↔
              (∃ d, ({[ "q" := CProperty VNone ]} : gmap string cattr) !! x
                    = Some (CProperty d)) ∨
              (∃ b, Proper b ∈ [Proper 1] ∧ x ∈ registry family b)) ∧
        (∀ d, d < length family → t' !! d = family !! d).
Proof.
  eexists. split; [vm_compute; reflexivity|].
  apply (new_registry [Proper 1] {[ "q" := CProperty VNone ]} family).
  vm_compute. reflexivity.
Defined.

(** X2 (class definition keeps the invariant).  Defining a class in a
    hierarchy where every registry holds the registries of its ancestors
    gives a hierarchy with the same property: the new class starts with all
    the names of its proper bases. *)
Theorem new_keeps_invariant bs ns t c t' :
  well_founded_table t → superset_invariant t →
  __new__ bs ns t = Some (c, t') →
  well_founded_table t' ∧ superset_invariant t'.
Proof.
  intros Hwf Hinv Hnew.
  by destruct (new_superset bs ns t c t' Hwf Hinv Hnew) as (_ & ? & ?).
Qed.

Lemma new_keeps_invariant_witness :
  ∃ t', __new__ [Proper 1; Foreign] {[ "q" := CProperty VNone ]} family
        = Some (3, t') ∧
        well_founded_table t' ∧ superset_invariant t'.
Proof.
  eexists. split; [vm_compute; reflexivity|].
  apply (new_keeps_invariant [Proper 1; Foreign] {[ "q" := CProperty VNone ]}
           family 3).
  - apply family_invariant.
  - apply family_invariant.
  - vm_compute. reflexivity.
Defined.

(** What the assignment of a [Property] to a class attribute does to the
    table. *)
Lemma setattr_property_spec c name d t :
  well_founded_table t → c < length t →
  ∃ t', __setattr__ (length t) c name (CProperty d) t = Done t' ∧
        same_shape t t' ∧
        same_namespaces (alter (with_namespace (insert name (CProperty d))) c t) t' ∧
        (∀ s x, x ∈ registry t' s ↔
                x ∈ registry t s ∨ (x = name ∧ rtc (direct_sub t) s c)) ∧
        (superset_invariant t → superset_invariant t').
Proof.
  intros Hwf Hc. unfold __setattr__. simpl.
  set (t1 := alter (with_namespace (insert name (CProperty d))) c t).
  assert (same_shape t t1) as Hsh by apply same_shape_alter_namespace.
  destruct (add_property_spec (length t) name c t1) as (t' & E & Hadd).
  - by eapply well_founded_shape.
  - destruct Hsh as [-> _]. done.
  - destruct Hsh as [-> _]. lia.
  - rewrite E. exists t'. split; [done|].
    split; [eapply same_shape_trans; [done|apply Hadd]|].
    split; [by eapply add_property_namespaces|]. split.
    + intros s x. destruct Hadd as [_ Hreg]. rewrite Hreg.
      unfold t1 at 1. rewrite registry_alter_namespace.
      apply or_iff_compat_l. split.
      * intros [-> (r & <- & Hrtc)]. split; [done|].
        by apply (rtc_direct_sub_shape t t1).
      * intros [-> Hrtc]. split; [done|]. exists c. split; [done|].
        by apply (rtc_direct_sub_shape t t1).
    + intros Hinv. apply (add_property_superset name c t1 t' Hadd).
      apply superset_direct. intros s b Hsb. unfold t1.
      rewrite !registry_alter_namespace. apply Hinv, tc_once.
      by apply (direct_sub_shape t t1).
Qed.

(** What the deletion of a class attribute does to the table. *)
Lemma delattr_spec c name k v t :
  well_founded_table t → t !! c = Some k → namespace k !! name = Some v →
  ∃ t', __delattr__ (length t) c name t = Done t' ∧
        same_shape t t' ∧
        same_namespaces (alter (with_namespace (delete name)) c t) t' ∧
        (∀ s x, x ∈ registry t' s ↔
                x ∈ registry t s ∧
                ¬ (x = name ∧ name ∈ registry t c ∧ rtc (direct_sub t) s c)).
Proof.
  intros Hwf Hk Hv. unfold __delattr__. rewrite Hk, Hv.
  set (t1 := alter (with_namespace (delete name)) c t).
  assert (same_shape t t1) as Hsh by apply same_shape_alter_namespace.
  assert (c < length t) as Hc by (by eapply lookup_lt_Some).
  assert (registry t1 c = registry t c) as Hrc
    by apply registry_alter_namespace.
  case_decide as Hreg; rewrite Hrc in Hreg.
  - destruct (del_property_spec (length t) name c t1) as (t' & E & Hrem).
    + by eapply well_founded_shape.
    + destruct Hsh as [-> _]. done.
    + destruct Hsh as [-> _]. lia.
    + rewrite E. exists t'. split; [done|].
      split; [eapply same_shape_trans; [done|apply Hrem]|].
      split; [by eapply del_property_namespaces|].
      intros s x. destruct Hrem as [_ Hr]. rewrite Hr.
      unfold t1 at 1. rewrite registry_alter_namespace.
      apply and_iff_compat_l. apply not_iff_compat. split.
      * intros [-> (r & <- & Hrtc)]. split; [done|]. split; [done|].
        by apply (rtc_direct_sub_shape t t1).
      * intros [-> [_ Hrtc]]. split; [done|]. exists c. split; [done|].
        by apply (rtc_direct_sub_shape t t1).
  - exists t1. split; [done|]. split; [done|]. split; [done|].
    intros s x. unfold t1. rewrite registry_alter_namespace. tauto.
Qed.

(** X3 (post-hoc addition).  Binding a [Property] to a name of an existing
    class registers the name in that class and in every direct or
    transitive subclass, changes no other registry, and keeps the superset
    invariant. *)
Theorem setattr_registers c name d t :
  well_founded_table t → c < length t →
  ∃ t', __setattr__ (length t) c name (CProperty d) t = Done t' ∧
        (∀ s x, x ∈ registry t' s ↔
                x ∈ registry t s ∨ (x = name ∧ rtc (direct_sub t) s c)) ∧
        (superset_invariant t → superset_invariant t').
Proof.
  intros Hwf Hc.
  destruct (setattr_property_spec c name d t Hwf Hc) as (t' & E & _ & _ & H).
  eauto.
Qed.

Lemma setattr_registers_witness :
  ∃ t', __setattr__ (length family) 1 "q" (CProperty VNone) family = Done t' ∧
        (∀ s x, x ∈ registry t' s ↔
                x ∈ registry family s ∨
                (x = "q" ∧ rtc (direct_sub family) s 1)) ∧
        (superset_invariant family → superset_invariant t').
Proof.
  apply (setattr_registers 1 "q" VNone family).
  - apply family_invariant.
  - simpl. lia.
Defined.

(** X4 (removal).  Deleting a name that the class itself binds succeeds.
    When the registry of the class held the name, the name leaves the
    registry of the class and of every direct or transitive subclass, also
    of a subclass that binds the name to a [Property] of its own; otherwise
    no registry changes.  The binding is removed from the class body. *)
Theorem delattr_unregisters c name k v t :
  well_founded_table t → t !! c = Some k → namespace k !! name = Some v →
  ∃ t', __delattr__ (length t) c name t = Done t' ∧
        (∀ s x, x ∈ registry t' s ↔
                x ∈ registry t s ∧
                ¬ (x = name ∧ name ∈ registry t c ∧ rtc (direct_sub t) s c)) ∧
        namespace <$> t' !! c = Some (delete name (namespace k)).
Proof.
  intros Hwf Hk Hv.
  destruct (delattr_spec c name k v t Hwf Hk Hv) as (t' & E & _ & Hns & Hreg).
  exists t'. split; [done|]. split; [done|].
  by rewrite (Hns c), list_lookup_alter_eq, Hk.
Qed.

Lemma delattr_unregisters_witness :
  ∃ t', __delattr__ (length family) 1 "p" family = Done t' ∧
        (∀ s x, x ∈ registry t' s ↔
                x ∈ registry family s ∧
                ¬ (x = "p" ∧ "p" ∈ registry family 1
                   ∧ rtc (direct_sub family) s 1)) ∧
        namespace <$> t' !! 1
        = Some (delete "p" ({[ "p" := CProperty (VInt 0) ]} : gmap string cattr)).
Proof.
  refine (delattr_unregisters 1 "p"
            (Cls [Proper 0] {[ "p" := CProperty (VInt 0) ]} {[ "p" ]})
            (CProperty (VInt 0)) family _ _ _).
  - apply family_invariant.
  - reflexivity.
  - vm_compute. reflexivity.
Defined.

Lemma cls_lookup_ext (t t' : table) i :
  bases <$> t' !! i = bases <$> t !! i →
  namespace <$> t' !! i = namespace <$> t !! i →
  _properties_ <$> t' !! i = _properties_ <$> t !! i →
  t' !! i = t !! i.
Proof.
  destruct (t' !! i) as [[b' n' p']|], (t !! i) as [[b n p]|]; simpl;
    intros; by simplify_eq.
Qed.

(** X5 (addition then removal).  When a class does not bind [name] and
    neither the class nor any of its subclasses registers it, binding a
    [Property] to [name] and deleting it again gives back the table that
    was there before: the registries and the class body are restored. *)
Theorem setattr_delattr_round_trip c name d k t :
  well_founded_table t → t !! c = Some k → namespace k !! name = None →
  (∀ s, rtc (direct_sub t) s c → name ∉ registry t s) →
  ∃ t1, __setattr__ (length t) c name (CProperty d) t = Done t1 ∧
        __delattr__ (length t1) c name t1 = Done t.
Proof.
  intros Hwf Hk Hv Hfree.
  assert (c < length t) as Hc by (by eapply lookup_lt_Some).
  destruct (setattr_property_spec c name d t Hwf Hc)
    as (t1 & E1 & Hsh1 & Hns1 & Hreg1 & _).
  exists t1. split; [done|].
  assert (namespace <$> t1 !! c = Some (<[name := CProperty d]> (namespace k)))
    as Hk1 by (by rewrite (Hns1 c), list_lookup_alter_eq, Hk).
  destruct (t1 !! c) as [k1|] eqn:Hc1; [|done].
  injection Hk1 as Hk1.
  destruct (delattr_spec c name k1 (CProperty d) t1)
    as (t2 & E2 & Hsh2 & Hns2 & Hreg2).
  { by eapply well_founded_shape. }
  { done. }
  { by rewrite Hk1, lookup_insert_eq. }
  rewrite E2. f_equal. apply list_eq. intros i. apply cls_lookup_ext.
  - destruct Hsh1 as [_ B1], Hsh2 as [_ B2]. by rewrite B2, B1.
  - rewrite (Hns2 i). destruct (decide (i = c)) as [->|Hi].
    + rewrite list_lookup_alter_eq, Hc1, Hk. simpl. f_equal.
      rewrite Hk1. by apply delete_insert_id.
    + rewrite list_lookup_alter_ne by done. rewrite (Hns1 i).
      by rewrite list_lookup_alter_ne.
  - assert (registry t2 i = registry t i) as Hr.
    { apply set_eq. intros x. rewrite Hreg2, !Hreg1. split.
      - intros [[?|[-> Hrtc]] Hn]; [done|]. exfalso. apply Hn.
        split; [done|]. split; [right; eauto using rtc_refl|].
        by apply (rtc_direct_sub_shape t t1).
      - intros Hx. split; [by left|]. intros (-> & _ & Hrtc).
        apply (rtc_direct_sub_shape t t1) in Hrtc; [|done].
        by apply (Hfree i). }
    unfold registry in Hr. destruct Hsh1 as [L1 _], Hsh2 as [L2 _].
    destruct (t2 !! i) eqn:H2, (t !! i) eqn:H0; simpl in *; try done.
    + by rewrite Hr.
    + apply lookup_lt_Some in H2. apply lookup_ge_None in H0. lia.
    + apply lookup_lt_Some in H0. apply lookup_ge_None in H2. lia.
Qed.

Lemma setattr_delattr_round_trip_witness :
  ∃ t1, __setattr__ (length family) 1 "q" (CProperty VNone) family = Done t1 ∧
        __delattr__ (length t1) 1 "q" t1 = Done family.
Proof.
  refine (setattr_delattr_round_trip 1 "q" VNone
            (Cls [Proper 0] {[ "p" := CProperty (VInt 0) ]} {[ "p" ]})
            family _ _ _ _).
  - apply family_invariant.
  - reflexivity.
  - vm_compute. reflexivity.
  - intros s Hs. assert (s < 3 ∨ 3 ≤ s) as [Hlt|Hge] by lia.
    + destruct s as [|[|[|s]]]; try lia;
        apply (bool_decide_unpack _); vm_compute; exact I.
    + unfold registry. rewrite lookup_ge_None_2 by (simpl; lia). set_solver.
Defined.

(** X6 (removal that keeps the invariant).  Deleting a name from a class
    keeps the superset invariant whenever every base of a class at or below
    it that registers the name is itself at or below it: then no class that
    keeps the name has a subclass that loses it. *)
Theorem delattr_keeps_invariant c name k v t :
  well_founded_table t → t !! c = Some k → namespace k !! name = Some v →
  superset_invariant t →
  (∀ s b, direct_sub t s b → rtc (direct_sub t) s c →
          name ∈ registry t b → rtc (direct_sub t) b c) →
  ∃ t', __delattr__ (length t) c name t = Done t' ∧ superset_invariant t'.
Proof.
  intros Hwf Hk Hv Hinv Hin.
  destruct (delattr_spec c name k v t Hwf Hk Hv) as (t' & E & Hsh & _ & Hreg).
  exists t'. split; [done|]. apply superset_direct. intros s b Hsb x.
  apply (direct_sub_shape t t') in Hsb; [|done].
  rewrite !Hreg. intros [Hx Hn]. split.
  - revert Hx. apply Hinv. by apply tc_once.
  - intros (-> & Hc & Hrtc). apply Hn. split; [done|]. split; [done|].
    by apply (Hin s b).
Qed.

Lemma delattr_keeps_invariant_witness :
  ∃ t', __delattr__ (length family) 1 "p" family = Done t' ∧
        superset_invariant t'.
Proof.
  refine (delattr_keeps_invariant 1 "p"
            (Cls [Proper 0] {[ "p" := CProperty (VInt 0) ]} {[ "p" ]})
            (CProperty (VInt 0)) family _ _ _ _ _).
  - apply family_invariant.
  - reflexivity.
  - vm_compute. reflexivity.
  - apply family_invariant.
  - intros s b Hsb _ Hp.
    pose proof (direct_sub_lt_length _ _ _ Hsb) as Hlt.
    unfold direct_sub in Hsb.
    destruct s as [|[|[|s]]]; simpl in *; try lia.
    + by apply elem_of_nil in Hsb.
    + apply list_elem_of_singleton in Hsb as [= ->].
      unfold registry in Hp. simpl in Hp. set_solver.
    + apply list_elem_of_singleton in Hsb as [= ->]. apply rtc_refl.
Defined.

End MetaCascade.

(** * Composition and failure of imports *)

Section Sequencing.

Implicit Types (st : state) (a n : addr) (o : obj) (name : string)
  (v : value) (m : dict).

Lemma update_items_app nested a m1 m2 st :
  update_items nested a (m1 ++ m2) st
  = and_then (update_items nested a m1 st)
             (λ _ st1, update_items nested a m2 st1).
Proof.
  revert st. induction m1 as [|[name v] m1 IH]; intros st; simpl; [done|].
  destruct (heap st !! a) as [o|]; [|done].
  match goal with |- and_then ?s _ = _ => destruct s as [[] st1|e st1] end;
    simpl; [apply IH|done].
Qed.

Lemma update_properties_seq (fuel : nat) a m1 m2 st :
  update_properties fuel a (VDict (m1 ++ m2)) st
  = and_then (update_properties fuel a (VDict m1) st)
             (λ _ st1, update_properties fuel a (VDict m2) st1).
Proof.
  destruct fuel as [|k]; simpl; [done|]. apply update_items_app.
Qed.

(** X7 (imports compose).  Importing the concatenation of two mappings is
    importing the first and then, if that returned, the second from the
    state reached; when the first import raises, its exception and the
    state it reached are those of the whole call. *)
Theorem update_properties_app (fuel : nat) a m1 m2 st :
  update_properties fuel a (VDict (m1 ++ m2)) st
  = and_then (update_properties fuel a (VDict m1) st)
             (λ _ st1, update_properties fuel a (VDict m2) st1).
Proof. apply update_properties_seq. Qed.

(** X8 (an import is not atomic).  When the items before [name] have been
    imported and [name] holds a nested object while the item gives a value
    that is no mapping, [update_properties] raises [AttributeError] in the
    state that the earlier items produced: their assignments and
    notifications are kept, and the items after [name] are not looked at. *)
Theorem update_properties_not_atomic (fuel : nat) a m1 name v m2 st st1 o1 n :
  update_properties (S (S fuel)) a (VDict m1) st = Ok () st1 →
  heap st1 !! a = Some o1 →
  name ∈ properties_names o1 None →
  getattr st1 o1 name = Val (VObj n) →
  (∀ d, v ≠ VDict d) →
  update_properties (S (S fuel)) a (VDict (m1 ++ (name, v) :: m2)) st
  = Raise AttributeError st1.
Proof.
  intros H1 Ho Hn Hg Hv. rewrite update_properties_seq, H1. simpl.
  rewrite Ho, decide_True, Hg by done.
  destruct v as [| | |d| |]; try done. by destruct (Hv d).
Qed.

Lemma update_properties_not_atomic_witness :
  update_properties 2 fixture
    (VDict ([("label", VStr "x")] ++ ("lamp", VInt 1) :: [("label", VStr "y")]))
    rig
  = Raise AttributeError
      (final (update_properties 2 fixture (VDict [("label", VStr "x")]) rig)).
Proof.
  eapply (update_properties_not_atomic 0 fixture [("label", VStr "x")] "lamp"
            (VInt 1) [("label", VStr "y")] rig _ _ lamp).
  - vm_compute. reflexivity.
  - vm_compute. reflexivity.
  - apply (bool_decide_unpack _). vm_compute. exact I.
  - vm_compute. reflexivity.
  - intros d. discriminate.
Defined.

End Sequencing.

(** * The shape of an export *)

Section ExportShape.

Implicit Types (st : state) (a n : addr) (o : obj) (name : string)
  (v x : value).

Lemma export_entry_shape nested st o (defaults : bool) name zs :
  export_entry nested st o defaults name = Val zs →
  (defaults = false ∧ zs = []) ∨ ∃ x, zs = [(name, x)].
Proof.
  unfold export_entry. destruct (getattr st o name) as [cur|]; [|done]. simpl.
  destruct (is_object cur) eqn:Hobj.
  - destruct cur as [| | | |n|]; try done.
    destruct (nested n) as [sub|]; [|done]. simpl. intros [= <-].
    destruct defaults; simpl; [eauto|].
    case_bool_decide; simpl; eauto.
  - intros H.
    assert ((if defaults then Val [(name, cur)]
             else res_bind (_property o name) (λ p,
                    res_bind (default_of st p) (λ d,
                      Val (if py_ne cur d then [(name, cur)] else []))))
            = Val zs) as H' by (by destruct cur).
    clear H. destruct defaults; [injection H' as <-; eauto|].
    destruct (_property o name) as [p|]; [|done]. simpl in H'.
    destruct (default_of st p) as [d|]; [|done]. simpl in H'.
    injection H' as <-. destruct (py_ne cur d); eauto.
Qed.

Lemma collect_keys {B} (f : string → res (list (string * B)))
    (defaults : bool) (l : list string) (E : list (string * B)) :
  (∀ i zs, f i = Val zs →
     (defaults = false ∧ zs = []) ∨ ∃ y : B, zs = [(i, y)]) →
  collect f l = Val E →
  sublist E.*1 l ∧ (defaults = true → E.*1 = l).
Proof.
  intros Hf. revert E. induction l as [|i l IH]; intros E; simpl.
  - intros [= <-]. split; [constructor|done].
  - destruct (f i) as [zs|] eqn:Hi; [|done]. simpl.
    destruct (collect f l) as [ws|] eqn:Hl; [|done]. simpl.
    intros [= <-]. destruct (IH ws eq_refl) as [Hsub Heq].
    rewrite fmap_app.
    destruct (Hf i zs Hi) as [[Hd ->]|[y ->]]; simpl.
    + split; [by apply sublist_cons|]. intros ->. done.
    + split; [by apply sublist_skip|]. intros Hd. by rewrite Heq.
Qed.

Lemma export_keys_shape (fuel : nat) st a o (defaults : bool) filter (E : dict) :
  heap st !! a = Some o →
  properties fuel st a defaults filter = Val E →
  sublist E.*1 (elements (properties_names o filter)) ∧
  NoDup E.*1 ∧
  (defaults = true → E.*1 = elements (properties_names o filter)).
Proof.
  intros Ha HE. destruct fuel as [|k]; simpl in HE; [done|].
  unfold get_obj in HE. rewrite Ha in HE. simpl in HE.
  destruct (collect_keys _ defaults _ _
              (export_entry_shape _ st o defaults) HE) as [Hsub Heq].
  split; [done|]. split; [|done].
  pose proof (NoDup_elements (properties_names o filter)) as Hnd.
  by eapply sublist_NoDup.
Qed.

(** X9 (keys of an export).  The keys of the mapping that [properties]
    returns are recognised names (after the filter), each at most once and
    in the order in which the names are visited; the full export
    ([defaults=True]) has every one of them as a key. *)
Theorem export_keys (fuel : nat) st a o (defaults : bool) filter (E : dict) :
  heap st !! a = Some o →
  properties fuel st a defaults filter = Val E →
  sublist E.*1 (elements (properties_names o filter)) ∧
  NoDup E.*1 ∧
  (defaults = true → E.*1 = elements (properties_names o filter)).
Proof. apply export_keys_shape. Qed.

Lemma export_keys_witness :
  sublist ([("lamp", VDict [("color", VStr "white"); ("intensity", VInt 0)]);
            ("label", VStr "")].*1 : list string)
          (elements (properties_names fixture_obj None)) ∧
  NoDup ([("lamp", VDict [("color", VStr "white"); ("intensity", VInt 0)]);
          ("label", VStr "")].*1 : list string) ∧
  (true = true →
   [("lamp", VDict [("color", VStr "white"); ("intensity", VInt 0)]);
    ("label", VStr "")].*1 = elements (properties_names fixture_obj None)).
Proof.
  apply (export_keys 2 rig fixture fixture_obj true None).
  - vm_compute. reflexivity.
  - vm_compute. reflexivity.
Defined.

Lemma full_export_iff (fuel : nat) st a o filter (E : dict) :
  heap st !! a = Some o →
  properties (S fuel) st a true filter = Val E →
  ∀ name x, (name, x) ∈ E ↔
    name ∈ properties_names o filter ∧
    ((getattr st o name = Val x ∧ is_object x = false) ∨
     (∃ n sub, getattr st o name = Val (VObj n) ∧
               properties fuel st n true filter = Val sub ∧ x = VDict sub)).
Proof.
  intros Ha HE name x. simpl in HE. unfold get_obj in HE. rewrite Ha in HE.
  simpl in HE. rewrite (collect_Val _ _ _ HE). clear HE.
  setoid_rewrite elem_of_elements. unfold export_entry. split.
  - intros (nm & zs & Hnm & Hf & Hin).
    destruct (getattr st o nm) as [cur|] eqn:Hcur; [|done]. simpl in Hf.
    destruct (is_object cur) eqn:Hobj.
    + destruct cur as [| | | |n|]; try done.
      destruct (properties fuel st n true filter) as [sub|] eqn:Hsub; [|done].
      simpl in Hf. injection Hf as <-.
      apply list_elem_of_singleton in Hin. injection Hin as -> ->.
      split; [done|]. right. by exists n, sub.
    + assert (zs = [(nm, cur)]) as -> by (destruct cur; by simplify_eq/=).
      apply list_elem_of_singleton in Hin. injection Hin as -> ->.
      split; [done|]. by left.
  - intros [Hn [[Hcur Hobj]|(n & sub & Hcur & Hsub & ->)]].
    + exists name, [(name, x)]. split; [done|]. split; [|by left].
      rewrite Hcur. simpl. by destruct x.
    + exists name, [(name, VDict sub)]. split; [done|]. split; [|by left].
      rewrite Hcur. simpl. by rewrite Hsub.
Qed.

(** X10 (entries of a full export).  When the full export returns, it
    holds under a recognised name the current value of the property if that
    is no nested object, and the full export of the nested object
    otherwise; it holds nothing else.  So no value of the mapping is a
    [HasProperties] object. *)
Theorem full_export_rule (fuel : nat) st a o filter (E : dict) :
  heap st !! a = Some o →
  properties (S fuel) st a true filter = Val E →
  ∀ name x, (name, x) ∈ E ↔
    name ∈ properties_names o filter ∧
    ((getattr st o name = Val x ∧ is_object x = false) ∨
     (∃ n sub, getattr st o name = Val (VObj n) ∧
               properties fuel st n true filter = Val sub ∧ x = VDict sub)).
Proof. apply full_export_iff. Qed.

Lemma full_export_rule_witness :
  ("lamp", VDict [("color", VStr "white"); ("intensity", VInt 0)])
    ∈ [("lamp", VDict [("color", VStr "white"); ("intensity", VInt 0)]);
       ("label", VStr "")] ↔
  "lamp" ∈ properties_names fixture_obj None ∧
  ((getattr rig fixture_obj "lamp"
    = Val (VDict [("color", VStr "white"); ("intensity", VInt 0)]) ∧
    is_object (VDict [("color", VStr "white"); ("intensity", VInt 0)]) = false) ∨
   (∃ n sub, getattr rig fixture_obj "lamp" = Val (VObj n) ∧
             properties 1 rig n true None = Val sub ∧
             VDict [("color", VStr "white"); ("intensity", VInt 0)] = VDict sub)).
Proof.
  refine (full_export_rule 1 rig fixture fixture_obj None _ _ _ "lamp" _).
  - vm_compute. reflexivity.
  - vm_compute. reflexivity.
Defined.

(** X11 (entries of a sparse export).  When the sparse export
    ([defaults=False]) returns, it holds exactly: the current value of each
    recognised property that is no nested object and differs ([!=]) from
    the declared default, and the sparse export of each nested object when
    that export is not empty. *)
Theorem sparse_export_entries (fuel : nat) st a o (E : dict) :
  heap st !! a = Some o →
  properties (S fuel) st a false None = Val E →
  ∀ name x, (name, x) ∈ E ↔
    name ∈ properties_names o None ∧
    ((∃ p d, getattr st o name = Val x ∧ is_object x = false ∧
             _property o name = Val p ∧ default_of st p = Val d ∧
             py_ne x d = true) ∨
     (∃ n sub, getattr st o name = Val (VObj n) ∧
               properties fuel st n false None = Val sub ∧
               sub ≠ [] ∧ x = VDict sub)).
Proof. apply sparse_export_rule. Qed.

Lemma sparse_export_entries_witness :
  ("intensity", VInt 50) ∈ [("intensity", VInt 50)] ↔
  "intensity" ∈ properties_names dimmed_obj None ∧
  ((∃ p d, getattr dimmed dimmed_obj "intensity" = Val (VInt 50) ∧
           is_object (VInt 50) = false ∧
           _property dimmed_obj "intensity" = Val p ∧
           default_of dimmed p = Val d ∧ py_ne (VInt 50) d = true) ∨
   (∃ n sub, getattr dimmed dimmed_obj "intensity" = Val (VObj n) ∧
             properties 0 dimmed n false None = Val sub ∧
             sub ≠ [] ∧ VInt 50 = VDict sub)).
Proof.
  refine (sparse_export_entries 0 dimmed light dimmed_obj _ _ _
            "intensity" (VInt 50)).
  - vm_compute. reflexivity.
  - vm_compute. reflexivity.
Defined.

End ExportShape.

(** * Imports into properties that hold no nested object *)

Section FlatImport.

Implicit Types (st : state) (a b n : addr) (o : obj) (name : string)
  (v x : value) (items : dict).

Lemma dict_get_None name items :
  name ∉ items.*1 → dict_get name items = None.
Proof.
  induction items as [|[k v] items IH]; simpl; [done|].
  intros Hn. apply not_elem_of_cons in Hn as [Hne Hn].
  destruct (String.eqb name k) eqn:E; [|by apply IH].
  by apply String.eqb_eq in E.
Qed.

Lemma dict_get_Some name v items :
  NoDup items.*1 → (name, v) ∈ items ↔ dict_get name items = Some v.
Proof.
  induction items as [|[k w] items IH]; simpl.
  - intros _. split; [by intros ?%elem_of_nil|done].
  - intros Hnd'. pose proof (NoDup_cons_1_1 _ _ Hnd') as Hk.
    pose proof (NoDup_cons_1_2 _ _ Hnd') as Hnd. rewrite elem_of_cons.
    destruct (String.eqb name k) eqn:E.
    + apply String.eqb_eq in E as ->. split.
      * intros [[= ->]|Hin]; [done|]. exfalso. apply Hk.
        apply list_elem_of_fmap. by exists (k, v).
      * intros [= ->]. by left.
    + apply String.eqb_neq in E. rewrite <- (IH Hnd). split.
      * intros [[= -> ->]|?]; [done|done].
      * by right.
Qed.

Lemma getattr_plain_stored st o name v :
  k_instance_properties (o_class o) = false →
  o_attrs o !! name = Some v → getattr st o name = Val v.
Proof.
  intros Hk Hv. unfold getattr.
  rewrite (object_getattribute_stored _ _ _ Hv), Hk. by destruct v.
Qed.

(** The loop of [update_properties] on an instance of a plain class, when
    the recognised properties that the mapping names hold no nested
    object. *)
Lemma update_items_flat nested b items :
  ∀ st o,
    heap st !! b = Some o →
    k_instance_properties (o_class o) = false →
    NoDup items.*1 →
    (∀ name, name ∈ items.*1 → name ∈ properties_names o None →
       ∃ x, getattr st o name = Val x ∧ is_object x = false) →
    ∃ st' o',
      update_items nested b items st = Ok () st' ∧
      heap st' !! b = Some o' ∧
      o_class o' = o_class o ∧
      (∀ name, name ∈ properties_names o None →
         getattr st' o' name
         = from_option Val (getattr st o name) (dict_get name items)) ∧
      (∀ c, c ≠ b → heap st' !! c = heap st !! c) ∧
      wrappers st' = wrappers st.
Proof.
  induction items as [|[key v] items IH]; intros st o Hb Hk Hnd Hflat.
  - exists st, o. by repeat split.
  - simpl. rewrite Hb. simpl in Hnd.
    pose proof (NoDup_cons_1_1 _ _ Hnd) as Hkey.
    apply NoDup_cons_1_2 in Hnd.
    case_decide as Hin.
    + destruct (Hflat key) as (cur & Hcur & Hobj); [left|done|].
      rewrite Hcur.
      assert (∀ X : outcome unit,
                match cur with VObj n => nested n v st | _ => X end = X)
        as -> by (intros; by destruct cur).
      unfold setattr. rewrite Hb, Hk.
      destruct (base_setattr_ok b key v st o Hb Hin)
        as (st1 & E & Hh & Hw & _ & _).
      rewrite E. simpl.
      set (o1 := with_attrs (insert key v) o) in *.
      assert (heap st1 !! b = Some o1) as Hb1
        by (by rewrite Hh, lookup_insert_eq).
      destruct (IH st1 o1 Hb1 Hk Hnd) as (st' & o' & E' & Hb' & Hc' & Hg & Hf & Hw').
      { intros name Hname Hn.
        destruct (Hflat name) as (x & Hx & Hox); [by right|done|].
        exists x. split; [|done]. rewrite <- Hx.
        apply getattr_ext; [done|done|]. simpl.
        apply lookup_insert_ne. intros ->. done. }
      exists st', o'. split; [done|]. split; [done|]. split; [done|].
      split; [|split].
      * intros name Hn. rewrite (Hg name Hn).
        destruct (String.eqb name key) eqn:Ek.
        -- apply String.eqb_eq in Ek as ->.
           rewrite dict_get_None by done. simpl.
           apply getattr_plain_stored; [done|]. simpl.
           apply lookup_insert_eq.
        -- apply String.eqb_neq in Ek.
           destruct (dict_get name items); [done|]. simpl.
           apply getattr_ext; [done|done|]. simpl.
           by apply lookup_insert_ne.
      * intros c Hc. rewrite (Hf c Hc), Hh. by apply lookup_insert_ne.
      * congruence.
    + simpl.
      destruct (IH st o Hb Hk Hnd) as (st' & o' & E' & Hb' & Hc' & Hg & Hf & Hw').
      { intros name Hname Hn. apply Hflat; [by right|done]. }
      exists st', o'. repeat split; try done.
      intros name Hn. rewrite (Hg name Hn).
      destruct (String.eqb name key) eqn:Ek; [|done].
      apply String.eqb_eq in Ek as ->. done.
Qed.

(** X12 (import as a dictionary update).  On an instance of a class without
    instance properties, when no recognised property named by the mapping
    holds a nested object, [update_properties] returns; afterwards each
    recognised property holds the value that the mapping gives for its
    name, or what it held before when the mapping does not name it.  No
    other instance changes. *)
Theorem update_properties_flat (fuel : nat) st b o items :
  heap st !! b = Some o →
  k_instance_properties (o_class o) = false →
  NoDup items.*1 →
  (∀ name, name ∈ items.*1 → name ∈ properties_names o None →
     ∃ x, getattr st o name = Val x ∧ is_object x = false) →
  ∃ st' o',
    update_properties (S fuel) b (VDict items) st = Ok () st' ∧
    heap st' !! b = Some o' ∧
    properties_names o' None = properties_names o None ∧
    (∀ name, name ∈ properties_names o None →
       getattr st' o' name
       = from_option Val (getattr st o name) (dict_get name items)) ∧
    (∀ c, c ≠ b → heap st' !! c = heap st !! c).
Proof.
  intros Hb Hk Hnd Hflat. simpl.
  destruct (update_items_flat (update_properties fuel) b items st o
              Hb Hk Hnd Hflat) as (st' & o' & E & Hb' & Hc & Hg & Hf & _).
  exists st', o'. repeat split; try done.
  unfold properties_names, _properties_names. by rewrite Hc, Hk.
Qed.

Lemma update_properties_flat_witness :
  ∃ st' o',
    update_properties 1 light
      (VDict [("intensity", VInt 50); ("nonexistent", VInt 1)]) light_state
    = Ok () st' ∧
    heap st' !! light = Some o' ∧
    properties_names o' None = properties_names light_obj None ∧
    (∀ name, name ∈ properties_names light_obj None →
       getattr st' o' name
       = from_option Val (getattr light_state light_obj name)
           (dict_get name [("intensity", VInt 50); ("nonexistent", VInt 1)])) ∧
    (∀ c, c ≠ light → heap st' !! c = heap light_state !! c).
Proof.
  apply (update_properties_flat 0 light_state light light_obj).
  - vm_compute. reflexivity.
  - reflexivity.
  - apply (bool_decide_unpack _). vm_compute. exact I.
  - intros name _ Hn.
    assert (name = "intensity" ∨ name = "color") as [-> | ->].
    { revert Hn. unfold properties_names, _properties_names. simpl.
      set_solver. }
    + exists (VInt 0). split; [vm_compute; reflexivity|done].
    + exists (VStr "white"). split; [vm_compute; reflexivity|done].
Defined.

(** X13 (full round trip into properties that hold no nested object).
    Let [E] be the full export of [o], and let [o2] be an instance of a
    class without instance properties that recognises the same names and
    holds no nested object.  Then [o2.update_properties(E)] returns, and
    afterwards [o2] holds under each name the value that [o] holds when
    that is no nested object, and otherwise the exported mapping of the
    nested object of [o]: nested objects are not recreated. *)
Theorem round_trip_into_flat (fuel fuel' : nat) st a b oa ob (E : dict) :
  heap st !! a = Some oa → heap st !! b = Some ob →
  k_instance_properties (o_class ob) = false →
  properties_names ob None = properties_names oa None →
  (∀ name, name ∈ properties_names ob None →
     ∃ x, getattr st ob name = Val x ∧ is_object x = false) →
  properties (S fuel) st a true None = Val E →
  ∃ st' ob',
    update_properties (S fuel') b (VDict E) st = Ok () st' ∧
    heap st' !! b = Some ob' ∧
    ∀ name, name ∈ properties_names oa None →
      (∀ x, getattr st oa name = Val x → is_object x = false →
            getattr st' ob' name = Val x) ∧
      (∀ n, getattr st oa name = Val (VObj n) →
            ∃ sub, properties fuel st n true None = Val sub ∧
                   getattr st' ob' name = Val (VDict sub)).
Proof.
  intros Ha Hb Hk Hnames Hflat HE.
  destruct (export_keys_shape (S fuel) st a oa true None E Ha HE) as (_ & Hnd & _).
  destruct (update_items_flat (update_properties fuel') b E st ob Hb Hk Hnd)
    as (st' & ob' & EU & Hb' & _ & Hg & _ & _).
  { intros name _. apply Hflat. }
  exists st', ob'. split; [done|]. split; [done|].
  intros name Hn.
  assert (name ∈ properties_names ob None) as Hn' by (by rewrite Hnames).
  rewrite (Hg name Hn'). split.
  - intros x Hx Hobj.
    assert ((name, x) ∈ E) as Hin.
    { apply (full_export_iff fuel st a oa None E Ha HE). split; [done|].
      by left. }
    apply (dict_get_Some _ _ _ Hnd) in Hin. by rewrite Hin.
  - intros n Hx.
    assert (∃ x, (name, x) ∈ E) as [x Hin].
    { destruct (export_keys_shape (S fuel) st a oa true None E Ha HE)
        as (_ & _ & Heq).
      assert (name ∈ E.*1) as Hk'
        by (rewrite (Heq eq_refl); by apply elem_of_elements).
      apply list_elem_of_fmap in Hk' as ([nm x] & -> & Hin). by exists x. }
    pose proof Hin as Hin'.
    apply (full_export_iff fuel st a oa None E Ha HE) in Hin'
      as [_ [[Hx' Ho]|(n' & sub & Hx' & Hsub & ->)]].
    { rewrite Hx in Hx'. by injection Hx' as <-. }
    assert (n' = n) as -> by congruence.
    exists sub. split; [done|].
    apply (dict_get_Some _ _ _ Hnd) in Hin. by rewrite Hin.
Qed.

Lemma round_trip_into_flat_witness :
  ∃ st' ob',
    update_properties 1 fixture2
      (VDict [("lamp", VDict [("color", VStr "white"); ("intensity", VInt 0)]);
              ("label", VStr "")]) rig2
    = Ok () st' ∧
    heap st' !! fixture2 = Some ob' ∧
    ∀ name, name ∈ properties_names fixture_obj None →
      (∀ x, getattr rig2 fixture_obj name = Val x → is_object x = false →
            getattr st' ob' name = Val x) ∧
      (∀ n, getattr rig2 fixture_obj name = Val (VObj n) →
            ∃ sub, properties 1 rig2 n true None = Val sub ∧
                   getattr st' ob' name = Val (VDict sub)).
Proof.
  apply (round_trip_into_flat 1 0 rig2 fixture fixture2 fixture_obj
           fixture2_obj).
  - vm_compute. reflexivity.
  - vm_compute. reflexivity.
  - reflexivity.
  - reflexivity.
  - intros name Hn.
    assert (name = "lamp" ∨ name = "label") as [-> | ->].
    { revert Hn. unfold properties_names, _properties_names. simpl.
      set_solver. }
    + exists VNone. split; [vm_compute; reflexivity|done].
    + exists (VStr ""). split; [vm_compute; reflexivity|done].
  - vm_compute. reflexivity.
Defined.

End FlatImport.

(** * Defaults *)

Section Defaults.

Implicit Types (st : state) (a n : addr) (o : obj) (name : string)
  (v d : value).

Lemma collect_agree {A B} (f g : A → res (list B)) (l : list A) (ys : list B) :
  collect g l = Val ys →
  (∀ i zs, i ∈ l → g i = Val zs → f i = Val zs) →
  collect f l = Val ys.
Proof.
  revert ys. induction l as [|i l IH]; intros ys; simpl; [done|].
  destruct (g i) as [zs|] eqn:Hi; [|done]. simpl.
  destruct (collect g l) as [ws|] eqn:Hl; [|done]. simpl.
  intros [= <-] H. rewrite (H i zs) by (done || left). simpl.
  rewrite (IH ws eq_refl); [done|].
  intros j zs' Hj. apply H. by right.
Qed.

Lemma property_plain o name c :
  k_instance_properties (o_class o) = false →
  name ∈ k_properties (o_class o) →
  k_attrs (o_class o) !! name = Some c →
  _property o name = Val c.
Proof.
  intros Hk Hn Hc. unfold _property. rewrite Hk. simpl.
  by rewrite decide_True, Hc.
Qed.

(** X14 (instance defaults and class defaults).  For an instance of a class
    without instance properties and a filter that returns registered
    names, when [class_defaults] returns and none of the defaults is a
    [HasProperties] object, [properties_defaults] returns the same
    mapping. *)
Theorem properties_defaults_class (fuel : nat) st a o filter (D : dict) :
  heap st !! a = Some o →
  k_instance_properties (o_class o) = false →
  properties_names o filter ⊆ k_properties (o_class o) →
  class_defaults st (o_class o) filter = Val D →
  (∀ name d, (name, d) ∈ D → is_object d = false) →
  properties_defaults (S fuel) st a filter = Val D.
Proof.
  intros Ha Hk Hsub HD Hobj. simpl. unfold get_obj. rewrite Ha. simpl.
  unfold class_defaults in HD.
  assert (properties_names o filter
          = match filter with
            | Some f => f (k_properties (o_class o))
            | None => k_properties (o_class o)
            end) as Hnames.
  { unfold properties_names, _properties_names. by rewrite Hk. }
  rewrite <- Hnames in HD.
  apply (collect_agree _ _ _ _ HD). intros name zs Hin Hg.
  apply elem_of_elements in Hin.
  unfold class_getattr in Hg.
  destruct (k_attrs (o_class o) !! name) as [c|] eqn:Hc; [|done].
  simpl in Hg. destruct (default_of st c) as [d|] eqn:Hd; [|done].
  simpl in Hg. injection Hg as <-.
  unfold default_entry.
  rewrite (property_plain o name c Hk (Hsub _ Hin) Hc). simpl.
  rewrite Hd. simpl.
  assert (is_object d = false) as Hod.
  { apply (Hobj name). apply (collect_Val _ _ _ HD).
    exists name, [(name, d)]. split; [by apply elem_of_elements|].
    split; [|by left]. unfold class_getattr. by rewrite Hc; simpl; rewrite Hd. }
  by destruct d.
Qed.

Lemma properties_defaults_class_witness :
  properties_defaults 1 light_state light None
  = Val [("color", VStr "white"); ("intensity", VInt 0)].
Proof.
  apply (properties_defaults_class 0 light_state light light_obj None).
  - vm_compute. reflexivity.
  - reflexivity.
  - done.
  - vm_compute. reflexivity.
  - intros name d Hin.
    apply elem_of_cons in Hin as [[= -> ->]|Hin]; [done|].
    apply list_elem_of_singleton in Hin as [= -> ->]. done.
Defined.

Lemma fresh_instance_heap (k : klass) st :
  heap (new_instance k st).2 !! (new_instance k st).1
  = Some (Obj k ∅ ∅ ∅ (next_signal st)).
Proof. unfold new_instance. simpl. apply lookup_insert_eq. Qed.

Lemma fresh_getattr st (k : klass) s name d :
  k_instance_properties k = false →
  k_attrs k !! name = Some (CProperty d) →
  getattr st (Obj k ∅ ∅ ∅ s) name = Val d.
Proof.
  intros Hk Hc. unfold getattr, object_getattribute. simpl.
  rewrite Hc, lookup_empty, Hk. simpl. by destruct d.
Qed.

Lemma fresh_instance_collect st (k : klass) s (l : list string) :
  k_instance_properties k = false →
  (∀ name, name ∈ l →
     name ∈ k_properties k ∧
     ∃ d, k_attrs k !! name = Some (CProperty d) ∧ is_object d = false ∧
          py_eq d d = true) →
  ∃ D,
    collect (λ name, c ←r class_getattr k name; d ←r default_of st c;
                     Val [(name, d)]) l = Val D ∧
    (∀ nested,
       collect (export_entry nested st (Obj k ∅ ∅ ∅ s) true) l = Val D) ∧
    (∀ nested,
       collect (default_entry nested st (Obj k ∅ ∅ ∅ s)) l = Val D) ∧
    (∀ nested,
       collect (export_entry nested st (Obj k ∅ ∅ ∅ s) false) l = Val []).
Proof.
  intros Hk. induction l as [|name l IH]; intros Hl.
  - exists []. by repeat split.
  - destruct IH as (D & H1 & H2 & H3 & H4).
    { intros n Hn. apply Hl. by right. }
    destruct (Hl name) as (Hreg & d & Hc & Hobj & Heq); [left|].
    pose proof (fresh_getattr st k s name d Hk Hc) as Hget.
    assert (_property (Obj k ∅ ∅ ∅ s) name = Val (CProperty d)) as Hp
      by (by apply property_plain).
    exists ((name, d) :: D). simpl. split; [|split; [|split]].
    + unfold class_getattr at 1. rewrite Hc. simpl. by rewrite H1.
    + intros nested. unfold export_entry at 1. rewrite Hget. simpl.
      rewrite H2. by destruct d.
    + intros nested. unfold default_entry at 1. rewrite Hp. simpl.
      rewrite H3. by destruct d.
    + intros nested. unfold export_entry at 1. rewrite Hget. simpl.
      rewrite H4. unfold py_ne.
      destruct d; try done; rewrite Hp; cbn [res_bind default_of];
        by rewrite Heq.
Qed.

(** X15 (exports of a new instance).  Let the class have no instance
    properties and bind every registered name to a [Property] whose default
    is no [HasProperties] object and is equal ([==]) to itself.  For a
    newly constructed instance the full export, [properties_defaults] and
    [class_defaults] return the same mapping, and the sparse export is
    empty. *)
Theorem fresh_instance_exports st (k : klass) :
  k_instance_properties k = false →
  (∀ name, name ∈ k_properties k →
     ∃ d, k_attrs k !! name = Some (CProperty d) ∧ is_object d = false ∧
          py_eq d d = true) →
  ∃ D,
    class_defaults (new_instance k st).2 k None = Val D ∧
    properties 1 (new_instance k st).2 (new_instance k st).1 true None = Val D ∧
    properties_defaults 1 (new_instance k st).2 (new_instance k st).1 None
    = Val D ∧
    properties 1 (new_instance k st).2 (new_instance k st).1 false None
    = Val [].
Proof.
  intros Hk Hdecl.
  destruct (fresh_instance_collect (new_instance k st).2 k (next_signal st)
              (elements (k_properties k)) Hk) as (D & H1 & H2 & H3 & H4).
  { intros name Hn. apply elem_of_elements in Hn. split; [done|].
    by apply Hdecl. }
  exists D. unfold class_defaults. split; [done|].
  assert (properties_names (Obj k ∅ ∅ ∅ (next_signal st)) None
          = k_properties k) as Hnames.
  { unfold properties_names, _properties_names. simpl. by rewrite Hk. }
  repeat split; cbn [properties properties_defaults]; unfold get_obj;
    rewrite fresh_instance_heap; cbn [res_bind]; rewrite Hnames.
  - apply H2.
  - apply H3.
  - apply H4.
Qed.

Lemma fresh_instance_exports_witness :
  ∃ D,
    class_defaults (new_instance Light empty_state).2 Light None = Val D ∧
    properties 1 (new_instance Light empty_state).2
               (new_instance Light empty_state).1 true None = Val D ∧
    properties_defaults 1 (new_instance Light empty_state).2
                        (new_instance Light empty_state).1 None = Val D ∧
    properties 1 (new_instance Light empty_state).2
               (new_instance Light empty_state).1 false None = Val [].
Proof.
  apply (fresh_instance_exports empty_state Light).
  - reflexivity.
  - intros name Hn.
    assert (name = "intensity" ∨ name = "color") as [-> | ->].
    { revert Hn. simpl. set_solver. }
    + exists (VInt 0). split; [vm_compute; reflexivity|done].
    + exists (VStr "white"). split; [vm_compute; reflexivity|done].
Defined.

(** X16 ([properties_defaults] with an instance-local property).  On a
    [HasInstanceProperties] instance, [properties_defaults] raises as soon
    as one of the names it visits is an instance-local property:
    [_property] calls [self._getattribute], which no class defines. *)
Theorem properties_defaults_instance_property (fuel : nat) st a o name filter :
  heap st !! a = Some o →
  k_instance_properties (o_class o) = true →
  name ∈ o_i_properties o →
  name ∈ properties_names o filter →
  ∃ e, properties_defaults fuel st a filter = Err e.
Proof.
  intros Ha Hk Hi Hn. destruct fuel as [|fuel]; simpl; [eauto|].
  unfold get_obj. rewrite Ha. simpl.
  apply (collect_Err _ _ name AttributeError).
  - by apply elem_of_elements.
  - unfold default_entry, _property.
    by rewrite Hk, bool_decide_eq_true_2.
Qed.

Lemma properties_defaults_instance_property_witness :
  ∃ e, properties_defaults 1 bag_state bag None = Err e.
Proof.
  apply (properties_defaults_instance_property 1 bag_state bag bag_obj "x" None).
  - vm_compute. reflexivity.
  - reflexivity.
  - apply (bool_decide_unpack _). vm_compute. exact I.
  - apply (bool_decide_unpack _). vm_compute. exact I.
Defined.

End Defaults.

(** * Invariants of assignment *)

Section Invariants.

Implicit Types (st : state) (a n : addr) (o : obj) (name : string)
  (v d : value).

(** What an assignment does to the instance, whatever its outcome. *)
Lemma setattr_effect a name v st o :
  heap st !! a = Some o →
  ∃ o',
    heap (final (setattr a name v st)) = <[a := o']> (heap st) ∧
    o_class o' = o_class o ∧
    o_property_changed o' = o_property_changed o ∧
    o_changed_signals o' = o_changed_signals o ∧
    next_signal (final (setattr a name v st)) = next_signal st ∧
    (∀ w, is_Some (wrappers st !! w) →
          is_Some (wrappers (final (setattr a name v st)) !! w)) ∧
    (o' = o ∨
     (o_attrs o' = <[name := v]> (o_attrs o) ∧
      ((o_i_properties o' = o_i_properties o ∧
        (k_instance_properties (o_class o) = true →
         (name ∉ o_i_properties o) ∧ is_wrapper v = false)) ∨
       (o_i_properties o' = o_i_properties o ∪ {[name]} ∧
        is_wrapper v = true)))).
Proof.
  intros Ha. unfold setattr. rewrite Ha.
  destruct (base_setattr_final a name v st o Ha)
    as (st1 & new & E & Hh & Hw & Hs & _).
  destruct (k_instance_properties (o_class o)) eqn:Hk.
  - destruct (is_wrapper v) eqn:Hwr.
    + destruct v as [| | | | |w]; try done.
      rewrite E. simpl. unfold register_i_property.
      rewrite Hh, lookup_insert_eq. simpl.
      eexists. split; [by rewrite insert_insert_eq|].
      repeat split; try done.
      * by rewrite Hw.
      * right. split; [done|]. by right.
    + assert (∀ X Y : outcome unit,
                match v with VIProp _ => X | _ => Y end = Y) as Hm
        by (intros; by destruct v).
      rewrite Hm. clear Hm. case_decide as Hi.
      * assert (∃ o', heap st = <[a := o']> (heap st) ∧ o' = o) as Hsame.
        { exists o. by rewrite insert_id. }
        destruct (object_getattribute o name) as [[| | | | |w]|e];
          try (exists o; simpl; rewrite insert_id by done;
               repeat split; try done; by left).
        unfold __pset__.
        destruct (wrappers st !! w) as [p|] eqn:Hp;
          [|exists o; simpl; rewrite insert_id by done;
            repeat split; try done; by left].
        simpl. set (st2 := set_wrappers _ st).
        destruct (emit_changed_ok a name v st2 o Ha)
          as (st3 & E3 & Hh3 & Hw3 & Hs3 & _).
        rewrite E3. simpl. exists o. rewrite Hh3. simpl.
        rewrite insert_id by done. repeat split; try done.
        -- intros w0 Hw0. rewrite Hw3. unfold st2. simpl.
           destruct (decide (w0 = w)) as [->|Hne].
           ++ rewrite lookup_insert_eq. eauto.
           ++ by rewrite lookup_insert_ne.
        -- by left.
      * rewrite E. simpl. eexists. split; [exact Hh|].
        repeat split; try done.
        -- by rewrite Hw.
        -- right. split; [done|]. left. split; [done|]. done.
  - rewrite E. simpl. eexists. split; [exact Hh|].
    repeat split; try done.
    + by rewrite Hw.
    + right. split; [done|]. left. split; [done|]. done.
Qed.

Lemma wf_state_bag : wf_state bag_state.
Proof.
  intros a o Ho.
  assert (heap bag_state = {[ bag := bag_obj ]}) as Hh
    by (vm_compute; reflexivity).
  rewrite Hh in Ho. apply lookup_singleton_Some in Ho as [_ <-].
  apply bag_obj_wf.
Qed.

(** X17 (instance-local names stay bound to wrappers).  The invariant that
    every name of an instance-local registry is bound, on its instance, to
    a live [InstanceProperty] is kept by the construction of an instance,
    by the construction of an [InstanceProperty], by every assignment of a
    value that is no dangling wrapper, whatever the outcome of the
    assignment, and by [changed]. *)
Theorem wf_state_invariant st :
  wf_state st →
  (∀ k, wf_state (new_instance k st).2) ∧
  (∀ d, wf_state (new_iprop d st).2) ∧
  (∀ a name v, live_value st v → wf_state (final (setattr a name v st))) ∧
  (∀ a name, wf_state (final (changed a name st))).
Proof.
  intros Hwf. split; [|split; [|split]].
  - intros k b o. unfold new_instance. simpl.
    intros [[_ <-]|[_ Hb]]%lookup_insert_Some.
    + intros _ name Hn. simpl in Hn. set_solver.
    + by apply (Hwf b).
  - intros d b o. unfold new_iprop. simpl. intros Hb Hk name Hn.
    destruct (Hwf b o Hb Hk name Hn) as (w & Hattr & Hlive).
    exists w. split; [done|]. simpl.
    destruct (decide (w = fresh (dom (wrappers st)))) as [->|Hne].
    + rewrite lookup_insert_eq. eauto.
    + by rewrite lookup_insert_ne.
  - intros a name v Hv.
    destruct (heap st !! a) as [o|] eqn:Ha.
    2:{ unfold setattr. rewrite Ha. simpl. done. }
    destruct (setattr_effect a name v st o Ha)
      as (o' & Hh & Hc & _ & _ & _ & Hmono & Hcases).
    intros b ob. rewrite Hh.
    intros [[_ <-]|[_ Hb]]%lookup_insert_Some.
    + intros Hk name' Hn'. rewrite Hc in Hk.
      destruct Hcases as [->|[Hattrs [[Hi Hcond]|[Hi Hwr]]]].
      * destruct (Hwf a o Ha Hk name' Hn') as (w & ? & ?). eauto.
      * rewrite Hi in Hn'. destruct (Hcond Hk) as [Hni _].
        destruct (Hwf a o Ha Hk name' Hn') as (w & Hattr & Hlive).
        exists w. split; [|by apply Hmono]. rewrite Hattrs.
        rewrite lookup_insert_ne; [done|]. by intros ->.
      * rewrite Hi in Hn'. destruct v as [| | | | |w0]; try done.
        destruct (decide (name' = name)) as [->|Hne].
        -- exists w0. rewrite Hattrs, lookup_insert_eq. split; [done|].
           by apply Hmono.
        -- apply elem_of_union in Hn' as [Hn''|Hs];
             [|by apply elem_of_singleton in Hs].
           destruct (Hwf a o Ha Hk name' Hn'') as (w & Hattr & Hlive).
           exists w. split; [|by apply Hmono]. rewrite Hattrs.
           by rewrite lookup_insert_ne.
    + intros Hk name' Hn'.
      destruct (Hwf b ob Hb Hk name' Hn') as (w & Hattr & Hlive).
      exists w. split; [done|]. by apply Hmono.
  - intros a name. unfold changed.
    destruct (heap st !! a) as [o|] eqn:Ha; [|done].
    case_decide; [|done].
    destruct (o_changed_signals o !! name); [done|]. simpl.
    intros b ob Hb. simpl in Hb.
    apply lookup_insert_Some in Hb as [[_ <-]|[_ Hb]].
    + intros Hk name' Hn'. simpl in *. by apply (Hwf a o Ha Hk).
    + by apply (Hwf b).
Qed.

Lemma wf_state_invariant_witness :
  (∀ k, wf_state (new_instance k bag_state).2) ∧
  (∀ d, wf_state (new_iprop d bag_state).2) ∧
  (∀ a name v, live_value bag_state v →
               wf_state (final (setattr a name v bag_state))) ∧
  (∀ a name, wf_state (final (changed a name bag_state))).
Proof. apply (wf_state_invariant bag_state wf_state_bag). Defined.

(** X18 (attaching an instance property is silent).  Assigning an
    [InstanceProperty] to a name that the instance does not recognise yet
    stores the wrapper and registers the name, so that reading the name
    gives the wrapped value, but emits no notification: the base
    [__setattr__] runs before the name is registered. *)
Theorem attach_is_silent st a o name w p :
  heap st !! a = Some o →
  k_instance_properties (o_class o) = true →
  name ∉ properties_names o None →
  wrappers st !! w = Some p →
  ∃ st' o',
    setattr a name (VIProp w) st = Ok () st' ∧
    log st' = log st ∧
    heap st' !! a = Some o' ∧
    name ∈ properties_names o' None ∧
    getattr st' o' name = Val (ip_value p).
Proof.
  intros Ha Hk Hn Hw. unfold setattr. rewrite Ha, Hk.
  unfold base_setattr. rewrite Ha. rewrite decide_False by done. simpl.
  unfold register_i_property. simpl. rewrite lookup_insert_eq.
  eexists _, _. split; [done|]. simpl. split; [done|].
  rewrite lookup_insert_eq. split; [done|]. split.
  - unfold properties_names, _properties_names. simpl. rewrite Hk. set_solver.
  - unfold getattr. rewrite (object_getattribute_stored _ name (VIProp w))
      by (simpl; apply lookup_insert_eq).
    simpl. rewrite Hk. unfold __pget__. simpl. by rewrite Hw.
Qed.

Lemma attach_is_silent_witness :
  ∃ st' o',
    setattr bag "y" (VIProp 1%positive) bag_state = Ok () st' ∧
    log st' = log bag_state ∧
    heap st' !! bag = Some o' ∧
    "y" ∈ properties_names o' None ∧
    getattr st' o' "y" = Val (ip_value (IProp (VInt 1) (VInt 1))).
Proof.
  apply (attach_is_silent bag_state bag bag_obj "y" 1%positive).
  - vm_compute. reflexivity.
  - reflexivity.
  - apply (bool_decide_unpack _). vm_compute. exact I.
  - vm_compute. reflexivity.
Defined.

End Invariants.

(** * Removal of instance properties *)

Section Removal.

Implicit Types (st : state) (a n : addr) (o : obj) (name : string)
  (v d : value).

(** X19 (attach, then remove).  On a [HasInstanceProperties] instance,
    assigning an [InstanceProperty] to a name that is neither recognised
    nor bound, on the class or on the instance, and deleting the name again
    gives back the state that was there before: the attribute and the
    registration are both undone, and neither step notifies. *)
Theorem attach_detach_round_trip st a o name w :
  heap st !! a = Some o →
  k_instance_properties (o_class o) = true →
  name ∉ properties_names o None →
  k_attrs (o_class o) !! name = None →
  o_attrs o !! name = None →
  ∃ st1, setattr a name (VIProp w) st = Ok () st1 ∧
         delattr a name st1 = Ok () st.
Proof.
  intros Ha Hk Hn Hc Hattr. unfold setattr. rewrite Ha, Hk.
  unfold base_setattr. rewrite Ha. rewrite decide_False by done. simpl.
  unfold register_i_property. simpl. rewrite lookup_insert_eq.
  eexists. split; [done|].
  unfold delattr. simpl. rewrite lookup_insert_eq. simpl. rewrite Hk.
  unfold object_delattr. simpl. rewrite lookup_insert_eq. simpl.
  rewrite Hc, lookup_insert_eq. simpl.
  unfold unregister_i_property. simpl. rewrite lookup_insert_eq.
  f_equal. destruct st as [h ws lg ns sn]. unfold set_heap. simpl in *.
  f_equal. rewrite !insert_insert_eq.
  assert (name ∉ o_i_properties o) as Hi.
  { intros Hi. apply Hn. unfold properties_names, _properties_names.
    rewrite Hk. set_solver. }
  assert (with_i_properties (λ s, s ∖ {[name]})
            (with_attrs (delete name)
               (with_i_properties (λ s, s ∪ {[name]})
                  (with_attrs <[name:=VIProp w]> o))) = o) as ->.
  { destruct o as [k attrs ip cs pc]. unfold with_i_properties, with_attrs.
    simpl in *. f_equal.
    - by apply delete_insert_id.
    - apply set_eq. intros x.
      rewrite elem_of_difference, elem_of_union, elem_of_singleton.
      split; [tauto|]. intros Hx. split; [by left|]. by intros ->. }
  by apply insert_id.
Qed.

Lemma attach_detach_round_trip_witness :
  ∃ st1, setattr bag "y" (VIProp 1%positive) bag_state = Ok () st1 ∧
         delattr bag "y" st1 = Ok () bag_state.
Proof.
  apply (attach_detach_round_trip bag_state bag bag_obj "y" 1%positive).
  - vm_compute. reflexivity.
  - reflexivity.
  - apply (bool_decide_unpack _). vm_compute. exact I.
  - reflexivity.
  - vm_compute. reflexivity.
Defined.

(** X20 (removing an instance property).  Deleting an instance-local
    property that the class does not bind succeeds, emits nothing and
    unregisters the name: afterwards reading the name raises
    [AttributeError], the instance-local registry has lost the name, and
    every other attribute reads as before. *)
Theorem detach_instance_property st a o name :
  heap st !! a = Some o →
  k_instance_properties (o_class o) = true →
  wf_obj st o →
  name ∈ o_i_properties o →
  k_attrs (o_class o) !! name = None →
  ∃ st' o',
    delattr a name st = Ok () st' ∧
    log st' = log st ∧
    heap st' !! a = Some o' ∧
    o_i_properties o' = o_i_properties o ∖ {[name]} ∧
    getattr st' o' name = Err AttributeError ∧
    (∀ other, other ≠ name → getattr st' o' other = getattr st o other).
Proof.
  intros Ha Hk Hwf Hi Hc.
  destruct (Hwf Hk name Hi) as (w & Hattr & _).
  unfold delattr. rewrite Ha, Hk. unfold object_delattr.
  rewrite Ha, Hc, Hattr. simpl.
  unfold unregister_i_property. simpl. rewrite lookup_insert_eq.
  eexists _, _. split; [done|]. simpl. split; [done|].
  rewrite lookup_insert_eq. split; [done|]. split; [done|]. split.
  - unfold getattr, object_getattribute. simpl.
    by rewrite Hc, lookup_delete_eq.
  - intros other Hne. apply getattr_ext; [done|done|]. simpl.
    by apply lookup_delete_ne.
Qed.

Lemma detach_instance_property_witness :
  ∃ st' o',
    delattr bag "x" bag_state = Ok () st' ∧
    log st' = log bag_state ∧
    heap st' !! bag = Some o' ∧
    o_i_properties o' = o_i_properties bag_obj ∖ {[ "x" ]} ∧
    getattr st' o' "x" = Err AttributeError ∧
    (∀ other, other ≠ "x" →
              getattr st' o' other = getattr bag_state bag_obj other).
Proof.
  apply (detach_instance_property bag_state bag bag_obj "x").
  - vm_compute. reflexivity.
  - reflexivity.
  - apply bag_obj_wf.
  - apply (bool_decide_unpack _). vm_compute. exact I.
  - reflexivity.
Defined.

End Removal.

(** * Signals are never shared *)

Section SignalInvariant.

Implicit Types (st : state) (a n : addr) (o : obj) (name : string)
  (v d : value).

Lemma setattr_signals a name v st :
  (∀ sl, signal_at (final (setattr a name v st)) sl = signal_at st sl) ∧
  next_signal (final (setattr a name v st)) = next_signal st.
Proof.
  destruct (heap st !! a) as [o|] eqn:Ha.
  2:{ unfold setattr. rewrite Ha. done. }
  destruct (setattr_effect a name v st o Ha)
    as (o' & Hh & _ & Hpc & Hcs & Hns & _ & _).
  split; [|done]. intros [b|b nm]; simpl; rewrite Hh.
  - destruct (decide (b = a)) as [->|Hne].
    + by rewrite lookup_insert_eq, Ha; simpl; rewrite Hpc.
    + by rewrite lookup_insert_ne.
  - destruct (decide (b = a)) as [->|Hne].
    + by rewrite lookup_insert_eq, Ha; simpl; rewrite Hcs.
    + by rewrite lookup_insert_ne.
Qed.

(** X21 (signals stay distinct).  That every signal held by an instance was
    constructed earlier and that no two places (the aggregate signal of an
    instance, the signal of one of its names) hold the same signal is an
    invariant of construction, of [changed], of assignment and of
    [update_properties], whatever their outcome. *)
Theorem signals_invariant st :
  wf_signals st →
  (∀ k, wf_signals (new_instance k st).2) ∧
  (∀ a name, wf_signals (final (changed a name st))) ∧
  (∀ a name v, wf_signals (final (setattr a name v st))) ∧
  (∀ (fuel : nat) a (m : value),
     wf_signals (final (update_properties fuel a m st))).
Proof.
  intros Hwf. split; [|split; [|split]].
  - intros k. by apply wf_signals_new_instance.
  - intros a name. by apply wf_signals_changed.
  - intros a name v. destruct (setattr_signals a name v st) as [Hs Hn].
    destruct Hwf as [Hb Hu]. split.
    + intros sl s. rewrite Hs, Hn. apply Hb.
    + intros sl1 sl2 s. rewrite !Hs. apply Hu.
  - intros fuel a m. eapply wf_signals_evolves; [|done].
    apply update_properties_evolves.
Qed.

Lemma signals_invariant_witness :
  (∀ k, wf_signals (new_instance k rig).2) ∧
  (∀ a name, wf_signals (final (changed a name rig))) ∧
  (∀ a name v, wf_signals (final (setattr a name v rig))) ∧
  (∀ (fuel : nat) a (m : value),
     wf_signals (final (update_properties fuel a m rig))).
Proof. apply (signals_invariant rig wf_signals_rig). Defined.

(** X22 (what an import leaves alone).  Whatever its argument and its
    outcome, [update_properties] leaves every property that holds a nested
    object holding that same object, on every instance; it creates and
    moves no signal; and it only appends to the log notifications of
    properties that held no nested object when it started. *)
Theorem update_properties_stable (fuel : nat) a (m : value) st :
  evolves st (final (update_properties fuel a m st)).
Proof. apply update_properties_evolves. Qed.

End SignalInvariant.

(** * Round trips through nested objects *)

Section Footprints.

Implicit Types (st : state) (a b c n m : addr) (o : obj) (name : string)
  (v : value).

Lemma related_inv (N : addr → addr → Prop) (L : value → value → Prop) va vb :
  related N L va vb →
  (∃ n m, va = VObj n ∧ vb = VObj m ∧ N n m) ∨
  (is_object va = false ∧ is_object vb = false ∧ L va vb).
Proof.
  destruct va, vb; simpl; try done; try (by right); intros H; left; eauto.
Qed.

Lemma related_obj (N : addr → addr → Prop) (L : value → value → Prop) n m :
  N n m → related N L (VObj n) (VObj m).
Proof. done. Qed.

Lemma related_plain (N : addr → addr → Prop) (L : value → value → Prop) va vb :
  is_object va = false → is_object vb = false → L va vb →
  related N L va vb.
Proof. destruct va, vb; simpl; done. Qed.

Lemma reaches_child st a o name n c :
  heap st !! a = Some o → name ∈ properties_names o None →
  getattr st o name = Val (VObj n) → reaches st n c → reaches st a c.
Proof. apply reaches_nested. Qed.

(** Two states that agree on what an instance reaches give it the same
    footprint. *)
Lemma reaches_frame st st' a :
  wrappers st' = wrappers st →
  (∀ c, reaches st a c → heap st' !! c = heap st !! c) →
  ∀ c, reaches st a c → reaches st' a c.
Proof.
  intros Hw Hagree c Hr. induction Hr as [a|a o name n c Ha Hn Hg Hr IH].
  - constructor.
  - apply (reaches_nested st' a o name n c).
    + rewrite Hagree; [done|constructor].
    + done.
    + rewrite <- Hg. by apply getattr_ext.
    + apply IH. intros c' Hc'. apply Hagree. by eapply reaches_nested.
Qed.

Lemma reaches_frame_back st st' a :
  wrappers st' = wrappers st →
  (∀ c, reaches st a c → heap st' !! c = heap st !! c) →
  ∀ c, reaches st' a c → reaches st a c.
Proof.
  intros Hw Hagree c Hr. induction Hr as [a|a o name n c Ha Hn Hg Hr IH].
  - constructor.
  - rewrite Hagree in Ha by constructor.
    assert (getattr st o name = Val (VObj n)) as Hg'.
    { rewrite <- Hg. symmetry. by apply getattr_ext. }
    apply (reaches_nested st a o name n c); try done.
    apply IH. intros c' Hc'. apply Hagree. by eapply reaches_nested.
Qed.

Lemma alike_frame leaf (fuel : nat) st st' a b :
  wrappers st' = wrappers st →
  (∀ c, reaches st a c → heap st' !! c = heap st !! c) →
  (∀ c, reaches st b c → heap st' !! c = heap st !! c) →
  alike leaf fuel st a b → alike leaf fuel st' a b.
Proof.
  intros Hw. revert a b. induction fuel as [|k IH]; intros a b Ha Hb; [done|].
  cbn [alike]. intros (oa & ob & Hoa & Hob & Hnames & Hall).
  exists oa, ob. rewrite Ha, Hb by constructor.
  split; [done|]. split; [done|]. split; [done|].
  intros name Hn. destruct (Hall name Hn) as (va & vb & Hva & Hvb & Hrel).
  exists va, vb.
  split; [rewrite <- Hva; by apply getattr_ext|].
  split; [rewrite <- Hvb; by apply getattr_ext|].
  apply related_inv in Hrel as [(n & m & -> & -> & Hnm)|(? & ? & ?)].
  - apply related_obj. apply IH; [| |done].
    + intros c Hc. apply Ha. by eapply reaches_nested.
    + intros c Hc. apply Hb. eapply reaches_nested; [done| |done|done].
      by rewrite <- Hnames.
  - by apply related_plain.
Qed.

Lemma tree_frame st st' b :
  wrappers st' = wrappers st →
  tree st b →
  (∀ c, reaches st b c → heap st' !! c = heap st !! c) →
  tree st' b.
Proof.
  intros Hw Ht. induction Ht as [b o Hb Hk Hsub IH Hacyc Hsib].
  intros Hagree.
  assert (∀ name, getattr st' o name = getattr st o name) as Hg
    by (intros; by apply getattr_ext).
  assert (∀ name n, name ∈ properties_names o None →
            getattr st o name = Val (VObj n) →
            ∀ c, reaches st' n c → reaches st n c) as Hback.
  { intros name n Hn Hgn. apply reaches_frame_back; [done|].
    intros c Hc. apply Hagree. by eapply reaches_nested. }
  apply (tree_node st' b o).
  - rewrite Hagree; [done|constructor].
  - done.
  - intros name n Hn Hgn. rewrite Hg in Hgn. apply (IH name n Hn Hgn).
    intros c Hc. apply Hagree. by eapply reaches_nested.
  - intros name n Hn Hgn Hr. rewrite Hg in Hgn.
    apply (Hacyc name n Hn Hgn). by eapply Hback.
  - intros name1 name2 n1 n2 c Hne Hn1 Hn2 Hg1 Hg2 Hr1 Hr2.
    rewrite Hg in Hg1, Hg2.
    apply (Hsib name1 name2 n1 n2 c Hne Hn1 Hn2 Hg1 Hg2).
    + exact (Hback name1 n1 Hn1 Hg1 c Hr1).
    + exact (Hback name2 n2 Hn2 Hg2 c Hr2).
Qed.

Lemma names_plain o :
  k_instance_properties (o_class o) = false →
  properties_names o None = k_properties (o_class o).
Proof. intros Hk. unfold properties_names, _properties_names. by rewrite Hk. Qed.

Lemma ready_obj pre (k : nat) st0 st a oa b ob name m :
  ready pre k st0 st a oa b ob name →
  getattr st ob name = Val (VObj m) →
  ∃ n, getattr st0 oa name = Val (VObj n) ∧
       alike pre k st n m ∧ tree st m ∧ ¬ reaches st m b ∧ apart st0 st a m.
Proof.
  intros (va & vb & Hva & Hvb & Hrel) Hm. rewrite Hm in Hvb.
  injection Hvb as <-.
  apply related_inv in Hrel as [(n & m' & -> & [= <-] & H)|(_ & ? & _)];
    [|done].
  by exists n.
Qed.

(** The needs of a property of the target are the same in two states that
    agree on the footprints involved. *)
Lemma ready_carry pre (k : nat) st0 st st1 a oa b ob ob1 name :
  heap st0 !! a = Some oa →
  name ∈ properties_names oa None →
  wrappers st = wrappers st0 →
  (∀ c, reaches st0 a c → heap st !! c = heap st0 !! c) →
  wrappers st1 = wrappers st →
  getattr st1 ob1 name = getattr st ob name →
  (∀ c, reaches st0 a c → heap st1 !! c = heap st !! c) →
  (∀ m, getattr st ob name = Val (VObj m) →
        ∀ c, reaches st m c → heap st1 !! c = heap st !! c) →
  ready pre k st0 st a oa b ob name →
  ready pre k st0 st1 a oa b ob1 name.
Proof.
  intros Ha Hn Hw Hagree Hw1 Hget Ha1 Hm1 (va & vb & Hva & Hvb & Hrel).
  exists va, vb. split; [done|]. split; [by rewrite Hget|].
  apply related_inv in Hrel
    as [(n & m & -> & -> & Halike & Htree & Hacyc & Hapart)|(? & ? & ?)];
    [|by apply related_plain].
  apply related_obj.
  assert (∀ c, reaches st m c → heap st1 !! c = heap st !! c) as Hm
    by (by apply Hm1).
  assert (∀ c, reaches st1 m c → reaches st m c) as Hback
    by (by apply reaches_frame_back).
  split; [|split; [|split]].
  - apply (alike_frame pre k st st1 n m); [done| |done|done].
    intros c Hc. apply Ha1.
    apply (reaches_nested st0 a oa name n c Ha Hn Hva).
    revert c Hc. apply reaches_frame_back; [done|].
    intros c Hc. apply Hagree. by eapply reaches_nested.
  - by apply (tree_frame st st1 m).
  - intros Hr. apply Hacyc. by apply Hback.
  - intros c Hc Hr. apply (Hapart c Hc). by apply Hback.
Qed.

End Footprints.

Section RoundTripStep.

Implicit Types (st : state) (a b c n m : addr) (o : obj) (name : string)
  (v : value).

Variable defaults : bool.
Variable k : nat.
Hypothesis IHk : round_trip_at defaults k.

(** One item of the round trip. *)
Lemma round_trip_step st0 st a oa b ob name :
  heap st0 !! a = Some oa →
  wrappers st = wrappers st0 →
  (∀ c, reaches st0 a c → heap st !! c = heap st0 !! c) →
  heap st !! b = Some ob →
  k_instance_properties (o_class ob) = false →
  name ∈ properties_names oa None →
  name ∈ properties_names ob None →
  ready (target_ready defaults) k st0 st a oa b ob name →
  ∃ zs st1 ob1,
    export_entry (λ n, properties k st0 n defaults None) st0 oa defaults name
    = Val zs ∧
    update_items (update_properties k) b zs st = Ok () st1 ∧
    wrappers st1 = wrappers st ∧
    heap st1 !! b = Some ob1 ∧
    o_class ob1 = o_class ob ∧
    (∀ other, other ≠ name → o_attrs ob1 !! other = o_attrs ob !! other) ∧
    (∀ c, c ≠ b →
          (∀ m, getattr st ob name = Val (VObj m) → ¬ reaches st m c) →
          heap st1 !! c = heap st !! c) ∧
    settled (restored defaults) k st0 st st1 oa ob ob1 name.
Proof.
  intros Ha Hw Hagree Hb Hk Hna Hnb (va & vb & Hva & Hvb & Hrel).
  apply related_inv in Hrel
    as [(n & m & -> & -> & Halike & Htree & Hacyc & Hapart)
       |(Hoa & Hob & Hpre)].
  - (* a nested object on both sides *)
    destruct (IHk st0 st n m) as (sub & st1 & Hexp & Hupd & Hpost & Hw1 & Hf1 & Hs1).
    { done. }
    { intros c Hc. apply Hagree. by eapply reaches_nested. }
    { done. }
    { done. }
    { intros c Hc. apply Hapart. by eapply reaches_nested. }
    assert (heap st1 !! b = Some ob) as Hb1 by (by rewrite Hf1).
    assert (update_items (update_properties k) b
              (if defaults || negb (bool_decide (sub = []))
               then [(name, VDict sub)] else []) st = Ok () st1) as Hitems.
    { destruct (defaults || negb (bool_decide (sub = []))) eqn:Hcond.
      - simpl. rewrite Hb, decide_True, Hvb by done. by rewrite Hupd.
      - apply orb_false_iff in Hcond as [_ Hemp].
        apply negb_false_iff, bool_decide_eq_true in Hemp. subst sub.
        destruct k as [|k']; [done|]. simpl in Hupd. simpl. exact Hupd. }
    eexists _, st1, ob. split.
    { unfold export_entry. rewrite Hva. simpl. rewrite Hexp. simpl. done. }
    split; [done|]. split; [done|]. split; [done|]. split; [done|].
    split; [done|]. split.
    { intros c Hc Hout. apply Hf1. by apply Hout. }
    exists (VObj n), (VObj m). split; [done|]. split.
    { rewrite <- Hvb. by apply getattr_ext. }
    apply related_obj. done.
  - (* a value that is no nested object on both sides *)
    assert (∃ zs, export_entry (λ n, properties k st0 n defaults None) st0 oa
                    defaults name = Val zs ∧
                  ((zs = [(name, va)] ∧ restored defaults oa name va va) ∨
                   (zs = [] ∧ restored defaults oa name va vb)))
      as (zs & Hzs & Hcases).
    { assert (export_entry (λ n, properties k st0 n defaults None) st0 oa
                defaults name
              = if defaults then Val [(name, va)]
                else res_bind (_property oa name) (λ p,
                       res_bind (default_of st0 p) (λ d,
                         Val (if py_ne va d then [(name, va)] else []))))
        as -> by (unfold export_entry; rewrite Hva; simpl; by destruct va).
      unfold target_ready, restored in *. destruct defaults.
      - eexists. split; [done|]. by left.
      - rewrite Hpre. simpl. destruct (py_ne va vb) eqn:Hne.
        + eexists. split; [done|]. left. split; [done|]. by left.
        + eexists. split; [done|]. right. split; [done|]. right.
          unfold py_ne in Hne. by apply negb_false_iff in Hne. }
    destruct Hcases as [[-> Hpost]|[-> Hpost]].
    + destruct (base_setattr_ok b name va st ob Hb Hnb)
        as (st1 & E & Hh & Hw1 & _ & _).
      set (ob1 := with_attrs (insert name va) ob) in *.
      exists [(name, va)], st1, ob1. split; [done|]. split.
      { simpl. rewrite Hb, decide_True, Hvb by done.
        assert (∀ X : outcome unit,
                  match vb with
                  | VObj n => update_properties k n va st
                  | _ => X
                  end = X) as -> by (intros; by destruct vb).
        unfold setattr. rewrite Hb, Hk, E. done. }
      split; [done|]. split; [by rewrite Hh, lookup_insert_eq|].
      split; [done|]. split.
      { intros other Hne. simpl. by apply lookup_insert_ne. }
      split.
      { intros c Hc _. rewrite Hh. by apply lookup_insert_ne. }
      exists va, va. split; [done|]. split.
      { apply getattr_plain_stored; [done|]. simpl. apply lookup_insert_eq. }
      by apply related_plain.
    + exists [], st, ob. split; [done|]. split; [done|].
      repeat split; try done.
      exists va, vb. split; [done|]. split; [done|].
      by apply related_plain.
Qed.

(** The loop of the round trip over the names of the source. *)
Lemma round_trip_loop st0 a oa b :
  heap st0 !! a = Some oa →
  ¬ reaches st0 a b →
  ∀ l st ob,
    NoDup l →
    (∀ name, name ∈ l → name ∈ properties_names oa None ∧
                        name ∈ properties_names ob None) →
    wrappers st = wrappers st0 →
    (∀ c, reaches st0 a c → heap st !! c = heap st0 !! c) →
    heap st !! b = Some ob →
    k_instance_properties (o_class ob) = false →
    (∀ name, name ∈ l → ready (target_ready defaults) k st0 st a oa b ob name) →
    (∀ name1 name2 m1 m2 c,
       name1 ≠ name2 → name1 ∈ l → name2 ∈ l →
       getattr st ob name1 = Val (VObj m1) →
       getattr st ob name2 = Val (VObj m2) →
       reaches st m1 c → reaches st m2 c → False) →
    ∃ E st' ob',
      collect (export_entry (λ n, properties k st0 n defaults None) st0 oa
                 defaults) l = Val E ∧
      update_items (update_properties k) b E st = Ok () st' ∧
      wrappers st' = wrappers st ∧
      heap st' !! b = Some ob' ∧
      o_class ob' = o_class ob ∧
      (∀ other, other ∉ l → o_attrs ob' !! other = o_attrs ob !! other) ∧
      (∀ c, c ≠ b →
            (∀ name m, name ∈ l → getattr st ob name = Val (VObj m) →
                       ¬ reaches st m c) →
            heap st' !! c = heap st !! c) ∧
      (∀ name, name ∈ l →
               settled (restored defaults) k st0 st st' oa ob ob' name).
Proof.
  intros Ha0 Hab l. induction l as [|name l IH];
    intros st ob Hnd Hnames Hw Hagree Hb Hk Hready Hsib.
  { exists [], st, ob. repeat split; try done.
    intros name Hn. by apply elem_of_nil in Hn. }
  pose proof (NoDup_cons_1_1 _ _ Hnd) as Hfresh.
  apply NoDup_cons_1_2 in Hnd.
  destruct (Hnames name) as [Hna Hnb]; [left|].
  destruct (round_trip_step st0 st a oa b ob name Ha0 Hw Hagree Hb Hk Hna Hnb)
    as (zs & st1 & ob1 & Hz1 & Hu1 & Hw1 & Hb1 & Hc1 & Hattr1 & Hf1 & Hset1).
  { apply Hready. left. }
  (* what the head leaves alone *)
  assert (∀ m, getattr st ob name = Val (VObj m) →
            tree st m ∧ ¬ reaches st m b ∧ apart st0 st a m) as Hhead.
  { intros m Hm.
    destruct (ready_obj _ _ _ _ _ _ _ _ _ _ (Hready name ltac:(left)) Hm)
      as (n & _ & _ & ? & ? & ?). done. }
  assert (∀ c, reaches st0 a c → heap st1 !! c = heap st !! c) as Ha1.
  { intros c Hc. apply Hf1.
    - intros ->. done.
    - intros m Hm Hr. destruct (Hhead m Hm) as (_ & _ & Hapart).
      by apply (Hapart c). }
  assert (∀ name2, name2 ∈ l → name2 ≠ name) as Hne.
  { intros name2 Hin ->. done. }
  assert (∀ name2, name2 ∈ l →
            getattr st1 ob1 name2 = getattr st ob name2) as Hget.
  { intros name2 Hin. apply getattr_ext; [done|done|].
    apply Hattr1. by apply Hne. }
  assert (∀ name2 m2, name2 ∈ l → getattr st ob name2 = Val (VObj m2) →
            ∀ c, reaches st m2 c → heap st1 !! c = heap st !! c) as Hm1.
  { intros name2 m2 Hin Hm2 c Hc.
    destruct (ready_obj _ _ _ _ _ _ _ _ _ _ (Hready name2 ltac:(by right)) Hm2)
      as (n2 & _ & _ & _ & Hacyc2 & _).
    apply Hf1.
    - intros ->. done.
    - intros m Hm Hr.
      apply (Hsib name name2 m m2 c); try done; [|left|by right].
      intros ->. done. }
  assert (∀ name2 m2, name2 ∈ l → getattr st ob name2 = Val (VObj m2) →
            ∀ c, reaches st1 m2 c → reaches st m2 c) as Hback1.
  { intros name2 m2 Hin Hm2. apply reaches_frame_back; [done|].
    by apply (Hm1 name2). }
  assert (properties_names ob1 None = properties_names ob None) as Hn1.
  { rewrite !names_plain by (by rewrite ?Hc1). by rewrite Hc1. }
  destruct (IH st1 ob1) as (E & st' & ob' & HE & HU & Hw' & Hb' & Hc' & Hattr'
                            & Hf' & Hset').
  { done. }
  { intros name2 Hin. rewrite Hn1. apply Hnames. by right. }
  { congruence. }
  { intros c Hc. rewrite Ha1 by done. by apply Hagree. }
  { done. }
  { by rewrite Hc1. }
  { intros name2 Hin.
    apply (ready_carry _ k st0 st st1 a oa b ob ob1 name2); try done.
    - apply Hnames. by right.
    - by apply Hget.
    - intros m. by apply Hm1.
    - apply Hready. by right. }
  { intros name1 name2 m1 m2 c Hne12 Hin1 Hin2 Hg1 Hg2 Hr1 Hr2.
    rewrite Hget in Hg1, Hg2 by done.
    apply (Hsib name1 name2 m1 m2 c); try done; try (by right).
    - by apply (Hback1 name1).
    - by apply (Hback1 name2). }
  (* what the tail leaves alone *)
  assert (∀ c, c ≠ b →
            (∀ name2 m2, name2 ∈ l → getattr st ob name2 = Val (VObj m2) →
                         ¬ reaches st m2 c) →
            heap st' !! c = heap st1 !! c) as Htail.
  { intros c Hcb Hout. apply Hf'; [done|].
    intros name2 m2 Hin Hm2 Hr. rewrite Hget in Hm2 by done.
    apply (Hout name2 m2 Hin Hm2). by apply (Hback1 name2). }
  exists (zs ++ E), st', ob'. split.
  { simpl. by rewrite Hz1, HE. }
  split.
  { by rewrite update_items_app, Hu1. }
  split; [congruence|]. split; [done|]. split; [congruence|]. split.
  { intros other Hother. apply not_elem_of_cons in Hother as [Ho1 Ho2].
    rewrite Hattr' by done. by apply Hattr1. }
  split.
  { intros c Hcb Hout. rewrite Htail.
    - apply Hf1; [done|]. intros m Hm. apply (Hout name m); [left|done].
    - done.
    - intros name2 m2 Hin Hm2. apply (Hout name2 m2); [by right|done]. }
  intros name' Hin'. apply elem_of_cons in Hin' as [->|Hin'].
  - (* the head, after the tail *)
    destruct Hset1 as (va & vb & Hva & Hvb & Hrel).
    exists va, vb. split; [done|]. split.
    { rewrite <- Hvb. apply getattr_ext; [done|done|]. by apply Hattr'. }
    apply related_inv in Hrel
      as [(n & m & -> & -> & Hpost & Hm & Hshape)|(? & ? & ?)];
      [|by apply related_plain].
    apply related_obj.
    destruct (Hhead m Hm) as (_ & Hacyc & Hapart).
    assert (∀ c, reaches st1 m c → heap st' !! c = heap st1 !! c) as Hm'.
    { intros c Hc. apply Hshape in Hc. apply Htail.
      - intros ->. done.
      - intros name2 m2 Hin2 Hm2 Hr.
        apply (Hsib name name2 m m2 c); try done; [|left|by right].
        intros ->. done. }
    assert (∀ c, reaches st1 n c → heap st' !! c = heap st1 !! c) as Hn'.
    { intros c Hc.
      assert (reaches st0 a c) as Hc0.
      { apply (reaches_nested st0 a oa name n c Ha0 Hna Hva).
        revert c Hc. apply reaches_frame_back; [congruence|].
        intros c Hc. rewrite Ha1; [apply Hagree|];
          by eapply reaches_nested. }
      apply Htail.
      - intros ->. done.
      - intros name2 m2 Hin2 Hm2 Hr.
        destruct (ready_obj _ _ _ _ _ _ _ _ _ _
                    (Hready name2 ltac:(by right)) Hm2)
          as (n2 & _ & _ & _ & _ & Hapart2).
        by apply (Hapart2 c). }
    split; [|split; [done|]].
    + by apply (alike_frame _ k st1 st' n m).
    + intros c Hc. apply Hshape. revert c Hc.
      by apply reaches_frame_back.
  - (* a name of the tail *)
    destruct (Hset' name' Hin') as (va & vb & Hva & Hvb & Hrel).
    exists va, vb. split; [done|]. split; [done|].
    apply related_inv in Hrel
      as [(n & m & -> & -> & Hpost & Hm & Hshape)|(? & ? & ?)];
      [|by apply related_plain].
    apply related_obj. rewrite Hget in Hm by done.
    split; [done|]. split; [done|].
    intros c Hc. apply (Hback1 name' m Hin' Hm). by apply Hshape.
Qed.

End RoundTripStep.

Section RoundTrip.

Implicit Types (st : state) (a b c n m : addr) (o : obj) (name : string)
  (v : value).

Lemma round_trip_all (defaults : bool) (k : nat) : round_trip_at defaults k.
Proof.
  induction k as [|k IHk]; intros st0 st a b Hw Hagree Halike Htree Hapart;
    [done|].
  cbn [alike] in Halike.
  destruct Halike as (oa & ob & Ha & Hb & Hnames & Hall).
  destruct Htree as [b ob' Hb' Hk Hsub Hacyc Hsib].
  assert (ob' = ob) as -> by congruence.
  assert (heap st0 !! a = Some oa) as Ha0
    by (rewrite <- Hagree; [done|constructor]).
  assert (¬ reaches st0 a b) as Hab.
  { intros Hr. apply (Hapart b Hr). constructor. }
  assert (∀ name, getattr st0 oa name = getattr st oa name) as Hget0.
  { intros name. symmetry. by apply getattr_ext. }
  destruct (round_trip_loop defaults k IHk st0 a oa b Ha0 Hab
              (elements (properties_names oa None)) st ob)
    as (E & st' & ob1 & HE & HU & Hw' & Hb1 & Hc1 & _ & Hf & Hset).
  { apply NoDup_elements. }
  { intros name Hn%elem_of_elements. split; [done|]. by rewrite <- Hnames. }
  { done. }
  { done. }
  { done. }
  { done. }
  { intros name Hn%elem_of_elements.
    destruct (Hall name Hn) as (va & vb & Hva & Hvb & Hrel).
    exists va, vb. split; [by rewrite Hget0|]. split; [done|].
    apply related_inv in Hrel as [(n & m & -> & -> & Hnm)|(? & ? & ?)];
      [|by apply related_plain].
    assert (name ∈ properties_names ob None) as Hn' by (by rewrite <- Hnames).
    apply related_obj. split; [done|]. split; [by eapply Hsub|].
    split; [by eapply Hacyc|].
    intros c Hc Hr. apply (Hapart c Hc). by eapply reaches_nested. }
  { intros name1 name2 m1 m2 c Hne Hn1%elem_of_elements Hn2%elem_of_elements.
    rewrite Hnames in Hn1, Hn2. by apply Hsib. }
  assert (properties_names ob1 None = properties_names ob None) as Hn1.
  { rewrite !names_plain by (by rewrite ?Hc1). by rewrite Hc1. }
  assert (∀ c name m, name ∈ properties_names oa None →
            getattr st ob name = Val (VObj m) → reaches st m c →
            reaches st b c) as Hdown.
  { intros c name m Hn Hm Hr. eapply reaches_nested; [done| |done|done].
    by rewrite <- Hnames. }
  exists E, st'. split.
  { cbn [properties]. unfold get_obj. by rewrite Ha0. }
  split; [done|]. split; [|split; [done|split]].
  - cbn [alike]. exists oa, ob1. split.
    { rewrite Hf; [done| |].
      - intros ->. apply (Hapart b); constructor.
      - intros name m Hn%elem_of_elements Hm Hr.
        apply (Hapart a); [constructor|]. by eapply Hdown. }
    split; [done|]. split; [by rewrite Hn1|].
    intros name Hn.
    destruct (Hset name) as (va & vb & Hva & Hvb & Hrel);
      [by apply elem_of_elements|].
    exists va, vb. split.
    { rewrite <- Hva. apply getattr_ext; [congruence|done|done]. }
    split; [done|].
    apply related_inv in Hrel as [(n & m & -> & -> & Hnm & _)|(? & ? & ?)];
      [by apply related_obj|by apply related_plain].
  - intros c Hc. apply Hf.
    + intros ->. apply Hc. constructor.
    + intros name m Hn%elem_of_elements Hm Hr. apply Hc. by eapply Hdown.
  - intros c Hr. inversion Hr as [|? o2 name n ? Hb2 Hn2 Hg2 Hr2]; subst.
    { constructor. }
    assert (o2 = ob1) as -> by congruence.
    rewrite Hn1, <- Hnames in Hn2.
    destruct (Hset name) as (va & vb & Hva & Hvb & Hrel);
      [by apply elem_of_elements|].
    rewrite Hg2 in Hvb. injection Hvb as <-.
    apply related_inv in Hrel
      as [(n' & m & -> & [= <-] & _ & Hm & Hshape)|(_ & ? & _)]; [|done].
    eapply Hdown; [done|done|]. by apply Hshape.
Qed.

(** X23 (full round trip through nested objects).  Let the target [b] be
    the root of a tree of instances of classes without instance
    properties that shares no instance with what the source [a] reaches,
    and let [b] recognise the same names as [a] and hold a nested object
    exactly where [a] holds one, and so on below.  Then the full export of
    [a] returns, its import into [b] returns, and afterwards [b] holds
    under every name the value that [a] holds, or a nested object that is
    equal to the one of [a] in the same sense. *)
Theorem full_round_trip (k : nat) st a b :
  alike (target_ready true) k st a b →
  tree st b →
  apart st st a b →
  ∃ E st',
    properties k st a true None = Val E ∧
    update_properties k b (VDict E) st = Ok () st' ∧
    alike (restored true) k st' a b ∧
    (∀ c, ¬ reaches st b c → heap st' !! c = heap st !! c).
Proof.
  intros Halike Htree Hapart.
  destruct (round_trip_all true k st st a b eq_refl (λ _ _, eq_refl)
              Halike Htree Hapart) as (E & st' & ? & ? & ? & _ & ? & _).
  by exists E, st'.
Qed.

(** X24 (sparse round trip through nested objects).  With the target as
    for the full round trip and holding, wherever the source holds a value
    that is no nested object, the default that the class of the source
    declares for the name: the sparse export of [a] returns, its import
    into [b] returns, and afterwards [b] holds under every name the value
    of [a], or the default when that is equal ([==]) to the value of [a],
    or a nested object settled in the same way. *)
Theorem sparse_round_trip (k : nat) st a b :
  alike (target_ready false) k st a b →
  tree st b →
  apart st st a b →
  ∃ E st',
    properties k st a false None = Val E ∧
    update_properties k b (VDict E) st = Ok () st' ∧
    alike (restored false) k st' a b ∧
    (∀ c, ¬ reaches st b c → heap st' !! c = heap st !! c).
Proof.
  intros Halike Htree Hapart.
  destruct (round_trip_all false k st st a b eq_refl (λ _ _, eq_refl)
              Halike Htree Hapart) as (E & st' & ? & ? & ? & _ & ? & _).
  by exists E, st'.
Qed.

(** The stage: what its four instances are and what they reach. *)
Lemma stage_heap :
  heap stage !! fixture = Some fixture_obj ∧
  heap stage !! lamp = Some stage_lamp ∧
  heap stage !! fixture2 = Some stage_fixture2 ∧
  heap stage !! lamp2 = Some stage_lamp2.
Proof. repeat split; vm_compute; reflexivity. Qed.

Lemma names_Fixture o name :
  o_class o = Fixture → name ∈ properties_names o None →
  name = "lamp" ∨ name = "label".
Proof.
  intros Hc. unfold properties_names, _properties_names. rewrite Hc. simpl.
  set_solver.
Qed.

Lemma names_Light o name :
  o_class o = Light → name ∈ properties_names o None →
  name = "intensity" ∨ name = "color".
Proof.
  intros Hc. unfold properties_names, _properties_names. rewrite Hc. simpl.
  set_solver.
Qed.

Lemma reaches_leaf st a o c :
  heap st !! a = Some o →
  (∀ name n, name ∈ properties_names o None →
             getattr st o name ≠ Val (VObj n)) →
  reaches st a c → c = a.
Proof.
  intros Ha Hleaf Hr. inversion Hr as [|? o' name n ? Ha' Hn Hg _]; subst;
    [done|].
  assert (o' = o) as -> by congruence. by destruct (Hleaf name n).
Qed.

Lemma stage_light_leaf a o c :
  heap stage !! a = Some o → o_class o = Light →
  (getattr stage o "intensity" = Val (VInt 50) ∨
   getattr stage o "intensity" = Val (VInt 0)) →
  getattr stage o "color" = Val (VStr "white") →
  reaches stage a c → c = a.
Proof.
  intros Ha Hc Hi Hcol. apply (reaches_leaf stage a o c Ha).
  intros name n Hn Hg.
  destruct (names_Light o name Hc Hn) as [-> | ->].
  - destruct Hi as [Hi|Hi]; rewrite Hi in Hg; discriminate.
  - rewrite Hcol in Hg. discriminate.
Qed.

Lemma stage_reaches_lamp c : reaches stage lamp c → c = lamp.
Proof.
  destruct stage_heap as (_ & H2 & _).
  apply (stage_light_leaf lamp stage_lamp c H2 eq_refl).
  - left. vm_compute. reflexivity.
  - vm_compute. reflexivity.
Qed.

Lemma stage_reaches_lamp2 c : reaches stage lamp2 c → c = lamp2.
Proof.
  destruct stage_heap as (_ & _ & _ & H4).
  apply (stage_light_leaf lamp2 stage_lamp2 c H4 eq_refl).
  - right. vm_compute. reflexivity.
  - vm_compute. reflexivity.
Qed.

Lemma stage_fixture_child o l name n :
  o_class o = Fixture →
  getattr stage o "lamp" = Val (VObj l) →
  getattr stage o "label" = Val (VStr "") →
  name ∈ properties_names o None →
  getattr stage o name = Val (VObj n) →
  name = "lamp" ∧ n = l.
Proof.
  intros Hc Hl Hlab Hn Hg.
  destruct (names_Fixture o name Hc Hn) as [-> | ->].
  - rewrite Hl in Hg. by injection Hg as <-.
  - rewrite Hlab in Hg. discriminate.
Qed.

Lemma stage_fixture_children name n :
  name ∈ properties_names fixture_obj None →
  getattr stage fixture_obj name = Val (VObj n) →
  name = "lamp" ∧ n = lamp.
Proof.
  intros Hn Hg.
  apply (stage_fixture_child fixture_obj lamp name n eq_refl);
    [vm_compute; reflexivity|vm_compute; reflexivity|done|done].
Qed.

Lemma stage_fixture2_children name n :
  name ∈ properties_names stage_fixture2 None →
  getattr stage stage_fixture2 name = Val (VObj n) →
  name = "lamp" ∧ n = lamp2.
Proof.
  intros Hn Hg.
  apply (stage_fixture_child stage_fixture2 lamp2 name n eq_refl);
    [vm_compute; reflexivity|vm_compute; reflexivity|done|done].
Qed.

Lemma stage_reaches_fixture c :
  reaches stage fixture c → c = fixture ∨ c = lamp.
Proof.
  intros Hr. inversion Hr as [|? o name n ? Ha Hn Hg Hr']; subst; [by left|].
  destruct stage_heap as (H1 & _). assert (o = fixture_obj) as -> by congruence.
  destruct (stage_fixture_children name n Hn Hg) as [-> ->].
  right. by apply stage_reaches_lamp.
Qed.

Lemma stage_reaches_fixture2 c :
  reaches stage fixture2 c → c = fixture2 ∨ c = lamp2.
Proof.
  intros Hr. inversion Hr as [|? o name n ? Ha Hn Hg Hr']; subst; [by left|].
  destruct stage_heap as (_ & _ & H3 & _).
  assert (o = stage_fixture2) as -> by congruence.
  destruct (stage_fixture2_children name n Hn Hg) as [-> ->].
  right. by apply stage_reaches_lamp2.
Qed.

Lemma stage_tree : tree stage fixture2.
Proof.
  destruct stage_heap as (_ & _ & H3 & H4).
  apply (tree_node stage fixture2 stage_fixture2); [done|done| | |].
  - intros name n Hn Hg.
    destruct (stage_fixture2_children name n Hn Hg) as [-> ->].
    apply (tree_node stage lamp2 stage_lamp2); [done|done| | |].
    + intros name n Hn' Hg'. exfalso.
      assert (VObj n = VInt 0 ∨ VObj n = VStr "white") as [?|?]; [|done|done].
      destruct (names_Light stage_lamp2 name eq_refl Hn') as [-> | ->];
        vm_compute in Hg'; injection Hg' as <-; eauto.
    + intros name n Hn' Hg'. exfalso.
      assert (VObj n = VInt 0 ∨ VObj n = VStr "white") as [?|?]; [|done|done].
      destruct (names_Light stage_lamp2 name eq_refl Hn') as [-> | ->];
        vm_compute in Hg'; injection Hg' as <-; eauto.
    + intros name1 name2 n1 n2 c _ Hn1 _ Hg1. exfalso.
      assert (VObj n1 = VInt 0 ∨ VObj n1 = VStr "white") as [?|?]; [|done|done].
      destruct (names_Light stage_lamp2 name1 eq_refl Hn1) as [-> | ->];
        vm_compute in Hg1; injection Hg1 as <-; eauto.
  - intros name n Hn Hg Hr.
    destruct (stage_fixture2_children name n Hn Hg) as [-> ->].
    by apply stage_reaches_lamp2 in Hr.
  - intros name1 name2 n1 n2 c Hne Hn1 Hn2 Hg1 Hg2.
    destruct (stage_fixture2_children name1 n1 Hn1 Hg1) as [-> ->].
    destruct (stage_fixture2_children name2 n2 Hn2 Hg2) as [-> ->].
    done.
Qed.

Lemma stage_apart : apart stage stage fixture fixture2.
Proof.
  intros c H1 H2.
  apply stage_reaches_fixture in H1. apply stage_reaches_fixture2 in H2.
  destruct H1 as [-> | ->], H2 as [?|?]; done.
Qed.

Lemma stage_alike (defaults : bool) :
  alike (target_ready defaults) 2 stage fixture fixture2.
Proof.
  destruct stage_heap as (H1 & H2 & H3 & H4).
  cbn [alike]. exists fixture_obj, stage_fixture2.
  split; [done|]. split; [done|]. split; [done|].
  intros name Hn. destruct (names_Fixture fixture_obj name eq_refl Hn)
    as [-> | ->].
  - exists (VObj lamp), (VObj lamp2).
    split; [vm_compute; reflexivity|]. split; [vm_compute; reflexivity|].
    apply related_obj. exists stage_lamp, stage_lamp2.
    split; [done|]. split; [done|]. split; [done|].
    intros name Hn'. destruct (names_Light stage_lamp name eq_refl Hn')
      as [-> | ->].
    + exists (VInt 50), (VInt 0).
      split; [vm_compute; reflexivity|]. split; [vm_compute; reflexivity|].
      apply related_plain; [done|done|].
      destruct defaults; [done|]. vm_compute. reflexivity.
    + exists (VStr "white"), (VStr "white").
      split; [vm_compute; reflexivity|]. split; [vm_compute; reflexivity|].
      apply related_plain; [done|done|].
      destruct defaults; [done|]. vm_compute. reflexivity.
  - exists (VStr ""), (VStr "").
    split; [vm_compute; reflexivity|]. split; [vm_compute; reflexivity|].
    apply related_plain; [done|done|].
    destruct defaults; [done|]. vm_compute. reflexivity.
Qed.

Lemma full_round_trip_witness :
  ∃ E st',
    properties 2 stage fixture true None = Val E ∧
    update_properties 2 fixture2 (VDict E) stage = Ok () st' ∧
    alike (restored true) 2 st' fixture fixture2 ∧
    (∀ c, ¬ reaches stage fixture2 c → heap st' !! c = heap stage !! c).
Proof.
  apply (full_round_trip 2 stage fixture fixture2
           (stage_alike true) stage_tree stage_apart).
Defined.

Lemma sparse_round_trip_witness :
  ∃ E st',
    properties 2 stage fixture false None = Val E ∧
    update_properties 2 fixture2 (VDict E) stage = Ok () st' ∧
    alike (restored false) 2 st' fixture fixture2 ∧
    (∀ c, ¬ reaches stage fixture2 c → heap st' !! c = heap stage !! c).
Proof.
  apply (sparse_round_trip 2 stage fixture fixture2
           (stage_alike false) stage_tree stage_apart).
Defined.

(** X25 (round trip into a new instance).  Let [o] be an instance of a
    class without instance properties that binds every registered name to
    a [Property] whose default is no [HasProperties] object, and let no
    property of [o] hold a nested object.  For [o2], a newly constructed
    instance of the class of [o], the export of [o] (full or sparse)
    returns, [o2.update_properties] of it returns, and [o2] then holds
    under every name the value of [o] (for the sparse export: or the
    default, when it is equal to the value of [o]). *)
Theorem fresh_round_trip (defaults : bool) st a oa :
  heap st !! a = Some oa →
  k_instance_properties (o_class oa) = false →
  (∀ name, name ∈ k_properties (o_class oa) →
     ∃ d, k_attrs (o_class oa) !! name = Some (CProperty d) ∧
          is_object d = false) →
  (∀ name, name ∈ properties_names oa None →
     ∃ v, getattr st oa name = Val v ∧ is_object v = false) →
  ∃ E st',
    properties 1 (new_instance (o_class oa) st).2 a defaults None = Val E ∧
    update_properties 1 (new_instance (o_class oa) st).1 (VDict E)
      (new_instance (o_class oa) st).2 = Ok () st' ∧
    alike (restored defaults) 1 st' a (new_instance (o_class oa) st).1.
Proof.
  intros Ha Hk Hdecl Hflat.
  set (b := (new_instance (o_class oa) st).1).
  set (st1 := (new_instance (o_class oa) st).2).
  set (ob := Obj (o_class oa) ∅ ∅ ∅ (next_signal st)).
  assert (heap st1 !! b = Some ob) as Hb by apply fresh_instance_heap.
  assert (a ≠ b) as Hab.
  { intros ->. unfold b, new_instance in Ha. simpl in Ha.
    apply (is_fresh (dom (heap st))). apply elem_of_dom. eauto. }
  assert (heap st1 !! a = Some oa) as Ha1.
  { unfold st1, new_instance. simpl. by rewrite lookup_insert_ne. }
  assert (wrappers st1 = wrappers st) as Hw by done.
  assert (∀ name, getattr st1 oa name = getattr st oa name) as Hget
    by (intros; by apply getattr_ext).
  assert (properties_names ob None = properties_names oa None) as Hnames
    by (by rewrite !names_plain).
  assert (∀ name, name ∈ properties_names oa None →
            ∃ d, getattr st1 ob name = Val d ∧ is_object d = false ∧
                 _property oa name = Val (CProperty d)) as Hfresh.
  { intros name Hn. rewrite names_plain in Hn by done.
    destruct (Hdecl name Hn) as (d & Hd & Hod). exists d.
    split; [by apply fresh_getattr|]. split; [done|].
    by apply property_plain. }
  assert (∀ c, reaches st1 a c → c = a) as Hra.
  { intros c. apply (reaches_leaf st1 a oa c Ha1). intros name n Hn Hg.
    destruct (Hflat name Hn) as (v & Hv & Hov). rewrite Hget, Hv in Hg.
    by injection Hg as ->. }
  assert (∀ name n, name ∈ properties_names ob None →
            getattr st1 ob name ≠ Val (VObj n)) as Hleaf.
  { intros name n Hn Hg. rewrite Hnames in Hn.
    destruct (Hfresh name Hn) as (d & Hd & Hod & _). rewrite Hd in Hg.
    by injection Hg as ->. }
  assert (∀ c, reaches st1 b c → c = b) as Hrb
    by (intros c; by apply (reaches_leaf st1 b ob c Hb)).
  destruct (round_trip_all defaults 1 st1 st1 a b eq_refl (λ _ _, eq_refl))
    as (E & st' & HE & HU & Hpost & _).
  - cbn [alike]. exists oa, ob. split; [done|]. split; [done|].
    split; [done|]. intros name Hn.
    destruct (Hflat name Hn) as (v & Hv & Hov).
    destruct (Hfresh name Hn) as (d & Hd & Hod & Hp).
    exists v, d. split; [by rewrite Hget|]. split; [done|].
    apply related_plain; [done|done|].
    unfold target_ready. by destruct defaults.
  - apply (tree_node st1 b ob); [done|done| | |].
    + intros name n Hn Hg. by destruct (Hleaf name n).
    + intros name n Hn Hg. by destruct (Hleaf name n).
    + intros name1 name2 n1 n2 c _ Hn1 _ Hg1. by destruct (Hleaf name1 n1).
  - intros c H1 H2. apply Hra in H1. apply Hrb in H2. congruence.
  - by exists E, st'.
Qed.

Lemma fresh_round_trip_witness :
  ∃ E st',
    properties 1 (new_instance (o_class dimmed_obj) dimmed).2 light false None
    = Val E ∧
    update_properties 1 (new_instance (o_class dimmed_obj) dimmed).1 (VDict E)
      (new_instance (o_class dimmed_obj) dimmed).2 = Ok () st' ∧
    alike (restored false) 1 st' light
          (new_instance (o_class dimmed_obj) dimmed).1.
Proof.
  apply (fresh_round_trip false dimmed light dimmed_obj).
  - vm_compute. reflexivity.
  - reflexivity.
  - intros name Hn.
    assert (name = "intensity" ∨ name = "color") as [-> | ->].
    { revert Hn. simpl. set_solver. }
    + exists (VInt 0). split; [vm_compute; reflexivity|done].
    + exists (VStr "white"). split; [vm_compute; reflexivity|done].
  - intros name Hn.
    destruct (names_Light dimmed_obj name eq_refl Hn) as [-> | ->].
    + exists (VInt 50). split; [vm_compute; reflexivity|done].
    + exists (VStr "white"). split; [vm_compute; reflexivity|done].
Defined.

End RoundTrip.

(** * Names that are no properties *)

Section Unrecognised.

Implicit Types (st : state) (a n : addr) (o : obj) (name : string)
  (v d : value).

(** X26 (assignment to a name that is no property).  Assigning a value
    other than an [InstanceProperty] to a name that the instance does not
    recognise stores the value and emits nothing; the recognised names are
    what they were, and no other attribute of the instance changes. *)
Theorem setattr_unrecognised_silent st a o name v :
  heap st !! a = Some o →
  name ∉ properties_names o None →
  is_wrapper v = false →
  ∃ st' o',
    setattr a name v st = Ok () st' ∧
    log st' = log st ∧
    heap st' !! a = Some o' ∧
    getattr st' o' name = Val v ∧
    properties_names o' None = properties_names o None ∧
    (∀ other, other ≠ name → getattr st' o' other = getattr st o other).
Proof.
  intros Ha Hn Hv.
  assert (setattr a name v st = base_setattr a name v st) as ->.
  { unfold setattr. rewrite Ha.
    destruct (k_instance_properties (o_class o)) eqn:Hk; [|done].
    assert (∀ X Y : outcome unit,
              match v with VIProp _ => X | _ => Y end = Y) as ->
      by (intros; by destruct v).
    rewrite decide_False; [done|]. intros Hi. apply Hn.
    unfold properties_names, _properties_names. rewrite Hk.
    apply elem_of_union. by right. }
  unfold base_setattr. rewrite Ha, decide_False by done.
  eexists _, _. split; [done|]. simpl. split; [done|].
  rewrite lookup_insert_eq. split; [done|]. split; [|split; [done|]].
  - unfold getattr.
    rewrite (object_getattribute_stored _ name v)
      by (simpl; apply lookup_insert_eq).
    by destruct v.
  - intros other Hne. apply getattr_ext; [done|done|]. simpl.
    by apply lookup_insert_ne.
Qed.

Lemma setattr_unrecognised_silent_witness :
  ∃ st' o',
    setattr light "note" (VStr "spare") light_state = Ok () st' ∧
    log st' = log light_state ∧
    heap st' !! light = Some o' ∧
    getattr st' o' "note" = Val (VStr "spare") ∧
    properties_names o' None = properties_names light_obj None ∧
    (∀ other, other ≠ "note" →
              getattr st' o' other = getattr light_state light_obj other).
Proof.
  apply (setattr_unrecognised_silent light_state light light_obj).
  - vm_compute. reflexivity.
  - apply (bool_decide_unpack _). vm_compute. exact I.
  - reflexivity.
Defined.

End Unrecognised.

Module MetaRebind.
Import Meta MetaFacts Cascade MetaCascade.

(** X27 (rebinding a registered name).  Binding a value that is no
    [Property] to an attribute of a class changes no registry: a name that
    was registered stays registered in the class and in its subclasses,
    although the class now binds it to something else. *)
Theorem setattr_plain_keeps_registry (fuel : nat) c name v k t :
  t !! c = Some k →
  ∃ t', __setattr__ fuel c name (CPlain v) t = Done t' ∧
        (∀ s, registry t' s = registry t s) ∧
        namespace <$> t' !! c = Some (<[name := CPlain v]> (namespace k)).
Proof.
  intros Hk. unfold __setattr__. simpl. eexists. split; [done|]. split.
  - intros s. apply registry_alter_namespace.
  - by rewrite list_lookup_alter_eq, Hk.
Qed.

Lemma setattr_plain_keeps_registry_witness :
  ∃ t', __setattr__ 0 1 "p" (CPlain (VInt 5)) family = Done t' ∧
        (∀ s, registry t' s = registry family s) ∧
        namespace <$> t' !! 1
        = Some (<[ "p" := CPlain (VInt 5) ]>
                  (namespace (Cls [Proper 0] {[ "p" := CProperty (VInt 0) ]}
                                  {[ "p" ]}))).
Proof.
  apply (setattr_plain_keeps_registry 0 1 "p" (VInt 5)
           (Cls [Proper 0] {[ "p" := CProperty (VInt 0) ]} {[ "p" ]}) family).
  reflexivity.
Defined.

End MetaRebind.

(** * The cache of signals *)

Section ChangedCache.

Implicit Types (st : state) (a : addr) (o : obj) (name : string)
  (sl : slot) (s : sigid).

(** [changed] writes one place only: the signal of the name asked for. *)
Lemma changed_frame a name st sl :
  sl ≠ Named a name →
  signal_at (final (changed a name st)) sl = signal_at st sl.
Proof.
  intros Hsl. unfold changed.
  destruct (heap st !! a) as [o|] eqn:Ha; [|done].
  case_decide; [|done].
  destruct (o_changed_signals o !! name) as [s|] eqn:Hs; [done|]. simpl.
  destruct sl as [b|b nm]; simpl.
  - destruct (decide (b = a)) as [->|Hne].
    + by rewrite lookup_insert_eq, Ha.
    + by rewrite lookup_insert_ne.
  - destruct (decide (b = a)) as [->|Hne].
    + rewrite lookup_insert_eq, Ha. simpl.
      rewrite lookup_insert_ne; [done|]. congruence.
    + by rewrite lookup_insert_ne.
Qed.

Lemma changed_keeps a name st sl s :
  signal_at st sl = Some s →
  signal_at (final (changed a name st)) sl = Some s.
Proof.
  intros Hs. destruct (decide (sl = Named a name)) as [->|Hne].
  - simpl in Hs. unfold changed.
    destruct (heap st !! a) as [o|] eqn:Ha; [|done]. simpl in Hs.
    case_decide; [|simpl; by rewrite Ha].
    rewrite Hs. simpl. by rewrite Ha.
  - by rewrite changed_frame.
Qed.

Lemma new_instance_keeps k st sl s :
  signal_at st sl = Some s → signal_at (new_instance k st).2 sl = Some s.
Proof.
  intros Hs. unfold new_instance. simpl.
  assert (∀ b, is_Some (heap st !! b) → b ≠ fresh (dom (heap st))) as Hf.
  { intros b Hb ->. apply elem_of_dom in Hb. by apply is_fresh in Hb. }
  destruct sl as [b|b nm]; simpl in *.
  - destruct (heap st !! b) as [o|] eqn:Hb; [|done].
    rewrite lookup_insert_ne, Hb; [done|].
    intros Heq. by apply (Hf b).
  - destruct (heap st !! b) as [o|] eqn:Hb; [|done].
    rewrite lookup_insert_ne, Hb; [done|].
    intros Heq. by apply (Hf b).
Qed.

Lemma object_delattr_signals a name st sl :
  signal_at (final (object_delattr a name st)) sl = signal_at st sl.
Proof.
  unfold object_delattr.
  destruct (heap st !! a) as [o|] eqn:Ha; [|done].
  assert (signal_at
            (set_heap (<[a := with_attrs (delete name) o]> (heap st)) st) sl
          = signal_at st sl) as Hset.
  { destruct sl as [b|b nm]; simpl;
      (destruct (decide (b = a)) as [->|Hne];
       [by rewrite lookup_insert_eq, Ha|by rewrite lookup_insert_ne]). }
  destruct (k_attrs (o_class o) !! name) as [[]|];
    destruct (o_attrs o !! name); done.
Qed.

Lemma unregister_i_property_signals a name st sl :
  signal_at (final (unregister_i_property a name st)) sl = signal_at st sl.
Proof.
  unfold unregister_i_property.
  destruct (heap st !! a) as [o|] eqn:Ha; [|done].
  destruct sl as [b|b nm]; simpl;
    (destruct (decide (b = a)) as [->|Hne];
     [by rewrite lookup_insert_eq, Ha|by rewrite lookup_insert_ne]).
Qed.

Lemma delattr_signals a name st sl :
  signal_at (final (delattr a name st)) sl = signal_at st sl.
Proof.
  unfold delattr. destruct (heap st !! a) as [o|] eqn:Ha; [|done].
  destruct (k_instance_properties (o_class o)).
  - pose proof (object_delattr_signals a name st sl) as H1.
    destruct (object_delattr a name st) as [[] st1|e st1]; simpl in *.
    + by rewrite unregister_i_property_signals.
    + done.
  - apply object_delattr_signals.
Qed.

(** No operation of the interface removes or replaces a signal. *)
Lemma step_keeps st st' sl s :
  step st st' → signal_at st sl = Some s → signal_at st' sl = Some s.
Proof.
  intros Hstep Hs. destruct Hstep.
  - by apply new_instance_keeps.
  - done.
  - by apply changed_keeps.
  - by rewrite (proj1 (setattr_signals _ _ _ _)).
  - by rewrite delattr_signals.
  - destruct (update_properties_evolves fuel a m st) as (_ & Hsig & _).
    by rewrite Hsig.
Qed.

Lemma steps_keep st st' sl s :
  rtc step st st' → signal_at st sl = Some s → signal_at st' sl = Some s.
Proof. induction 1; eauto using step_keeps. Qed.

Lemma same_classes_refl st : same_classes st st.
Proof. intros b ob Hb. eauto. Qed.

Lemma same_classes_trans st1 st2 st3 :
  same_classes st1 st2 → same_classes st2 st3 → same_classes st1 st3.
Proof.
  intros H12 H23 b ob Hb.
  destruct (H12 b ob Hb) as (ob2 & Hb2 & Hc2).
  destruct (H23 b ob2 Hb2) as (ob3 & Hb3 & Hc3).
  exists ob3. split; [done|]. congruence.
Qed.

(** A write of the instance at [a] that keeps its class. *)
Lemma same_classes_store st a o o' :
  heap st !! a = Some o → o_class o' = o_class o →
  same_classes st (set_heap (<[a := o']> (heap st)) st).
Proof.
  intros Ha Hc b ob Hb. simpl. destruct (decide (b = a)) as [->|Hne].
  - rewrite lookup_insert_eq. exists o'. split; [done|]. congruence.
  - rewrite lookup_insert_ne by done. eauto.
Qed.

Lemma same_classes_and_then {A B} st (m : outcome A)
    (k : A → state → outcome B) :
  same_classes st (final m) →
  (∀ x st1, m = Ok x st1 → same_classes st1 (final (k x st1))) →
  same_classes st (final (and_then m k)).
Proof.
  intros Hm Hk. destruct m as [x st1|e st1]; simpl in *; [|done].
  eapply same_classes_trans; [exact Hm|]. by apply Hk.
Qed.

Lemma setattr_classes a name v st :
  same_classes st (final (setattr a name v st)).
Proof.
  destruct (heap st !! a) as [o|] eqn:Ha.
  2:{ unfold setattr. rewrite Ha. apply same_classes_refl. }
  destruct (setattr_effect a name v st o Ha) as (o' & Hh & Hc & _).
  intros b ob Hb. rewrite Hh. destruct (decide (b = a)) as [->|Hne].
  - rewrite lookup_insert_eq. exists o'. split; [done|]. congruence.
  - rewrite lookup_insert_ne by done. eauto.
Qed.

Lemma update_items_classes nested a items st :
  (∀ n v st0, same_classes st0 (final (nested n v st0))) →
  same_classes st (final (update_items nested a items st)).
Proof.
  intros Hnested. revert st.
  induction items as [|[name v] rest IH]; intros st; simpl.
  { apply same_classes_refl. }
  destruct (heap st !! a) as [o|] eqn:Ha; [|apply same_classes_refl].
  apply same_classes_and_then; [|intros; apply IH].
  case_decide; [|apply same_classes_refl].
  destruct (getattr st o name) as [cur|e]; [|apply same_classes_refl].
  destruct cur; first [apply Hnested | apply setattr_classes].
Qed.

Lemma update_properties_classes (fuel : nat) a (m : value) st :
  same_classes st (final (update_properties fuel a m st)).
Proof.
  revert a m st. induction fuel as [|k IH]; intros a m st; simpl.
  { apply same_classes_refl. }
  destruct m; try apply same_classes_refl.
  by apply update_items_classes.
Qed.

Lemma object_delattr_classes a name st :
  same_classes st (final (object_delattr a name st)).
Proof.
  unfold object_delattr.
  destruct (heap st !! a) as [o|] eqn:Ha; [|apply same_classes_refl].
  pose proof (same_classes_store st a o (with_attrs (delete name) o) Ha
                eq_refl) as Hset.
  destruct (k_attrs (o_class o) !! name) as [[]|];
    destruct (o_attrs o !! name); first [exact Hset | apply same_classes_refl].
Qed.

Lemma delattr_classes a name st :
  same_classes st (final (delattr a name st)).
Proof.
  unfold delattr.
  destruct (heap st !! a) as [o|] eqn:Ha; [|apply same_classes_refl].
  destruct (k_instance_properties (o_class o)).
  - apply same_classes_and_then; [apply object_delattr_classes|].
    intros _ st1 _. unfold unregister_i_property.
    destruct (heap st1 !! a) as [o1|] eqn:Ha1; [|apply same_classes_refl].
    by apply (same_classes_store st1 a o1).
  - apply object_delattr_classes.
Qed.

(** No operation of the interface removes an instance or changes its
    class. *)
Lemma step_classes st st' : step st st' → same_classes st st'.
Proof.
  intros Hstep. destruct Hstep.
  - intros b ob Hb. unfold new_instance. simpl.
    rewrite lookup_insert_ne; [eauto|].
    intros <-. apply (is_fresh (dom (heap st))).
    apply elem_of_dom. eauto.
  - intros b ob Hb. simpl. eauto.
  - unfold changed.
    destruct (heap st !! a) as [o|] eqn:Ha; [|apply same_classes_refl].
    case_decide; [|apply same_classes_refl].
    destruct (o_changed_signals o !! name); [apply same_classes_refl|].
    by apply (same_classes_store st a o).
  - apply setattr_classes.
  - apply delattr_classes.
  - apply update_properties_classes.
Qed.

Lemma steps_classes st st' : rtc step st st' → same_classes st st'.
Proof.
  induction 1; [apply same_classes_refl|].
  eapply same_classes_trans; [by apply step_classes|done].
Qed.

(** The names that the class declares are recognised. *)
Lemma class_names_recognised o name :
  name ∈ k_properties (o_class o) → name ∈ properties_names o None.
Proof.
  intros Hn. unfold properties_names, _properties_names.
  destruct (k_instance_properties (o_class o)); [|done].
  apply elem_of_union. by left.
Qed.

(** A cached signal is what [changed] returns. *)
Lemma changed_cached a name st o s :
  heap st !! a = Some o →
  signal_at st (Named a name) = Some s →
  name ∈ properties_names o None →
  changed a name st = Ok s st.
Proof.
  intros Ha Hs Hn. simpl in Hs. rewrite Ha in Hs. simpl in Hs.
  unfold changed. by rewrite Ha, decide_True, Hs.
Qed.

(** C7 (contract of [changed]).  [changed(name)] raises ([ValueError], the
    error the specification calls NotFound) exactly when [name] is not a
    recognised property name.  For a recognised name it returns a signal:
    the one already cached for the name, or else a newly constructed signal
    that is cached.  The call writes no other place: the aggregate signals
    and the signals of the other names and of the other instances are where
    they were.  The signal stays cached: a second call returns the same
    signal and changes nothing, and so does a call made after any number of
    other operations (calls of [changed] for other names, assignments,
    deletions, imports, constructions), as long as the name is still
    recognised. *)
Theorem C7_changed_contract st a o name :
  heap st !! a = Some o →
  ((∃ e st', changed a name st = Raise e st') ↔
     name ∉ properties_names o None) ∧
  (name ∉ properties_names o None →
     changed a name st = Raise ValueError st) ∧
  (name ∈ properties_names o None →
     ∃ s st1,
       changed a name st = Ok s st1 ∧
       changed a name st1 = Ok s st1 ∧
       signal_at st1 (Named a name) = Some s ∧
       match o_changed_signals o !! name with
       | Some s0 => s = s0 ∧ st1 = st
       | None => s = next_signal st ∧ next_signal st1 = Pos.succ s
       end ∧
       (∀ sl, sl ≠ Named a name → signal_at st1 sl = signal_at st sl) ∧
       (∀ st2, rtc step st1 st2 →
          signal_at st2 (Named a name) = Some s ∧
          ∃ o2, heap st2 !! a = Some o2 ∧
                o_class o2 = o_class o ∧
                o_changed_signals o2 !! name = Some s ∧
                (name ∈ properties_names o2 None →
                 changed a name st2 = Ok s st2) ∧
                (name ∈ k_properties (o_class o) →
                 changed a name st2 = Ok s st2))).
Proof.
  intros Ha. destruct (changed_contract st a o name Ha) as (H1 & H2 & H3).
  split; [done|]. split; [done|]. intros Hn.
  destruct (H3 Hn) as (s & st1 & Hc & Hc' & Hs & Hm).
  exists s, st1. do 4 (split; [done|]). split.
  - intros sl Hsl. pose proof (changed_frame a name st sl Hsl) as Hf.
    by rewrite Hc in Hf.
  - intros st2 Hsteps.
    pose proof (steps_keep _ _ _ _ Hsteps Hs) as Hs2.
    split; [done|]. simpl in Hs2.
    assert (same_classes st st2) as Hcl.
    { eapply same_classes_trans; [|by apply steps_classes].
      pose proof (step_classes _ _ (step_changed a name st)) as H0.
      by rewrite Hc in H0. }
    destruct (Hcl a o Ha) as (o2 & Ha2 & Hc2).
    rewrite Ha2 in Hs2. simpl in Hs2.
    assert (name ∈ properties_names o2 None → changed a name st2 = Ok s st2)
      as Hagain.
    { intros Hn2. apply (changed_cached a name st2 o2 s); try done.
      simpl. by rewrite Ha2. }
    exists o2. do 4 (split; [done|]).
    intros Hk. apply Hagain, class_names_recognised. by rewrite Hc2.
Qed.

(** C7 on the example: [l.changed("intensity")], then any use of the
    program, among which [l.changed("color")] and a second
    [l.changed("intensity")]. *)
Lemma C7_changed_contract_witness :
  ((∃ e st', changed light "intensity" light_state = Raise e st') ↔
     "intensity" ∉ properties_names light_obj None) ∧
  ("intensity" ∉ properties_names light_obj None →
     changed light "intensity" light_state = Raise ValueError light_state) ∧
  ("intensity" ∈ properties_names light_obj None →
     ∃ s st1,
       changed light "intensity" light_state = Ok s st1 ∧
       changed light "intensity" st1 = Ok s st1 ∧
       signal_at st1 (Named light "intensity") = Some s ∧
       match o_changed_signals light_obj !! "intensity" with
       | Some s0 => s = s0 ∧ st1 = light_state
       | None => s = next_signal light_state ∧ next_signal st1 = Pos.succ s
       end ∧
       (∀ sl, sl ≠ Named light "intensity" →
              signal_at st1 sl = signal_at light_state sl) ∧
       (∀ st2, rtc step st1 st2 →
          signal_at st2 (Named light "intensity") = Some s ∧
          ∃ o2, heap st2 !! light = Some o2 ∧
                o_class o2 = o_class light_obj ∧
                o_changed_signals o2 !! "intensity" = Some s ∧
                ("intensity" ∈ properties_names o2 None →
                 changed light "intensity" st2 = Ok s st2) ∧
                ("intensity" ∈ k_properties (o_class light_obj) →
                 changed light "intensity" st2 = Ok s st2))).
Proof.
  apply (C7_changed_contract light_state light light_obj "intensity").
  vm_compute. reflexivity.
Defined.

(** The calls [l.changed("intensity")], [l.changed("color")],
    [l.changed("intensity")] on the example: the third call returns the
    signal of the first, and the second another one. *)
Lemma changed_interleaved :
  ∃ s1 s2 st1 st2,
    changed light "intensity" light_state = Ok s1 st1 ∧
    changed light "color" st1 = Ok s2 st2 ∧
    changed light "intensity" st2 = Ok s1 st2 ∧
    s1 ≠ s2.
Proof.
  exists (next_signal light_state), (Pos.succ (next_signal light_state)),
    (final (changed light "intensity" light_state)),
    (final (changed light "color"
              (final (changed light "intensity" light_state)))).
  split; [vm_compute; reflexivity|].
  split; [vm_compute; reflexivity|].
  split; [vm_compute; reflexivity|].
  vm_compute. discriminate.
Qed.

End ChangedCache.

(** * Which signals a nested import fires *)

Section OwnerSilence.

Implicit Types (st : state) (a n c : addr) (o : obj) (name nm : string)
  (v : value) (e : event).

Lemma serial_leaf v :
  serial v = true → is_object v = false ∧ is_wrapper v = false.
Proof. by destruct v. Qed.

Lemma narrows_refl st : narrows st st.
Proof. intros b ob Hb. exists ob. by repeat split. Qed.

Lemma narrows_trans st1 st2 st3 :
  narrows st1 st2 → narrows st2 st3 → narrows st1 st3.
Proof.
  intros H12 H23 b ob3 Hb3.
  destruct (H23 b ob3 Hb3) as (ob2 & Hb2 & Hn2 & Hp2 & Hc2 & Hg2).
  destruct (H12 b ob2 Hb2) as (ob1 & Hb1 & Hn1 & Hp1 & Hc1 & Hg1).
  exists ob1. split; [done|]. repeat split; try congruence.
  intros nm c Hg. by apply Hg1, Hg2.
Qed.

(** Only the instances and the wrappers matter. *)
Lemma narrows_ext st st1 st' :
  heap st' = heap st1 → wrappers st' = wrappers st1 →
  narrows st st1 → narrows st st'.
Proof.
  intros Hh Hw H b ob' Hb. rewrite Hh in Hb.
  destruct (H b ob' Hb) as (ob & Hob & Hn & Hp & Hc & Hg).
  exists ob. repeat split; try done.
  intros nm c Hc'. apply Hg. rewrite <- Hc'. symmetry. by apply getattr_ext.
Qed.

Lemma narrows_reaches st st' a c :
  narrows st st' → reaches st' a c → reaches st a c.
Proof.
  intros H Hr. induction Hr as [a|a o name n c Ha Hn Hg _ IH].
  - constructor.
  - destruct (H a o Ha) as (ob & Hob & Hnames & _ & _ & Hback).
    apply (reaches_nested st a ob name n c); try done.
    + by rewrite <- Hnames.
    + by apply Hback.
Qed.

Lemma narrows_notifies st st' e c nm :
  narrows st st' → notifies st' e c nm → notifies st e c nm.
Proof.
  intros H (o' & v & Hb & He).
  destruct (H c o' Hb) as (o & Ho & _ & Hpc & Hcs & _).
  exists o, v. split; [done|].
  rewrite (notification_signals c o' o nm v); [done|done|by rewrite Hcs].
Qed.

(** Storing a value that is no reference adds no reference. *)
Lemma store_narrows st a o name v :
  heap st !! a = Some o → is_object v = false → is_wrapper v = false →
  narrows st (set_heap (<[a := with_attrs (insert name v) o]> (heap st)) st).
Proof.
  intros Ha Hob Hwr b ob' Hb. simpl in Hb.
  destruct (decide (b = a)) as [->|Hne].
  - rewrite lookup_insert_eq in Hb. injection Hb as <-.
    exists o. split; [done|]. repeat split; try done.
    intros nm c Hg. destruct (decide (nm = name)) as [->|Hnm].
    + exfalso. unfold getattr, object_getattribute in Hg. simpl in Hg.
      rewrite lookup_insert_eq in Hg. simpl in Hg.
      destruct (k_attrs (o_class o) !! name) as [[d|d]|]; by destruct v.
    + rewrite <- Hg. symmetry. apply getattr_ext; [done|done|].
      simpl. by rewrite lookup_insert_ne.
  - rewrite lookup_insert_ne in Hb by done.
    exists ob'. by repeat split.
Qed.

(** So does [__pset__], for every instance that reads the wrapper. *)
Lemma pset_narrows st w p v :
  wrappers st !! w = Some p → is_object v = false →
  narrows st (set_wrappers (<[w := IProp v (ip_default p)]> (wrappers st)) st).
Proof.
  intros Hp Hob b ob Hb. simpl in Hb.
  exists ob. repeat split; try done.
  intros nm c. unfold getattr, __pget__. simpl.
  destruct (object_getattribute ob nm) as [[| | | | |w']|]; try done.
  destruct (k_instance_properties (o_class ob)); [|done].
  destruct (decide (w' = w)) as [->|Hne].
  - rewrite lookup_insert_eq. simpl. intros [= ->]. done.
  - by rewrite lookup_insert_ne.
Qed.

Lemma confined_refl a st : confined a st st.
Proof.
  split; [apply narrows_refl|]. exists []. rewrite app_nil_r.
  split; [done|constructor].
Qed.

Lemma confined_trans a st1 st2 st3 :
  confined a st1 st2 → confined a st2 st3 → confined a st1 st3.
Proof.
  intros [N1 (new1 & L1 & F1)] [N2 (new2 & L2 & F2)].
  split; [by eapply narrows_trans|].
  exists (new1 ++ new2). split; [by rewrite L2, L1, app_assoc|].
  apply Forall_app. split; [done|].
  eapply List.Forall_impl; [|exact F2].
  intros e (c & nm & Hr & Hn). exists c, nm.
  split; [by eapply narrows_reaches|by eapply narrows_notifies].
Qed.

Lemma confined_and_then {A B} a st (m : outcome A)
    (k : A → state → outcome B) :
  confined a st (final m) →
  (∀ x st1, m = Ok x st1 → confined a st1 (final (k x st1))) →
  confined a st (final (and_then m k)).
Proof.
  intros Hm Hk. destruct m as [x st1|e st1]; simpl in *; [|done].
  eapply confined_trans; [exact Hm|]. by apply Hk.
Qed.

(** What a nested object does is done within what its holder reaches. *)
Lemma confined_nested a o name n st st' :
  heap st !! a = Some o → name ∈ properties_names o None →
  getattr st o name = Val (VObj n) →
  confined n st st' → confined a st st'.
Proof.
  intros Ha Hn Hg [N (new & L & F)]. split; [done|].
  exists new. split; [done|].
  eapply List.Forall_impl; [|exact F].
  intros e (c & nm & Hr & Hnot). exists c, nm.
  split; [by eapply reaches_nested|done].
Qed.

(** An assignment of a value that is no reference notifies the instance
    assigned to, at most, and adds no reference. *)
Lemma setattr_confined a name v st :
  is_object v = false → is_wrapper v = false →
  confined a st (final (setattr a name v st)).
Proof.
  intros Hob Hwr. unfold setattr.
  destruct (heap st !! a) as [o|] eqn:Ha; [|apply confined_refl].
  assert (∀ new, new = [] ∨ new = notification a o name v →
            Forall (λ e, ∃ c nm, reaches st a c ∧ notifies st e c nm) new)
    as Hlog.
  { intros new [-> | ->]; [constructor|].
    apply Forall_forall. intros e He%list_elem_of_In.
    exists a, name. split; [constructor|]. by exists o, v. }
  assert (confined a st (final (base_setattr a name v st))) as Hbase.
  { destruct (base_setattr_final a name v st o Ha)
      as (stb & new & Eb & Hh & Hw & _ & Hl & Hnew).
    rewrite Eb. simpl. split.
    - apply (narrows_ext st
               (set_heap (<[a := with_attrs (insert name v) o]> (heap st)) st));
        [done|done|by apply store_narrows].
    - exists new. split; [done|]. by apply Hlog. }
  destruct (k_instance_properties (o_class o)); [|exact Hbase].
  assert (∀ X Y : outcome unit,
            match v with VIProp _ => X | _ => Y end = Y) as Hm
    by (intros; by destruct v).
  rewrite Hm. clear Hm. case_decide as Hi; [|exact Hbase].
  destruct (object_getattribute o name) as [x|e] eqn:Hx;
    [|apply confined_refl].
  destruct (is_wrapper x) eqn:Hxw;
    [|destruct x; try done; apply confined_refl].
  destruct x as [| | | | |w]; try done.
  unfold __pset__. destruct (wrappers st !! w) as [p|] eqn:Hp;
    [|apply confined_refl].
  simpl. set (st1 := set_wrappers _ st).
  destruct (emit_changed_ok a name v st1 o Ha)
    as (st' & E & Hh' & Hw' & _ & Hl').
  rewrite E. simpl. split.
  - apply (narrows_ext st st1); [done|done|by apply pset_narrows].
  - exists (notification a o name v). split; [done|]. apply Hlog. by right.
Qed.

Lemma update_items_confined nested a (items : dict) st :
  (∀ n v st0, serial v = true → confined n st0 (final (nested n v st0))) →
  serial (VDict items) = true →
  confined a st (final (update_items nested a items st)).
Proof.
  intros Hnested. revert st.
  induction items as [|[name v] rest IH]; intros st Hs; simpl.
  { apply confined_refl. }
  simpl in Hs. apply andb_true_iff in Hs as [Hv Hrest].
  destruct (heap st !! a) as [o|] eqn:Ha; [|apply confined_refl].
  apply confined_and_then; [|intros; by apply IH].
  case_decide; [|apply confined_refl].
  destruct (getattr st o name) as [cur|e] eqn:Hcur; [|apply confined_refl].
  destruct (is_object cur) eqn:Hobj.
  - destruct cur; try done. eapply confined_nested; eauto.
  - assert (∀ (X : addr → outcome unit) (Y : outcome unit),
              match cur with VObj n => X n | _ => Y end = Y) as Hm
      by (intros; by destruct cur).
    rewrite Hm. apply setattr_confined; by apply serial_leaf.
Qed.

(** An import of a serial mapping notifies only assignments to instances
    that the target reaches, and adds no reference. *)
Lemma update_properties_confined (fuel : nat) a (m : value) st :
  serial m = true →
  confined a st (final (update_properties fuel a m st)).
Proof.
  revert a m st. induction fuel as [|k IH]; intros a m st Hs; simpl.
  { apply confined_refl. }
  destruct m; try apply confined_refl.
  apply update_items_confined; [|done]. intros. by apply IH.
Qed.

(** The signals of the instance that holds itself are distinct. *)
Lemma ring_wf_signals : wf_signals ring.
Proof.
  unfold ring. eapply wf_signals_evolves.
  - eapply (setattr_evolves node "next" (VObj node) _ _ VNone).
    + vm_compute. reflexivity.
    + vm_compute. reflexivity.
    + reflexivity.
  - apply wf_signals_new_instance. apply wf_signals_empty.
Qed.

(** C10, counterexample.  [nd = Node(); nd.next = nd]: the property [next]
    of [nd] is recognised and holds an instance, [nd] itself, and
    [nd.update_properties({"next": {"v": 2}})] fires the aggregate signal
    of [nd], with [(nd, "v", 2)]. *)
Lemma C10_self_holding_counterexample :
  wf_signals ring ∧
  heap ring !! node = Some node_obj ∧
  "next" ∈ properties_names node_obj None ∧
  getattr ring node_obj "next" = Val (VObj node) ∧
  update_properties 2 node (VDict [("next", VDict [("v", VInt 2)])]) ring
  = Ok () (final (update_properties 2 node
                    (VDict [("next", VDict [("v", VInt 2)])]) ring)) ∧
  log (final (update_properties 2 node
                (VDict [("next", VDict [("v", VInt 2)])]) ring))
  = log ring ++ [Emit (o_property_changed node_obj)
                      [VObj node; VStr "v"; VInt 2]].
Proof.
  split; [exact ring_wf_signals|].
  split; [vm_compute; reflexivity|].
  split; [apply (bool_decide_unpack _); vm_compute; exact I|].
  split; [vm_compute; reflexivity|].
  split; vm_compute; reflexivity.
Qed.

(** C10, amended (when a nested merge is silent on the owner).  When the
    instance holds a nested object under [name], the mapping [m] is serial
    and the nested object does not reach the instance again, then
    [update_properties({name: m})] fires, in whatever way it ends, no signal
    of the instance: neither its aggregate signal nor the signal of any of
    its names.  Every emission is a notification of an assignment to an
    instance that the nested object reaches. *)
Theorem C10_nested_update_silent (fuel : nat) st a o name n (m : value) :
  wf_signals st → heap st !! a = Some o →
  name ∈ properties_names o None →
  getattr st o name = Val (VObj n) →
  serial m = true →
  ¬ reaches st n a →
  ∃ new,
    log (final (update_properties fuel a (VDict [(name, m)]) st))
    = log st ++ new ∧
    ∀ s args, Emit s args ∈ new →
      s ≠ o_property_changed o ∧
      (∀ nm, o_changed_signals o !! nm ≠ Some s) ∧
      ∃ c nm, reaches st n c ∧ notifies st (Emit s args) c nm.
Proof.
  intros [_ Huniq] Ha Hn Hg Hs Hnr.
  assert (confined n st
            (final (update_properties fuel a (VDict [(name, m)]) st)))
    as [_ (new & Hl & Hnew)].
  { destruct fuel as [|k]; simpl; [apply confined_refl|].
    rewrite Ha, decide_True, Hg by done.
    pose proof (update_properties_confined k n m st Hs) as Hc.
    by destruct (update_properties k n m st). }
  exists new. split; [done|]. intros s args He.
  rewrite List.Forall_forall in Hnew. apply list_elem_of_In in He.
  destruct (Hnew _ He) as (c & nm & Hr & (oc & v & Hc & Hin)).
  assert (c ≠ a) as Hca by (by intros ->).
  assert (signal_at st (Aggregate c) = Some s ∨
          signal_at st (Named c nm) = Some s) as Hslot.
  { unfold notification in Hin. apply elem_of_cons in Hin as [Hin|Hin].
    - injection Hin as -> ->. left. simpl. by rewrite Hc.
    - destruct (o_changed_signals oc !! nm) as [s'|] eqn:Hs';
        [|by apply elem_of_nil in Hin].
      apply list_elem_of_singleton in Hin. injection Hin as -> ->.
      right. simpl. by rewrite Hc. }
  split; [|split].
  - intros ->.
    assert (signal_at st (Aggregate a) = Some (o_property_changed o)) as Hsa
      by (simpl; by rewrite Ha).
    destruct Hslot as [H1|H1];
      pose proof (Huniq _ _ _ H1 Hsa) as Heq; by simplify_eq.
  - intros nm0 Hs0.
    assert (signal_at st (Named a nm0) = Some s) as Hsa
      by (simpl; by rewrite Ha).
    destruct Hslot as [H1|H1];
      pose proof (Huniq _ _ _ H1 Hsa) as Heq; by simplify_eq.
  - exists c, nm. split; [done|]. by exists oc, v.
Qed.

(** C10 on the rig: [f.update_properties({"lamp": {"intensity": 50}})]. *)
Lemma C10_nested_update_silent_witness :
  ∃ new,
    log (final (update_properties 2 fixture
                  (VDict [("lamp", VDict [("intensity", VInt 50)])]) rig))
    = log rig ++ new ∧
    ∀ s args, Emit s args ∈ new →
      s ≠ o_property_changed fixture_obj ∧
      (∀ nm, o_changed_signals fixture_obj !! nm ≠ Some s) ∧
      ∃ c nm, reaches rig lamp c ∧ notifies rig (Emit s args) c nm.
Proof.
  apply (C10_nested_update_silent 2 rig fixture fixture_obj "lamp" lamp
           (VDict [("intensity", VInt 50)])).
  - exact wf_signals_rig.
  - vm_compute. reflexivity.
  - apply (bool_decide_unpack _). vm_compute. exact I.
  - vm_compute. reflexivity.
  - reflexivity.
  - intros Hr.
    assert (fixture = lamp) as Heq; [|discriminate].
    apply (reaches_leaf rig lamp (Obj Light ∅ ∅ ∅ 2%positive));
      [vm_compute; reflexivity| |exact Hr].
    intros nm n Hn Hg.
    destruct (names_Light (Obj Light ∅ ∅ ∅ 2%positive) nm eq_refl Hn)
      as [-> | ->];
      vm_compute in Hg; discriminate.
Defined.

(** The emissions of that call on the rig: the aggregate signal of the
    lamp, once. *)
Lemma rig_nested_update_log :
  log (final (update_properties 2 fixture
                (VDict [("lamp", VDict [("intensity", VInt 50)])]) rig))
  = log rig ++ [Emit 2%positive [VObj lamp; VStr "intensity"; VInt 50]].
Proof. vm_compute. reflexivity. Qed.

End OwnerSilence.

(** * The full round trip *)

Section FullRoundTrip.

Implicit Types (st : state) (a b c : addr) (o : obj) (name : string)
  (v : value).




End FullRoundTrip.
